(** * DexArm sketch pipeline: device driver, safe-motion executor,
      command generator and path-order optimizer.

    Shallow embedding of
      - [src/dexarm_tests/dexarm.py]   (class [Dexarm]),
      - [src/dexarm_controller.py]     (class [DexArmController]),
      - [src/svg_parser.py]            (class [SVGPathParser]),
      - [src/svg_plotter_methods.py] / [src/svg_clean_centerline.py]
        ([_optimize_path_order]).

    Coordinates, heights and feedrates are Python numbers; they are
    modelled as exact rationals [Q], so comparisons such as
    [abs(z_diff) < 0.5] are the exact ones and rounding is not modelled.
    Where rounding decides a property - the mapping of a drawing onto the
    drawing area - the code is given for an arithmetic of one's choice,
    in [AreaMapping], with binary64 floats and the rationals as its two
    instances, and a statement says which one it is about. *)

From Stdlib Require Import String Ascii.
From Stdlib Require Import List ZArith QArith Qabs Bool Lia Lqa Permutation.
From Stdlib Require PrimFloat.
Import ListNotations.
Open Scope Q_scope.

(** ** Boolean comparisons on [Q] *)

Definition Qltb (a b : Q) : bool := negb (Qle_bool b a).

(** Python's [max(a, b)]: the first argument unless the second is greater. *)
Definition py_max (a b : Q) : Q := if Qltb a b then b else a.

(** ** Results of fallible Python code: a value or a raised exception *)

Inductive Result (E A : Type) : Type :=
| Ok (a : A)
| Raise (e : E).
Arguments Ok {E A} a.
Arguments Raise {E A} e.

(** * The serial driver, [dexarm.py] *)

Module Dexarm.

(** The G-code lines the driver formats, kept structured:
    [G0 x y z f] is [f"G0 X{x} Y{y} Z{z} F{feedrate}"]. *)
Inductive GCode : Type :=
| G0 (x y z f : Q)
| G1 (x y z f : Q)
| G28
| G90
| G91
| M17
| M84.

Record Pose : Type := mkPose { px : Q; py : Q; pz : Q }.

(** The exceptions of the driver and of the controller, one constructor
    per [raise] statement. *)
Inductive Exn : Type :=
| NotConnectedToDexArm                (* ConnectionError, send_gcode l.67 *)
| WriteTimeout (c : GCode)            (* TimeoutError,    send_gcode l.104 *)
| ErrorSending (c : GCode)            (* RuntimeError,    send_gcode l.106 *)
| DexArmNotConnected                  (* RuntimeError,    controller *)
| HomingTimedOut (timeout : Q).       (* TimeoutError,    controller l.125:
                                         "Homing timed out after .. seconds.
                                          The arm may be stuck or unpowered." *)

Inductive ExnClass : Type := ConnectionError | TimeoutError | RuntimeError.

Definition class_of (e : Exn) : ExnClass :=
  match e with
  | NotConnectedToDexArm => ConnectionError
  | WriteTimeout _ => TimeoutError
  | ErrorSending _ => RuntimeError
  | DexArmNotConnected => RuntimeError
  | HomingTimedOut _ => TimeoutError
  end.

Definition is_TimeoutError (e : Exn) : bool :=
  match class_of e with TimeoutError => true | _ => false end.

(** Outcome of [serial.write] followed by [serial.flush]. *)
Inductive WriteOutcome : Type :=
| Written
| SerialTimeoutException
| OtherException.

(** One turn of the polling loop of [send_gcode] (l.84-96). *)
Inductive Poll : Type :=
| Idle                     (* in_waiting == 0: sleep 10 ms *)
| Line (s : string)        (* readline, decoded and stripped *)
| ReadFailed               (* readline raised: swallowed by the bare except *)
| LinkLost.                (* in_waiting itself raised *)

(** The device at the other end of the serial port.  [polls c t] is the
    finite sequence of loop turns that fit between the write of [c] and
    the moment [time.time() - start_time] reaches [t]. *)
Record Port : Type := mkPort {
  is_open : bool;
  write : GCode -> WriteOutcome;
  polls : GCode -> Q -> list Poll;
  (** What [Dexarm.get_position] returns: the pose parsed from the M114
      reply, or [None] when no valid line is read or anything raises
      (l.214-219). *)
  m114 : option Pose
}.

(** State threaded through the driver: the commands [send_gcode] has
    written so far. *)
Definition Sent : Type := list GCode.

Definition M (A : Type) : Type := Sent -> Result Exn A * Sent.

Definition ret {A} (a : A) : M A := fun s => (Ok a, s).
Definition raise {A} (e : Exn) : M A := fun s => (Raise e, s).
Definition bind {A B} (m : M A) (k : A -> M B) : M B :=
  fun s => match m s with
           | (Ok a, s') => k a s'
           | (Raise e, s') => (Raise e, s')
           end.
(** [try: m except TimeoutError as e: h e] *)
Definition catch_TimeoutError {A} (m : M A) (h : Exn -> M A) : M A :=
  fun s => match m s with
           | (Raise e, s') => if is_TimeoutError e then h e s' else (Raise e, s')
           | r => r
           end.
Definition emit (c : GCode) : M unit := fun s => (Ok tt, s ++ [c]).

Declare Scope py_scope.
Delimit Scope py_scope with py.
Notation "x <- m ;; k" := (bind m (fun x => k))
  (at level 61, m at next level, right associativity) : py_scope.
Notation "m ;;; k" := (bind m (fun _ => k))
  (at level 61, right associativity) : py_scope.
Open Scope py_scope.

Definition newline : string := String (ascii_of_nat 10) EmptyString.

(** ['\n'.join(response_lines) if response_lines else ""] *)
Definition join_lines (ls : list string) : string := String.concat newline ls.

(** The [while] loop of [send_gcode], l.84-99. *)
Fixpoint wait_for_ok (turns : list Poll) (response_lines : list string)
  : option string :=
  match turns with
  | [] => Some (join_lines response_lines)       (* timeout: l.98-99 *)
  | Idle :: rest => wait_for_ok rest response_lines
  | ReadFailed :: rest => wait_for_ok rest response_lines
  | LinkLost :: _ => None
  | Line line :: rest =>
      if String.eqb line EmptyString then wait_for_ok rest response_lines
      else
        let response_lines := response_lines ++ [line] in
        if String.eqb line "ok" then Some (join_lines response_lines)
        else wait_for_ok rest response_lines
  end.

(** [Dexarm.send_gcode(command, wait_ok, timeout)], l.54-106. *)
Definition send_gcode (d : Port) (command : GCode) (wait_ok : bool)
           (timeout : Q) : M string :=
  if negb (is_open d) then raise NotConnectedToDexArm
  else
    match write d command with
    | SerialTimeoutException => raise (WriteTimeout command)
    | OtherException => raise (ErrorSending command)
    | Written =>
        emit command ;;;
        if wait_ok then
          match wait_for_ok (polls d command timeout) [] with
          | Some response => ret response
          | None => raise (ErrorSending command)
          end
        else ret EmptyString
    end.

(** [Dexarm.get_position()], l.159-219: never raises.  Its own M114
    request (l.169-174) goes to the port directly and not through
    [send_gcode]; it is not among the commands [Sent] records, which are
    those of [send_gcode]. *)
Definition get_position (d : Port) : M (option Pose) := ret (m114 d).

(** [Dexarm.go_home(timeout)], l.108-129. *)
Definition go_home (d : Port) (timeout : Q) : M unit :=
  _ <- send_gcode d G28 true timeout ;;
  pos <- get_position d ;;
  ret tt.

(** [Dexarm.fast_move_to(x, y, z, feedrate)], l.141-149; [send_gcode]
    is called with its defaults [wait_ok=True, timeout=10]. *)
Definition fast_move_to (d : Port) (x y z feedrate : Q) : M unit :=
  _ <- send_gcode d (G0 x y z feedrate) true 10 ;;
  ret tt.

(** [Dexarm.move_to(x, y, z, feedrate)], l.131-139. *)
Definition move_to (d : Port) (x y z feedrate : Q) : M unit :=
  _ <- send_gcode d (G1 x y z feedrate) true 10 ;;
  ret tt.

(** [set_absolute_positioning()] and [set_relative_positioning()],
    l.151-157. *)
Definition set_absolute_positioning (d : Port) : M unit :=
  _ <- send_gcode d G90 true 10 ;;
  ret tt.

Definition set_relative_positioning (d : Port) : M unit :=
  _ <- send_gcode d G91 true 10 ;;
  ret tt.

(** [unlock_motors()] and [lock_motors()], l.230-248: sent without
    waiting for an answer. *)
Definition unlock_motors (d : Port) : M unit :=
  _ <- send_gcode d M84 false 10 ;;
  ret tt.

Definition lock_motors (d : Port) : M unit :=
  _ <- send_gcode d M17 false 10 ;;
  ret tt.

(** The non-empty lines a sequence of loop turns delivers, in order. *)
Fixpoint received (turns : list Poll) : list string :=
  match turns with
  | [] => []
  | Line s :: rest =>
      if String.eqb s EmptyString then received rest else s :: received rest
  | _ :: rest => received rest
  end.

(** The lines up to and including the first ["ok"]; all of them when
    there is none. *)
Fixpoint until_ok (lines : list string) : list string :=
  match lines with
  | [] => []
  | s :: rest => if String.eqb s "ok" then [s] else s :: until_ok rest
  end.

Definition link_lost (p : Poll) : bool :=
  match p with LinkLost => true | _ => false end.

End Dexarm.

(** * Motion commands, as produced by the generator and consumed by the
      executor: [{'type': .., 'x': .., 'y': .., 'z': .., 'feedrate': ..}] *)

Inductive CommandType : Type := move | draw.

Record Command : Type := mkCommand {
  type : CommandType;
  x : Q;
  y : Q;
  z : Q;
  feedrate : Q
}.

(** * The controller, [dexarm_controller.py] *)

Module DexArmController.
Import Dexarm.
Open Scope py_scope.

Record Controller : Type := mkController {
  is_connected : bool;
  _dexarm : option Port
}.

(** The guard [if not self.is_connected or not self._dexarm] that opens
    every device operation: the port when it passes. *)
Definition device (self : Controller) : option Port :=
  if is_connected self then _dexarm self else None.

(** [home(timeout)], l.108-125. *)
Definition home (self : Controller) (timeout : Q) : M unit :=
  match device self with
  | None => raise DexArmNotConnected
  | Some d =>
      catch_TimeoutError (go_home d timeout)
                         (fun _ => raise (HomingTimedOut timeout))
  end.

(** [get_position()], l.187-204: any exception of the driver is turned
    into [None]. *)
Definition get_position (self : Controller) : M (option Pose) :=
  match device self with
  | None => raise DexArmNotConnected
  | Some d =>
      fun s => match Dexarm.get_position d s with
               | (Ok pos, s') => (Ok pos, s')
               | (Raise _, s') => (Ok None, s')
               end
  end.

(** The three branches on [z_diff], l.164-185. *)
Definition move_from (d : Port) (x y z feedrate current_z : Q) : M Q :=
  let z_diff := z - current_z in
  (if Qltb (Qabs z_diff) (1 # 2) then
     fast_move_to d x y z feedrate
   else if Qltb 0 z_diff then
     fast_move_to d current_z current_z z 10000 ;;;
     fast_move_to d x y z 10000
   else
     fast_move_to d x y current_z 10000 ;;;
     fast_move_to d x y z feedrate) ;;;
  ret z.

(** [move_to_safe(x, y, z, feedrate, current_z)], l.133-185. *)
Definition move_to_safe (self : Controller) (x y z feedrate : Q)
           (current_z : option Q) : M Q :=
  match device self with
  | None => raise DexArmNotConnected
  | Some d =>
      match current_z with
      | Some current_z => move_from d x y z feedrate current_z
      | None =>
          pos <- get_position self ;;
          match pos with
          | Some pos => move_from d x y z feedrate (pz pos)
          | None =>
              (* fall back to simple move *)
              fast_move_to d x y z feedrate ;;;
              ret z
          end
      end
  end.

(** The execution loop of [app.py], l.770-786: [current_z] is read once
    and then threaded through the calls. *)
Fixpoint execute_from (self : Controller) (commands : list Command)
         (current_z : option Q) : M (option Q) :=
  match commands with
  | [] => ret current_z
  | cmd :: rest =>
      z' <- move_to_safe self (x cmd) (y cmd) (z cmd) (feedrate cmd) current_z ;;
      execute_from self rest (Some z')
  end.

Definition execute (self : Controller) (commands : list Command)
  : M (option Q) :=
  pos <- get_position self ;;
  execute_from self commands
               (match pos with Some p => Some (pz p) | None => None end).

(** The pose the arm holds once the commands of a log are carried out
    (absolute positioning, set by [connect]): the target of the last
    move, or [start] when the log has no move. *)
Definition target_of (c : GCode) : option Pose :=
  match c with
  | G0 x y z _ => Some (mkPose x y z)
  | G1 x y z _ => Some (mkPose x y z)
  | _ => None
  end.

Fixpoint pose_after (start : Pose) (log : Sent) : Pose :=
  match log with
  | [] => start
  | c :: rest =>
      pose_after (match target_of c with Some p => p | None => start end) rest
  end.

(** The straight segments the arm travels for a log, from [start]. *)
Fixpoint segments (start : Pose) (log : Sent) : list (Pose * Pose) :=
  match log with
  | [] => []
  | c :: rest =>
      match target_of c with
      | Some p => (start, p) :: segments p rest
      | None => segments start rest
      end
  end.

Definition same_xy (p q : Pose) : bool :=
  Qeq_bool (px p) (px q) && Qeq_bool (py p) (py q).

(** A segment drags the tool when its XY changes while its Z, which
    runs from the Z of its start to the Z of its end, is somewhere
    below [max(prevZ, targetZ) - 0.5]. *)
Definition drags (prev_z target_z : Q) (seg : Pose * Pose) : bool :=
  let lo := py_max prev_z target_z - (1 # 2) in
  negb (same_xy (fst seg) (snd seg))
  && (Qltb (pz (fst seg)) lo || Qltb (pz (snd seg)) lo).

(** A port that is open, takes every write and acknowledges at once. *)
Definition responsive (position : option Pose) : Port :=
  mkPort true (fun _ => Written) (fun _ _ => [Line "ok"]) position.

(** A port that is open and takes every write, but never answers. *)
Definition silent : Port :=
  mkPort true (fun _ => Written) (fun _ _ => [Idle; Idle; Idle]) None.

(** A port that is open, but whose writes time out and from which no
    position is read. *)
Definition unwritable : Port :=
  mkPort true (fun _ => SerialTimeoutException) (fun _ _ => []) None.

(** The port takes the command and the wait for its acknowledgement
    ends without the link failing. *)
Definition Accepts (d : Port) (c : GCode) (timeout : Q) : Prop :=
  is_open d = true /\ write d c = Written
  /\ wait_for_ok (polls d c timeout) [] <> None.

(** The arm of the examples: connected, with a port that acknowledges
    every command. *)
Definition arm : Controller := mkController true (Some (responsive None)).

End DexArmController.

(** * The command generator, [svg_parser.py] *)

Module SVGPathParser.

(** A point of an SVG path: the complex number [real + imag j]. *)
Definition Pt : Type := (Q * Q)%type.

(** The segment classes of the [svg.path] package.  A curve is given by
    its method [point(t)], which is all the generator calls. *)
Inductive Segment : Type :=
| Move (end_ : Pt)
| Line (start end_ : Pt)
| Close (start end_ : Pt)
| CubicBezier (point : Q -> Pt)
| QuadraticBezier (point : Q -> Pt)
| Arc (point : Q -> Pt).

Definition Path : Type := list Segment.

Record Parser : Type := mkParser {
  paths : list Path;
  width : option Q;
  height : option Q
}.

(** The dictionary returned by [DexArmController.get_drawing_area]. *)
Record DrawingArea : Type := mkArea {
  area_width : Q;
  area_height : Q;
  x_min : Q;
  y_min : Q;
  x_max : Q;
  y_max : Q;
  z_draw : option Q      (* the key ['z_draw'] may be missing *)
}.

(** Python's [min(a, b)]: the first argument unless the second is less. *)
Definition py_min (a b : Q) : Q := if Qltb b a then b else a.

(** [DexArmController.get_drawing_area], l.341-357, from the two taught
    corners. *)
Definition get_drawing_area (c1 c2 : Dexarm.Pose) : DrawingArea :=
  let xmin := py_min (Dexarm.px c1) (Dexarm.px c2) in
  let xmax := py_max (Dexarm.px c1) (Dexarm.px c2) in
  let ymin := py_min (Dexarm.py c1) (Dexarm.py c2) in
  let ymax := py_max (Dexarm.py c1) (Dexarm.py c2) in
  mkArea (xmax - xmin) (ymax - ymin) xmin ymin xmax ymax
         (Some (Dexarm.pz c1)).

(** [v or 100] on an attribute that is [None] or a number. *)
Definition or_100 (v : option Q) : Q :=
  match v with
  | Some w => if Qeq_bool w 0 then 100 else w
  | None => 100
  end.

(** [_transform_point], l.307-325, without rounding;
    [AreaMapping._transform_point] has it in binary64 as well. *)
Definition _transform_point (svg_x svg_y scale offset_x offset_y : Q) : Pt :=
  (svg_x * scale + offset_x, svg_y * scale + offset_y).

(** [_is_in_bounds], l.327-340. *)
Definition _is_in_bounds (x y : Q) (drawing_area : DrawingArea) : bool :=
  (Qle_bool (x_min drawing_area) x && Qle_bool x (x_max drawing_area))
  && (Qle_bool (y_min drawing_area) y && Qle_bool y (y_max drawing_area)).

(** Scale and centering offsets, l.172-188, without rounding: in
    binary64 [svg_width * (width / svg_width)] need not be [width], and
    [AreaMapping.mapping] has the offsets as Python computes them. *)
Record Mapping : Type := mkMapping { scale : Q; offset_x : Q; offset_y : Q }.

Definition mapping (self : Parser) (drawing_area : DrawingArea) : Mapping :=
  let svg_width := or_100 (width self) in
  let svg_height := or_100 (height self) in
  let scale_x := area_width drawing_area / svg_width in
  let scale_y := area_height drawing_area / svg_height in
  let scale := py_max scale_x scale_y in
  let scaled_width := svg_width * scale in
  let scaled_height := svg_height * scale in
  mkMapping scale
    (x_min drawing_area + (area_width drawing_area - scaled_width) / 2)
    (y_min drawing_area + (area_height drawing_area - scaled_height) / 2).

(** Segments that are not curves. *)
Definition straight (seg : Segment) : bool :=
  match seg with
  | Move _ | Line _ _ | Close _ _ => true
  | _ => false
  end.

(** Segments handled by the branch for [Line] and [Close]. *)
Definition line_only (seg : Segment) : bool :=
  match seg with
  | Line _ _ | Close _ _ => true
  | _ => false
  end.

(** [segment.end] of a segment that is not a curve. *)
Definition line_end (seg : Segment) : Pt :=
  match seg with
  | Move e | Line _ e | Close _ e => e
  | _ => (0, 0)
  end.

Section generator.
Variable drawing_area : DrawingArea.
Variable m : Mapping.
(** [z_draw] after l.165-166, [z_up_actual], and the two feedrates. *)
Variables z_draw' z_up_actual pen_down_feedrate pen_up_feedrate : Q.

Definition transform (p : Pt) : Pt :=
  _transform_point (fst p) (snd p) (scale m) (offset_x m) (offset_y m).

Definition move_cmd (p : Pt) : Command :=
  mkCommand move (fst p) (snd p) z_up_actual pen_up_feedrate.

Definition draw_cmd (p : Pt) : Command :=
  mkCommand draw (fst p) (snd p) z_draw' pen_down_feedrate.

(** State of the loop over the segments of one path. *)
Definition LoopState : Type := (list Command * bool)%type.

(** One turn of [for i in range(num_samples + 1)], l.261-291. *)
Definition sample (point : Q -> Pt) (st : LoopState) (i : nat) : LoopState :=
  let '(commands, first_point) := st in
  let t := inject_Z (Z.of_nat i) / 20 in
  let p := transform (point t) in
  if first_point && Nat.eqb i 0 then
    (commands ++ [move_cmd p; draw_cmd p], false)
  else
    (commands ++ [draw_cmd p], first_point).

Definition curve (point : Q -> Pt) (st : LoopState) : LoopState :=
  fold_left (sample point) (seq 0 21) st.

(** The branch for [Line] and [Close], l.223-256. *)
Definition line_to (end_ : Pt) (st : LoopState) : LoopState :=
  let '(commands, first_point) := st in
  let p := transform end_ in
  if negb (_is_in_bounds (fst p) (snd p) drawing_area) then st
  else if first_point then
    (commands ++ [move_cmd p; draw_cmd p], false)
  else
    (commands ++ [draw_cmd p], first_point).

(** One turn of [for segment in path], l.209-291. *)
Definition segment_step (st : LoopState) (segment : Segment) : LoopState :=
  match segment with
  | Move end_ => (fst st ++ [move_cmd (transform end_)], false)
  | Line _ end_ => line_to end_ st
  | Close _ end_ => line_to end_ st
  | CubicBezier point => curve point st
  | QuadraticBezier point => curve point st
  | Arc point => curve point st
  end.

(** Lift pen at end of path, l.293-302. *)
Definition lift (commands : list Command) : list Command :=
  match commands with
  | [] => []
  | _ =>
      let last_cmd := last commands (mkCommand move 0 0 0 0) in
      commands ++ [mkCommand move (x last_cmd) (y last_cmd)
                             z_up_actual pen_up_feedrate]
  end.

(** The body of [for path in self.paths] after the budget test. *)
Definition path_step (commands : list Command) (path : Path)
  : list Command :=
  lift (fst (fold_left segment_step path (commands, true))).

(** What the call produces: the list it returns, the counter
    [path_count], and the number of skipped paths it prints when the
    limit is hit (l.201). *)
Record Generated : Type := mkGenerated {
  commands : list Command;
  path_count : Z;
  skipped : option Z
}.

(** [for path in self.paths], l.196-302. *)
Fixpoint paths_loop (total max_commands : Z) (todo : list Path)
         (commands : list Command) (path_count : Z) : Generated :=
  match todo with
  | [] => mkGenerated commands path_count None
  | path :: rest =>
      if Z.geb (Z.of_nat (List.length commands)) max_commands then
        mkGenerated commands path_count (Some (total - path_count)%Z)
      else
        paths_loop total max_commands rest
                   (path_step commands path) (path_count + 1)%Z
  end.

(** The generator with no budget: every path is processed. *)
Definition generate_all (ps : list Path) : list Command :=
  fold_left path_step ps [].

(** The mapped end points of a stroke of lines that lie in the drawing
    area, in order. *)
Definition kept (path : Path) : list Pt :=
  filter (fun p => _is_in_bounds (fst p) (snd p) drawing_area)
         (map (fun seg => transform (line_end seg)) path).

(** Pen up over the first point, pen down on it, then a draw per point. *)
Definition touch_down (pts : list Pt) : list Command :=
  match pts with
  | [] => []
  | p :: rest => move_cmd p :: draw_cmd p :: map draw_cmd rest
  end.

Definition no_points (pts : list Pt) : bool :=
  match pts with [] => true | _ => false end.

(** Every draw of a list of commands lies in the drawing area. *)
Definition draws_inside (cmds : list Command) : Prop :=
  Forall (fun c => type c = draw -> _is_in_bounds (x c) (y c) drawing_area = true) cmds.

End generator.

(** The drawing height of a call, l.165-166: [drawing_area['z_draw']]
    when the key is there, the argument otherwise. *)
Definition z_draw_of (area : DrawingArea) (z_draw : Q) : Q :=
  match SVGPathParser.z_draw area with Some zd => zd | None => z_draw end.

(** [convert_to_drawing_commands], l.144-305. *)
Definition convert_to_drawing_commands (self : Parser)
           (drawing_area : DrawingArea)
           (z_draw z_up pen_down_feedrate pen_up_feedrate : Q)
           (max_commands : Z) : Generated :=
  match paths self with
  | [] => mkGenerated [] 0 None
  | _ =>
      let z_draw := z_draw_of drawing_area z_draw in
      let z_up_actual := z_draw + z_up in
      paths_loop drawing_area (mapping self drawing_area)
                 z_draw z_up_actual pen_down_feedrate pen_up_feedrate
                 (Z.of_nat (List.length (paths self))) max_commands
                 (paths self) [] 0
  end.

(** The cubic from [a] to [b] whose control points are evenly spaced on
    the chord: its [point(t)] is [a + t (b - a)]. *)
Definition straight_cubic (a b : Pt) : Segment :=
  CubicBezier (fun t => (fst a + t * (fst b - fst a),
                         snd a + t * (snd b - snd a))).

(** Corners taught at (0, 0, 0) and (200, 200, 0). *)
Definition sheet : DrawingArea :=
  get_drawing_area (Dexarm.mkPose 0 0 0) (Dexarm.mkPose 200 200 0).

(** A 100 x 100 drawing with the one stroke "M 10,10 L 20,20". *)
Definition one_stroke : Parser :=
  mkParser [[Move (10, 10); Line (10, 10) (20, 20)]] (Some 100) (Some 100).

(** A 100 x 200 drawing with the one stroke "M 10,10 C 20,10 30,10 40,10",
    near its top edge.  On the square sheet the scale is 2 and the
    drawing is centered, so its top and bottom quarters fall off the
    sheet. *)
Definition one_curve : Parser :=
  mkParser [[Move (10, 10); straight_cubic (10, 10) (40, 10)]]
           (Some 100) (Some 200).

(** A command with its numbers in lowest terms. *)
Definition reduced (c : Command) : Command :=
  mkCommand (type c) (Qred (x c)) (Qred (y c)) (Qred (z c)) (Qred (feedrate c)).

Definition is_draw (c : Command) : bool :=
  match type c with draw => true | move => false end.

End SVGPathParser.

(** * The mapping onto the drawing area, in the arithmetic of one's
      choice: [get_drawing_area] of [dexarm_controller.py] (l.341-357)
      and [svg_parser.py] l.50-73, 172-188, 307-340 *)

Module AreaMapping.
Import PrimFloat.

(** The arithmetic the code is run in: the type of its numbers, the
    operations [+], [-], [*], [/], the comparisons [<], [<=], [==], and
    the literals [0], [2] and [100] of the source. *)
Record Arithmetic : Type := mkArithmetic {
  num : Type;
  plus : num -> num -> num;
  minus : num -> num -> num;
  times : num -> num -> num;
  divide : num -> num -> num;
  less : num -> num -> bool;
  less_eq : num -> num -> bool;
  is_zero : num -> bool;      (* [v == 0], the falsity of a number *)
  lit_0 : num;
  lit_2 : num;
  lit_100 : num
}.

(** Python's floats: IEEE 754 binary64, rounding to nearest even. *)
Definition binary64 : Arithmetic :=
  mkArithmetic PrimFloat.float
               PrimFloat.add PrimFloat.sub PrimFloat.mul PrimFloat.div
               PrimFloat.ltb PrimFloat.leb
               (fun v => PrimFloat.eqb v 0%float)
               0%float 2%float 100%float.

(** The rationals, where nothing is rounded. *)
Definition exact : Arithmetic :=
  mkArithmetic Q Qplus Qminus Qmult Qdiv Qltb Qle_bool
               (fun v => Qeq_bool v 0) 0 2 100.

Section in_arithmetic.
Variable A : Arithmetic.

Local Abbreviation number := (num A).

(** A taught corner: the keys ['x'], ['y'] and ['z']. *)
Record Corner : Type := mkCorner {
  corner_x : number;
  corner_y : number;
  corner_z : number
}.

Record DrawingArea : Type := mkArea {
  area_width : number;
  area_height : number;
  x_min : number;
  y_min : number;
  x_max : number;
  y_max : number;
  z_draw : number
}.

(** Python's [min(a, b)] and [max(a, b)]: the first argument unless the
    second is less, or greater. *)
Definition py_min (a b : number) : number := if less A b a then b else a.
Definition py_max (a b : number) : number := if less A a b then b else a.

(** [get_drawing_area], l.341-357. *)
Definition get_drawing_area (c1 c2 : Corner) : DrawingArea :=
  let xmin := py_min (corner_x c1) (corner_x c2) in
  let xmax := py_max (corner_x c1) (corner_x c2) in
  let ymin := py_min (corner_y c1) (corner_y c2) in
  let ymax := py_max (corner_y c1) (corner_y c2) in
  mkArea (minus A xmax xmin) (minus A ymax ymin) xmin ymin xmax ymax
         (corner_z c1).

(** The [viewBox] attribute, and what [_extract_dimensions] (l.50-73)
    leaves in the parser: with a view box, its width and height; its
    origin is kept in [self.viewbox] and not used again. *)
Record ViewBox : Type := mkViewBox {
  vb_x : number;
  vb_y : number;
  vb_width : number;
  vb_height : number
}.

Record Parser : Type := mkParser {
  viewbox : option ViewBox;
  width : option number;
  height : option number
}.

Definition with_viewbox (v : ViewBox) : Parser :=
  mkParser (Some v) (Some (vb_width v)) (Some (vb_height v)).

(** [v or 100]: [None] and zero are false. *)
Definition or_100 (v : option number) : number :=
  match v with
  | Some w => if is_zero A w then lit_100 A else w
  | None => lit_100 A
  end.

(** Scale and centering offsets, l.172-188. *)
Record Mapping : Type := mkMapping {
  scale : number;
  offset_x : number;
  offset_y : number
}.

Definition mapping (self : Parser) (drawing_area : DrawingArea) : Mapping :=
  let svg_width := or_100 (width self) in
  let svg_height := or_100 (height self) in
  let scale_x := divide A (area_width drawing_area) svg_width in
  let scale_y := divide A (area_height drawing_area) svg_height in
  let scale := py_max scale_x scale_y in
  let scaled_width := times A svg_width scale in
  let scaled_height := times A svg_height scale in
  mkMapping scale
    (plus A (x_min drawing_area)
         (divide A (minus A (area_width drawing_area) scaled_width) (lit_2 A)))
    (plus A (y_min drawing_area)
         (divide A (minus A (area_height drawing_area) scaled_height) (lit_2 A))).

(** [_transform_point], l.307-325. *)
Definition _transform_point (svg_x svg_y scale offset_x offset_y : number)
  : number * number :=
  (plus A (times A svg_x scale) offset_x, plus A (times A svg_y scale) offset_y).

(** [_is_in_bounds], l.327-340. *)
Definition _is_in_bounds (x y : number) (drawing_area : DrawingArea) : bool :=
  (less_eq A (x_min drawing_area) x && less_eq A x (x_max drawing_area))
  && (less_eq A (y_min drawing_area) y && less_eq A y (y_max drawing_area)).

(** The point a source point is mapped to. *)
Definition transform (m : Mapping) (p : number * number) : number * number :=
  _transform_point (fst p) (snd p) (scale m) (offset_x m) (offset_y m).

End in_arithmetic.

Arguments mkCorner {A} _ _ _.
Arguments corner_x {A} _.
Arguments corner_y {A} _.
Arguments corner_z {A} _.
Arguments mkArea {A} _ _ _ _ _ _ _.
Arguments area_width {A} _.
Arguments area_height {A} _.
Arguments x_min {A} _.
Arguments y_min {A} _.
Arguments x_max {A} _.
Arguments y_max {A} _.
Arguments z_draw {A} _.
Arguments mkViewBox {A} _ _ _ _.
Arguments mkParser {A} _ _ _.
Arguments viewbox {A} _.
Arguments width {A} _.
Arguments height {A} _.
Arguments mkMapping {A} _ _ _.
Arguments scale {A} _.
Arguments offset_x {A} _.
Arguments offset_y {A} _.

(** In binary64: a 49 x 49 drawing for an area taught at (0, 0) and
    (1, 1), and a 100 x 100 drawing for an area taught at (0, 0) and
    (110, 110). *)
Definition taught_at (side : float) : DrawingArea binary64 :=
  get_drawing_area binary64
    (mkCorner (A:=binary64) 0%float 0%float 0%float)
    (mkCorner (A:=binary64) side side 0%float).


(** A drawing with [viewBox="10 10 100 100"]. *)
Definition shifted_drawing : Parser binary64 :=
  with_viewbox binary64
    (mkViewBox (A:=binary64) 10%float 10%float 100%float 100%float).


End AreaMapping.

(** * The path-order optimizer, [_optimize_path_order] of
      [svg_plotter_methods.py] (l.290-336) and, with the same body,
      [svg_clean_centerline.py] (l.296-335). *)

Module PlotterSVGGenerator.

Definition Pt : Type := (Q * Q)%type.
Definition Polyline : Type := list Pt.

Inductive Error : Type :=
| IndexError       (* [poly[0]] or [poly[-1]] on an empty polyline *)
| OutOfFuel.       (* the model's loop bound was too small *)

(** [poly[0]] and [poly[-1]]. *)
Definition first_point (poly : Polyline) : Result Error Pt :=
  match poly with
  | [] => Raise IndexError
  | p :: _ => Ok p
  end.

Definition last_point (poly : Polyline) : Result Error Pt :=
  match poly with
  | [] => Raise IndexError
  | p :: rest => Ok (last rest p)
  end.

(** [remaining.pop(idx)]: the element and the list without it. *)
Fixpoint pop (idx : nat) (remaining : list Polyline)
  : option (Polyline * list Polyline) :=
  match remaining, idx with
  | [], _ => None
  | p :: rest, O => Some (p, rest)
  | p :: rest, S i =>
      match pop i rest with
      | Some (q, rest') => Some (q, p :: rest')
      | None => None
      end
  end.

Section optimizer.
(** [np.sqrt]. *)
Variable sqrt : Q -> Q.

(** [_point_distance], l.337-339 of [svg_clean_centerline.py]. *)
Definition _point_distance (p1 p2 : Pt) : Q :=
  sqrt ((fst p1 - fst p2) ^ 2 + (snd p1 - snd p2) ^ 2).

(** The best candidate so far: [min_dist] ([None] is [float('inf')]),
    [best_idx], [best_reverse]. *)
Record Best : Type := mkBest {
  min_dist : option Q;
  best_idx : nat;
  best_reverse : bool
}.

(** [dist < min_dist] *)
Definition closer (dist : Q) (min_dist : option Q) : bool :=
  match min_dist with
  | None => true
  | Some d => Qltb dist d
  end.

(** One turn of [for idx, poly in enumerate(remaining)]. *)
Definition consider (current_end : Pt) (idx : nat) (poly : Polyline)
           (b : Best) : Result Error Best :=
  match first_point poly with
  | Raise e => Raise e
  | Ok p0 =>
      let dist_start := _point_distance current_end p0 in
      let b := if closer dist_start (min_dist b)
               then mkBest (Some dist_start) idx false else b in
      match last_point poly with
      | Raise e => Raise e
      | Ok pn =>
          let dist_end := _point_distance current_end pn in
          Ok (if closer dist_end (min_dist b)
              then mkBest (Some dist_end) idx true else b)
      end
  end.

Fixpoint scan (current_end : Pt) (idx : nat) (remaining : list Polyline)
         (b : Best) : Result Error Best :=
  match remaining with
  | [] => Ok b
  | poly :: rest =>
      match consider current_end idx poly b with
      | Raise e => Raise e
      | Ok b' => scan current_end (S idx) rest b'
      end
  end.

(** [while remaining: ...], l.306-334; [fuel] bounds the number of
    turns. *)
Fixpoint greedy (fuel : nat) (remaining ordered : list Polyline)
         (current_end : Pt) : Result Error (list Polyline) :=
  match remaining with
  | [] => Ok ordered
  | _ =>
      match fuel with
      | O => Raise OutOfFuel
      | S fuel =>
          match scan current_end 0 remaining (mkBest None 0 false) with
          | Raise e => Raise e
          | Ok b =>
              match pop (best_idx b) remaining with
              | None => Raise IndexError
              | Some (next_poly, remaining) =>
                  let next_poly := if best_reverse b then rev next_poly
                                   else next_poly in
                  match last_point next_poly with
                  | Raise e => Raise e
                  | Ok current_end =>
                      greedy fuel remaining (ordered ++ [next_poly])
                             current_end
                  end
              end
          end
      end
  end.

(** [_optimize_path_order(polylines)]. *)
Definition _optimize_path_order (polylines : list Polyline)
  : Result Error (list Polyline) :=
  match polylines with
  | [] => Ok []
  | current :: remaining =>
      match last_point current with
      | Raise e => Raise e
      | Ok current_end =>
          greedy (List.length remaining) remaining [current] current_end
      end
  end.

(** Start and end of a polyline that has points. *)
Definition start_of (poly : Polyline) : Pt := hd (0, 0) poly.
Definition end_of (poly : Polyline) : Pt := last poly (0, 0).

(** Total pen-up travel of an ordering: the distances from the end of
    each polyline to the start of the next. *)
Fixpoint travel (order : list Polyline) : Q :=
  match order with
  | a :: (b :: _) as rest => _point_distance (end_of a) (start_of b) + travel rest
  | _ => 0
  end.

(** The start of the polyline the candidate [b] stands for. *)
Definition chosen_start (b : Best) (poly : Polyline) : Pt :=
  if best_reverse b then end_of poly else start_of poly.

(** [b] is the nearest endpoint among the first [n] polylines of [all]. *)
Definition nearest_of (current_end : Pt) (all : list Polyline) (n : nat)
           (b : Best) : Prop :=
  match min_dist b with
  | None => n = 0%nat
  | Some d =>
      (exists poly, nth_error all (best_idx b) = Some poly
                    /\ d = _point_distance current_end (chosen_start b poly))
      /\ forall j r, (j < n)%nat -> nth_error all j = Some r ->
           d <= _point_distance current_end (start_of r)
           /\ d <= _point_distance current_end (end_of r)
  end.

End optimizer.

(** A square root that is exact on the rationals whose numerator and
    denominator are perfect squares. *)
Definition sqrt_of_squares (q : Q) : Q := Z.sqrt (Qnum q) # Pos.sqrt (Qden q).

(** [out] lists the polylines of [inp], each one as it is or reversed. *)
Definition oriented (out inp : list Polyline) : Prop :=
  Forall2 (fun o i => o = i \/ o = rev i) out inp.

(** Three strokes on the x axis. *)
Definition three_strokes : list Polyline :=
  [ [(-3, 0); (0, 0)]; [(2, 0); (-1, 0)]; [(-1, 0); (-5, 0)] ].

(** Two strokes on the x axis. *)
Definition two_strokes : list Polyline :=
  [ [(-3, 0); (0, 0)]; [(2, 0); (-1, 0)] ].

End PlotterSVGGenerator.

(** * The controller's configuration, calibration and connection,
      [dexarm_controller.py] *)

Module Calibration.
Import Dexarm DexArmController.

(** A Python dict with string keys, in insertion order. *)
Definition Dict (V : Type) : Type := list (string * V).

(** [key in d] and [d[key]]. *)
Fixpoint dict_get {V} (d : Dict V) (key : string) : option V :=
  match d with
  | [] => None
  | (k, v) :: rest => if String.eqb k key then Some v else dict_get rest key
  end.

Definition dict_has {V} (d : Dict V) (key : string) : bool :=
  match dict_get d key with Some _ => true | None => false end.

(** [d[key] = v]: the value is replaced where the key is, or the pair is
    added at the end. *)
Fixpoint dict_set {V} (d : Dict V) (key : string) (v : V) : Dict V :=
  match d with
  | [] => [(key, v)]
  | (k, w) :: rest =>
      if String.eqb k key then (k, v) :: rest
      else (k, w) :: dict_set rest key v
  end.

(** [self.config], the content of [dexarm_config.json]: the keys
    ['port'], ['corners'] and ['resting_position'], each of which may be
    missing. *)
Record Config : Type := mkConfig {
  port : option string;
  corners : option (Dict Pose);
  resting_position : option Pose
}.

(** The empty dict [{}]. *)
Definition no_config : Config := mkConfig None None None.

(** The controller object: connection state and configuration. *)
Record Self : Type := mkSelf {
  ctl : Controller;
  config : Config
}.

(** What the operations act on: the controller, the configuration file
    ([None] while it does not exist), the commands [send_gcode] has
    written to the port, and the status strings a generator has
    yielded. *)
Record World : Type := mkWorld {
  self : Self;
  file : option Config;
  sent : Sent;
  yielded : list string
}.

(** What the system around the controller answers: the port
    [find_dexarm_port()] detects, and the port object [Dexarm(port)]
    builds ([None] when opening fails with [ConnectionError]). *)
Record Env : Type := mkEnv {
  find_dexarm_port : option string;
  open_serial : string -> option Port
}.

Inductive Error : Type :=
| Driver (e : Exn)                 (* an exception of the driver or a guard *)
| FailedToConnect (port : string)  (* ConnectionError, dexarm.py l.52 *)
| CouldNotReadPosition             (* RuntimeError, l.261 and l.300 *)
| NotCalibrated                    (* RuntimeError, l.395 *)
| TestDrawFailed (cause : Error).  (* RuntimeError, l.470 *)

Definition error_class (e : Error) : ExnClass :=
  match e with
  | Driver e => class_of e
  | FailedToConnect _ => ConnectionError
  | CouldNotReadPosition => RuntimeError
  | NotCalibrated => RuntimeError
  | TestDrawFailed _ => RuntimeError
  end.

Definition Act (A : Type) : Type := World -> Result Error A * World.

Definition pure {A} (a : A) : Act A := fun w => (Ok a, w).
Definition throw {A} (e : Error) : Act A := fun w => (Raise e, w).
Definition and_then {A B} (m : Act A) (k : A -> Act B) : Act B :=
  fun w => match m w with
           | (Ok a, w') => k a w'
           | (Raise e, w') => (Raise e, w')
           end.
(** [try: m except Exception as e: h e] *)
Definition try_except {A} (m : Act A) (h : Error -> Act A) : Act A :=
  fun w => match m w with
           | (Raise e, w') => h e w'
           | r => r
           end.

(** A driver call, on the log of the world. *)
Definition lift {A} (m : M A) : Act A :=
  fun w => match m (sent w) with
           | (Ok a, log) =>
               (Ok a, mkWorld (self w) (file w) log (yielded w))
           | (Raise e, log) =>
               (Raise (Driver e), mkWorld (self w) (file w) log (yielded w))
           end.

Definition get_self : Act Self := fun w => (Ok (self w), w).
Definition set_ctl (c : Controller) : Act unit :=
  fun w => (Ok tt, mkWorld (mkSelf c (config (self w))) (file w) (sent w)
                           (yielded w)).
Definition set_config (c : Config) : Act unit :=
  fun w => (Ok tt, mkWorld (mkSelf (ctl (self w)) c) (file w) (sent w)
                           (yielded w)).
(** [yield message] *)
Definition yield (message : string) : Act unit :=
  fun w => (Ok tt, mkWorld (self w) (file w) (sent w)
                           (yielded w ++ [message])).

Declare Scope ctl_scope.
Delimit Scope ctl_scope with ctl.
Notation "x <-- m ;; k" := (and_then m (fun x => k))
  (at level 61, m at next level, right associativity) : ctl_scope.
Notation "m >> k" := (and_then m (fun _ => k))
  (at level 61, right associativity) : ctl_scope.
Open Scope ctl_scope.

(** [load_config()], l.359-365, and [__init__], l.24-27. *)
Definition load_config (file : option Config) : Config :=
  match file with Some c => c | None => no_config end.

Definition init (file : option Config) : Self :=
  mkSelf (mkController false None) (load_config file).

(** [save_config()], l.367-370. *)
Definition save_config : Act unit :=
  fun w => (Ok tt, mkWorld (self w) (Some (config (self w))) (sent w)
                           (yielded w)).

(** The guard of the device operations: the port, or [RuntimeError]. *)
Definition connected : Act Port :=
  fun w => match device (ctl (self w)) with
           | Some d => (Ok d, w)
           | None => (Raise (Driver DexArmNotConnected), w)
           end.

(** [get_corners()], l.275-277. *)
Definition get_corners (c : Config) : Dict Pose :=
  match corners c with Some d => d | None => [] end.

(** [is_calibrated()], l.279-282. *)
Definition is_calibrated (c : Config) : bool :=
  dict_has (get_corners c) "corner1" && dict_has (get_corners c) "corner2".

(** [get_resting_position()], l.310-312. *)
Definition get_resting_position (c : Config) : option Pose :=
  resting_position c.

(** [get_drawing_area()], l.330-357. *)
Definition get_drawing_area (c : Config) : option SVGPathParser.DrawingArea :=
  if negb (is_calibrated c) then None
  else
    match dict_get (get_corners c) "corner1",
          dict_get (get_corners c) "corner2" with
    | Some c1, Some c2 => Some (SVGPathParser.get_drawing_area c1 c2)
    | _, _ => None
    end.

(** [save_corner(corner_name)], l.242-273. *)
Definition save_corner (corner_name : string) : Act Pose :=
  d <-- connected ;;
  position <-- lift (Dexarm.get_position d) ;;
  match position with
  | None => throw CouldNotReadPosition
  | Some position =>
      me <-- get_self ;;
      let c := config me in
      set_config (mkConfig (port c)
                           (Some (dict_set (get_corners c) corner_name position))
                           (resting_position c)) >>
      save_config >>
      pure position
  end.

(** [save_resting_position()], l.284-308. *)
Definition save_resting_position : Act Pose :=
  d <-- connected ;;
  position <-- lift (Dexarm.get_position d) ;;
  match position with
  | None => throw CouldNotReadPosition
  | Some position =>
      me <-- get_self ;;
      let c := config me in
      set_config (mkConfig (port c) (corners c) (Some position)) >>
      save_config >>
      pure position
  end.

(** [reset_calibration()], l.372-376. *)
Definition reset_calibration : Act unit :=
  me <-- get_self ;;
  let c := config me in
  (match corners c with
   | Some _ => set_config (mkConfig (port c) None (resting_position c))
   | None => pure tt
   end) >>
  save_config.

(** The default resting position, l.322. *)
Definition default_resting_position : Pose := mkPose 200 0 50.

(** [go_to_resting_position()], l.314-328; [fast_move_to] is called
    with its default feedrate of 3000. *)
Definition go_to_resting_position : Act unit :=
  d <-- connected ;;
  me <-- get_self ;;
  let resting_pos := match get_resting_position (config me) with
                     | Some p => p
                     | None => default_resting_position
                     end in
  lift (fast_move_to d (px resting_pos) (py resting_pos) (pz resting_pos) 3000).

(** [move_to(x, y, z, feedrate)], l.127-131. *)
Definition move_to (x y z feedrate : Q) : Act unit :=
  d <-- connected ;;
  lift (fast_move_to d x y z feedrate).

(** [unlock_motors()], l.206-223, and [lock_motors()], l.225-240. *)
Definition unlock_motors : Act unit :=
  d <-- connected ;;
  lift (Dexarm.unlock_motors d).

Definition lock_motors : Act unit :=
  d <-- connected ;;
  lift (Dexarm.lock_motors d).

(** [home], [get_position] and [move_to_safe] on the world. *)
Definition home (timeout : Q) : Act unit :=
  me <-- get_self ;;
  lift (DexArmController.home (ctl me) timeout).

Definition get_position : Act (option Pose) :=
  me <-- get_self ;;
  lift (DexArmController.get_position (ctl me)).

Definition move_to_safe (x y z feedrate : Q) (current_z : option Q) : Act Q :=
  me <-- get_self ;;
  lift (DexArmController.move_to_safe (ctl me) x y z feedrate current_z).

(** [disconnect()], l.101-106. *)
Definition disconnect : Act unit :=
  set_ctl (mkController false None).

(** The move to the resting position that [connect] makes when asked to
    and when a resting position is saved, l.45-54 and l.81-90: failures
    are printed and dropped. *)
Definition rest_if_requested (move_to_rest : bool) : Act unit :=
  me <-- get_self ;;
  match move_to_rest, get_resting_position (config me) with
  | true, Some _ =>
      try_except (lock_motors >> go_to_resting_position) (fun _ => pure tt)
  | _, _ => pure tt
  end.

Definition option_string_eqb (a b : option string) : bool :=
  match a, b with
  | Some x, Some y => String.eqb x y
  | None, None => true
  | _, _ => false
  end.

(** [a or b] on a port name that may be [None] or empty. *)
Definition or_port (a : option string) (b : option string) : option string :=
  match a with
  | Some p => if String.eqb p EmptyString then b else Some p
  | None => b
  end.

(** [connect(port, move_to_rest)], l.29-99. *)
Definition connect (env : Env) (port : option string) (move_to_rest : bool)
  : Act bool :=
  try_except
    (me <-- get_self ;;
     if (match device (ctl me) with Some _ => true | None => false end)
        && option_string_eqb port (Calibration.port (config me))
     then
       (* already connected to the same port *)
       rest_if_requested move_to_rest >>
       pure true
     else
       (if is_connected (ctl me) then disconnect else pure tt) >>
       me <-- get_self ;;
       let port := match port with
                   | Some p => Some p
                   | None => or_port (Calibration.port (config me))
                                     (find_dexarm_port env)
                   end in
       match port with
       | None => pure false
       | Some p =>
           match open_serial env p with
           | None => throw (FailedToConnect p)
           | Some d =>
               set_ctl (mkController (is_connected (ctl me)) (Some d)) >>
               lift (set_absolute_positioning d) >>
               set_ctl (mkController true (Some d)) >>
               set_config (mkConfig (Some p) (corners (config me))
                                    (resting_position (config me))) >>
               save_config >>
               rest_if_requested move_to_rest >>
               pure true
           end
       end)
    (fun _ =>
       me <-- get_self ;;
       set_ctl (mkController false (_dexarm (ctl me))) >>
       pure false).

(** [test_draw_frame()], l.378-470, run to its end.  The corner layout:
    C3 has the X of corner 2 and the Y of corner 1, C4 the X of corner 1
    and the Y of corner 2; the drawing height is the Z of corner 1 and
    the pen is lifted by 20. *)
Definition test_draw_frame : Act unit :=
  d <-- connected ;;
  me <-- get_self ;;
  if negb (is_calibrated (config me)) then throw NotCalibrated
  else
    match get_drawing_area (config me),
          dict_get (get_corners (config me)) "corner1",
          dict_get (get_corners (config me)) "corner2" with
    | Some area, Some c1, Some c2 =>
        match SVGPathParser.z_draw area with
        | None => throw NotCalibrated
        | Some z_draw =>
            let z_up := z_draw + 20 in
            let c3 := mkPose (px c2) (py c1) z_draw in
            let c4 := mkPose (px c1) (py c2) z_draw in
            try_except
              (yield "Moving from rest position..." >>
               go_to_resting_position >>
               yield "Moving to Corner 1..." >>
               lift (fast_move_to d (px c1) (py c1) z_up 3000) >>
               lift (Dexarm.move_to d (px c1) (py c1) z_draw 2000) >>
               yield "Drawing to Corner 3..." >>
               lift (Dexarm.move_to d (px c3) (py c3) z_draw 2000) >>
               yield "Drawing to Corner 2..." >>
               lift (Dexarm.move_to d (px c2) (py c2) z_draw 2000) >>
               yield "Drawing to Corner 4..." >>
               lift (Dexarm.move_to d (px c4) (py c4) z_draw 2000) >>
               yield "Closing rectangle (back to Corner 1)..." >>
               lift (Dexarm.move_to d (px c1) (py c1) z_draw 2000) >>
               yield "Drawing X (diagonal 1: C1 to C2)..." >>
               lift (Dexarm.move_to d (px c2) (py c2) z_draw 2000) >>
               lift (Dexarm.move_to d (px c2) (py c2) z_up 2000) >>
               yield "Drawing X (diagonal 2: C3 to C4)..." >>
               lift (fast_move_to d (px c3) (py c3) z_up 3000) >>
               lift (Dexarm.move_to d (px c3) (py c3) z_draw 2000) >>
               lift (Dexarm.move_to d (px c4) (py c4) z_draw 2000) >>
               lift (Dexarm.move_to d (px c4) (py c4) z_up 2000) >>
               yield "Returning to resting position..." >>
               go_to_resting_position >>
               yield "Test draw complete!")
              (fun e => throw (TestDrawFailed e))
        end
    | _, _, _ => throw NotCalibrated
    end.

(** A call of one of the operations of the controller. *)
Inductive Call : Type :=
| Connect (port : option string) (move_to_rest : bool)
| Disconnect
| Home (timeout : Q)
| MoveTo (x y z feedrate : Q)
| MoveToSafe (x y z feedrate : Q) (current_z : option Q)
| GetPosition
| UnlockMotors
| LockMotors
| SaveCorner (corner_name : string)
| SaveRestingPosition
| GoToRestingPosition
| ResetCalibration
| TestDrawFrame.

(** The world after a call, whether it returned or raised. *)
Definition after (env : Env) (c : Call) (w : World) : World :=
  match c with
  | Connect port move_to_rest => snd (connect env port move_to_rest w)
  | Disconnect => snd (disconnect w)
  | Home timeout => snd (home timeout w)
  | MoveTo x y z f => snd (move_to x y z f w)
  | MoveToSafe x y z f cz => snd (move_to_safe x y z f cz w)
  | GetPosition => snd (get_position w)
  | UnlockMotors => snd (unlock_motors w)
  | LockMotors => snd (lock_motors w)
  | SaveCorner name => snd (save_corner name w)
  | SaveRestingPosition => snd (save_resting_position w)
  | GoToRestingPosition => snd (go_to_resting_position w)
  | ResetCalibration => snd (reset_calibration w)
  | TestDrawFrame => snd (test_draw_frame w)
  end.

Definition after_all (env : Env) (calls : list Call) (w : World) : World :=
  fold_left (fun w c => after env c w) calls w.

(** The world of a program that has just created the controller. *)
Definition start (file : option Config) : World :=
  mkWorld (init file) file [] [].

(** The configuration in memory is what the file holds. *)
Definition in_sync (w : World) : Prop :=
  config (self w) = load_config (file w).

(** A controller that says it is connected has a port. *)
Definition connected_has_port (w : World) : Prop :=
  is_connected (ctl (self w)) = true -> _dexarm (ctl (self w)) <> None.

End Calibration.

(** * The M114 reply, [get_position] of [dexarm.py] l.194-215 *)

Module PositionReply.
Import Calibration.
Local Open Scope string_scope.

(** [str.isspace] on one character.  Characters are code points below
    256, of which Python counts these as white space. *)
Definition isspace (c : ascii) : bool :=
  let n := nat_of_ascii c in
  ((9 <=? n) && (n <=? 13) || (28 <=? n) && (n <=? 32)
   || (n =? 133) || (n =? 160))%nat.

(** [str.upper] and [str.lower] on the letters a..z and A..Z.  The source
    only compares the upper-cased axis with 'X', 'Y' and 'Z', which no
    other character upper-cases to, and lower-cases one of these three. *)
Definition upper_char (c : ascii) : ascii :=
  let n := nat_of_ascii c in
  if ((97 <=? n) && (n <=? 122))%nat then ascii_of_nat (n - 32) else c.

Definition lower_char (c : ascii) : ascii :=
  let n := nat_of_ascii c in
  if ((65 <=? n) && (n <=? 90))%nat then ascii_of_nat (n + 32) else c.

Fixpoint upper (s : string) : string :=
  match s with
  | EmptyString => EmptyString
  | String c rest => String (upper_char c) (upper rest)
  end.

Fixpoint lower (s : string) : string :=
  match s with
  | EmptyString => EmptyString
  | String c rest => String (lower_char c) (lower rest)
  end.

(** [line.split()]: the maximal runs of characters that are not white
    space.  [runs s] is the run [s] starts with (empty when [s] starts
    with white space) and the runs after it. *)
Definition push (word : string) (words : list string) : list string :=
  match word with
  | EmptyString => words
  | _ => word :: words
  end.

Fixpoint runs (s : string) : string * list string :=
  match s with
  | EmptyString => (EmptyString, [])
  | String c rest =>
      let (word, words) := runs rest in
      if isspace c then (EmptyString, push word words)
      else (String c word, words)
  end.

Definition split (s : string) : list string :=
  let (word, words) := runs s in push word words.

(** [part.split(':', 1)] under the guard [':' in part]: the text before
    the first colon and the text after it. *)
Fixpoint split_colon (part : string) : option (string * string) :=
  match part with
  | EmptyString => None
  | String c rest =>
      if Ascii.eqb c ":" then Some (EmptyString, rest)
      else match split_colon rest with
           | Some (axis, value) => Some (String c axis, value)
           | None => None
           end
  end.

Section reading.

(** The numbers [float] returns, and [float] itself: [None] is its
    [ValueError]. *)
Variable F : Type.
Variable float : string -> option F.

(** The body of [for part in parts], l.200-208. *)
Definition read_part (position : Dict F) (part : string) : Dict F :=
  match split_colon part with
  | None => position
  | Some (axis, value) =>
      let axis := upper axis in
      if existsb (String.eqb axis) ["X"; "Y"; "Z"] then
        match float value with
        | Some v => dict_set position (lower axis) v
        | None => position
        end
      else position
  end.

(** The body of [if line.startswith('X:')], l.198-212: the dict when it
    has all three keys. *)
Definition read_line (line : string) : option (Dict F) :=
  let position := fold_left read_part (split line) [] in
  if dict_has position "x" && dict_has position "y" && dict_has position "z"
  then Some position
  else None.

(** [for line in lines], l.195-215. *)
Fixpoint find_position (lines : list string) : option (Dict F) :=
  match lines with
  | [] => None
  | line :: rest =>
      if prefix "X:" line then
        match read_line line with
        | Some position => Some position
        | None => find_position rest
        end
      else find_position rest
  end.

(** The number a part gives for an axis letter, if it gives one. *)
Definition names (axis : string) (part : string) : option F :=
  match split_colon part with
  | Some (a, value) => if String.eqb (upper a) axis then float value else None
  | None => None
  end.

Fixpoint first_some {A B} (f : A -> option B) (l : list A) : option B :=
  match l with
  | [] => None
  | a :: rest => match f a with
                 | Some b => Some b
                 | None => first_some f rest
                 end
  end.

(** The number of the last part that gives one for the axis. *)
Definition last_value (axis : string) (parts : list string) : option F :=
  first_some (names axis) (rev parts).

(** A line in which some axis has no number. *)
Definition incomplete (line : string) : Prop :=
  last_value "X" (split line) = None
  \/ last_value "Y" (split line) = None
  \/ last_value "Z" (split line) = None.

End reading.

(** A run of characters without white space. *)
Fixpoint spaceless (s : string) : bool :=
  match s with
  | EmptyString => true
  | String c rest => negb (isspace c) && spaceless rest
  end.

(** The line "X:<sx> Y:<sy> Z:<sz>" followed by further parts, with
    single spaces between the parts. *)
Definition plain_line (sx sy sz : string) (others : list string) : string :=
  String.concat " "
    (("X:" ++ sx) :: ("Y:" ++ sy) :: ("Z:" ++ sz) :: others).

(** What [float] gives on the texts of a sample reply. *)
Definition sample_float (s : string) : option Q :=
  if String.eqb s "200.00" then Some (200 # 1)%Q
  else if String.eqb s "0.00" then Some (0 # 1)%Q
  else if String.eqb s "10.50" then Some (21 # 2)%Q
  else if String.eqb s "16000" then Some (16000 # 1)%Q
  else None.

End PositionReply.

(** * Joining segments, [_join_nearby_segments] of
      [svg_plotter_methods.py] (l.338-394) *)

Module SegmentJoiner.
Import PlotterSVGGenerator.

(** A segment dict: the keys ['points'], ['start'], ['end'] and
    ['length']. *)
Record Segment : Type := mkSegment {
  seg_points : Polyline;
  seg_start : Pt;
  seg_end : Pt;
  seg_length : Q
}.

(** [segments.sort(key=lambda s: s['length'], reverse=True)]: longest
    first, segments of equal length in their former order. *)
Fixpoint insert (s : Segment) (sorted : list Segment) : list Segment :=
  match sorted with
  | [] => [s]
  | h :: t =>
      if Qle_bool (seg_length h) (seg_length s) then s :: h :: t
      else h :: insert s t
  end.

Definition sort_longest_first (segments : list Segment) : list Segment :=
  fold_right insert [] segments.

(** [i in used] *)
Definition used_has (used : list nat) (i : nat) : bool :=
  existsb (Nat.eqb i) used.

Section joiner.
(** [np.sqrt] and the [threshold] argument. *)
Variable sqrt : Q -> Q.
Variable threshold : Q.

(** [for j, candidate in enumerate(segments)], l.365-390, up to its
    [break]: the index and the candidate taken, and whether it is taken
    reversed. *)
Fixpoint find_candidate (current_end : Pt) (used : list nat) (j : nat)
         (candidates : list Segment) : option (nat * Segment * bool) :=
  match candidates with
  | [] => None
  | candidate :: rest =>
      if used_has used j then find_candidate current_end used (S j) rest
      else if Qltb (_point_distance sqrt current_end (seg_start candidate))
                   threshold
      then Some (j, candidate, false)
      else if Qltb (_point_distance sqrt current_end (seg_end candidate))
                   threshold
      then Some (j, candidate, true)
      else find_candidate current_end used (S j) rest
  end.

(** [while changed], l.362-390; [fuel] bounds the number of turns, and
    [None] says it was too small. *)
Fixpoint extend (fuel : nat) (segments : list Segment)
         (current_path : Polyline) (current_end : Pt) (used : list nat)
  : option (Polyline * list nat) :=
  match fuel with
  | O => None
  | S fuel =>
      match find_candidate current_end used 0 segments with
      | None => Some (current_path, used)
      | Some (j, candidate, false) =>
          extend fuel segments
                 (current_path ++ tl (seg_points candidate))
                 (seg_end candidate) (j :: used)
      | Some (j, candidate, true) =>
          extend fuel segments
                 (current_path ++ tl (rev (seg_points candidate)))
                 (seg_start candidate) (j :: used)
      end
  end.

(** [for i, seg in enumerate(segments)], l.351-392, from index [i] on. *)
Fixpoint paths_from (i : nat) (todo segments : list Segment)
         (used : list nat) (joined_paths : list Polyline)
  : option (list Polyline) :=
  match todo with
  | [] => Some joined_paths
  | seg :: todo =>
      if used_has used i then
        paths_from (S i) todo segments used joined_paths
      else
        match extend (S (List.length segments)) segments
                     (seg_points seg) (seg_end seg) (i :: used) with
        | None => None
        | Some (current_path, used) =>
            paths_from (S i) todo segments used
                       (joined_paths ++ [current_path])
        end
  end.

(** [_join_nearby_segments(segments, threshold)]. *)
Definition _join_nearby_segments (segments : list Segment)
  : option (list Polyline) :=
  match segments with
  | [] => Some []
  | _ =>
      let segments := sort_longest_first segments in
      paths_from 0 segments segments [] []
  end.

(** A chain: a segment and the segments linked to it in turn, each as it
    is or reversed. *)
Definition Link : Type := (Segment * bool)%type.

Record Chain : Type := mkChain {
  head : Segment;
  links : list Link
}.

Definition link_points (l : Link) : Polyline :=
  if snd l then rev (seg_points (fst l)) else seg_points (fst l).

(** The endpoint a link is attached by, and the one it leaves open. *)
Definition link_from (l : Link) : Pt :=
  if snd l then seg_end (fst l) else seg_start (fst l).

Definition link_to (l : Link) : Pt :=
  if snd l then seg_start (fst l) else seg_end (fst l).

(** The path of a chain: the points of its head, then those of each link
    without the first one. *)
Definition tails (links : list Link) : Polyline :=
  flat_map (fun l => tl (link_points l)) links.

Definition render (c : Chain) : Polyline :=
  seg_points (head c) ++ tails (links c).

Definition members (c : Chain) : list Segment :=
  head c :: map fst (links c).

(** Each link is attached nearer than the threshold to the open end
    before it. *)
Fixpoint linked (current_end : Pt) (links : list Link) : Prop :=
  match links with
  | [] => True
  | l :: more =>
      _point_distance sqrt current_end (link_from l) < threshold
      /\ linked (link_to l) more
  end.

(** The open end of a chain. *)
Definition open_end (current_end : Pt) (links : list Link) : Pt :=
  last (map link_to links) current_end.

(** Neither endpoint of the segment is nearer than the threshold. *)
Definition far (current_end : Pt) (s : Segment) : Prop :=
  threshold <= _point_distance sqrt current_end (seg_start s)
  /\ threshold <= _point_distance sqrt current_end (seg_end s).

(** No chain could take a segment of a later chain at its open end. *)
Fixpoint sealed (chains : list Chain) : Prop :=
  match chains with
  | [] => True
  | c :: later =>
      Forall (far (open_end (seg_end (head c)) (links c)))
             (flat_map members later)
      /\ sealed later
  end.

End joiner.

(** The segments not in [used], those of [segments] counted from [i]. *)
Fixpoint unused (used : list nat) (i : nat) (segments : list Segment)
  : list Segment :=
  match segments with
  | [] => []
  | s :: rest =>
      if used_has used i then unused used (S i) rest
      else s :: unused used (S i) rest
  end.

End SegmentJoiner.

(** * Facts *)

Lemma Qltb_true (a b : Q) : Qltb a b = true <-> a < b.
Proof.
  unfold Qltb. rewrite negb_true_iff.
  split; intro H.
  - apply Qnot_le_lt. intro Hle. apply Qle_bool_iff in Hle. congruence.
  - destruct (Qle_bool b a) eqn:E; [|reflexivity].
    apply Qle_bool_iff in E. exfalso. exact (Qlt_not_le _ _ H E).
Qed.

Lemma Qltb_false (a b : Q) : Qltb a b = false <-> b <= a.
Proof.
  unfold Qltb. rewrite negb_false_iff. apply Qle_bool_iff.
Qed.

Lemma py_max_l (a b : Q) : a <= py_max a b.
Proof.
  unfold py_max. destruct (Qltb a b) eqn:E.
  - apply Qltb_true in E. apply Qlt_le_weak, E.
  - apply Qle_refl.
Qed.

Lemma py_max_r (a b : Q) : b <= py_max a b.
Proof.
  unfold py_max. destruct (Qltb a b) eqn:E.
  - apply Qle_refl.
  - apply Qltb_false in E. exact E.
Qed.

Module ControllerFacts.
Import Dexarm DexArmController.
Open Scope py_scope.

Lemma send_gcode_accepted d c t log :
  Accepts d c t ->
  exists response, send_gcode d c true t log = (Ok response, log ++ [c]).
Proof.
  intros (Ho & Hw & Hp). unfold send_gcode. rewrite Ho, Hw. cbn.
  unfold bind, emit.
  destruct (wait_for_ok (polls d c t) []) as [r|] eqn:E; [|congruence].
  exists r. reflexivity.
Qed.

Lemma fast_move_to_accepted d x y z f log :
  Accepts d (G0 x y z f) 10 ->
  fast_move_to d x y z f log = (Ok tt, log ++ [G0 x y z f]).
Proof.
  intros H. unfold fast_move_to, bind.
  destruct (send_gcode_accepted _ _ _ log H) as [r ->]. reflexivity.
Qed.

(** Whatever the port does, a successful [fast_move_to] has written its
    one command. *)
Lemma fast_move_to_ok d x y z f log u log' :
  fast_move_to d x y z f log = (Ok u, log') -> log' = log ++ [G0 x y z f].
Proof.
  unfold fast_move_to, bind, send_gcode.
  destruct (is_open d); cbn; [|discriminate].
  destruct (write d _); cbn; try discriminate.
  unfold bind, emit.
  destruct (wait_for_ok _ _); cbn; intros H; inversion H; reflexivity.
Qed.

(** The sub-moves of the three branches, for a port that accepts them. *)
Lemma move_from_direct d x y z f cz log :
  Qabs (z - cz) < 1 # 2 ->
  Accepts d (G0 x y z f) 10 ->
  move_from d x y z f cz log = (Ok z, log ++ [G0 x y z f]).
Proof.
  intros Hz Ha. unfold move_from.
  apply Qltb_true in Hz. rewrite Hz.
  unfold bind. rewrite (fast_move_to_accepted _ _ _ _ _ _ Ha). reflexivity.
Qed.

Lemma move_from_lift d x y z f cz log :
  1 # 2 <= z - cz ->
  Accepts d (G0 cz cz z 10000) 10 ->
  Accepts d (G0 x y z 10000) 10 ->
  move_from d x y z f cz log
  = (Ok z, log ++ [G0 cz cz z 10000; G0 x y z 10000]).
Proof.
  intros Hz Ha Hb. unfold move_from.
  assert (H1 : Qltb (Qabs (z - cz)) (1 # 2) = false).
  { apply Qltb_false. eapply Qle_trans; [exact Hz | apply Qle_Qabs]. }
  assert (H2 : Qltb 0 (z - cz) = true).
  { apply Qltb_true. eapply Qlt_le_trans; [|exact Hz]. reflexivity. }
  rewrite H1, H2. unfold bind.
  rewrite (fast_move_to_accepted _ _ _ _ _ _ Ha).
  rewrite (fast_move_to_accepted _ _ _ _ _ _ Hb).
  rewrite <- app_assoc. reflexivity.
Qed.

Lemma move_from_lower d x y z f cz log :
  z - cz <= - (1 # 2) ->
  Accepts d (G0 x y cz 10000) 10 ->
  Accepts d (G0 x y z f) 10 ->
  move_from d x y z f cz log
  = (Ok z, log ++ [G0 x y cz 10000; G0 x y z f]).
Proof.
  intros Hz Ha Hb. unfold move_from.
  assert (H1 : Qltb (Qabs (z - cz)) (1 # 2) = false).
  { apply Qltb_false. rewrite <- Qabs_opp.
    eapply Qle_trans; [|apply Qle_Qabs].
    apply (Qopp_le_compat _ _) in Hz. rewrite Qopp_involutive in Hz.
    exact Hz. }
  assert (H2 : Qltb 0 (z - cz) = false).
  { apply Qltb_false. eapply Qle_trans; [exact Hz|]. discriminate. }
  rewrite H1, H2. unfold bind.
  rewrite (fast_move_to_accepted _ _ _ _ _ _ Ha).
  rewrite (fast_move_to_accepted _ _ _ _ _ _ Hb).
  rewrite <- app_assoc. reflexivity.
Qed.

(** Every completed branch of [move_from] returns the target Z. *)
Lemma move_from_returns_z d x y z f cz log r log' :
  move_from d x y z f cz log = (Ok r, log') -> r = z.
Proof.
  unfold move_from, bind.
  destruct (Qltb (Qabs (z - cz)) (1 # 2)).
  - destruct (fast_move_to d x y z f log) as [[u|e] l]; cbn;
      intros H; inversion H; reflexivity.
  - destruct (Qltb 0 (z - cz)).
    + destruct (fast_move_to d cz cz z 10000 log) as [[u|e] l]; cbn;
        [|discriminate].
      destruct (fast_move_to d x y z 10000 l) as [[u'|e'] l']; cbn;
        intros H; inversion H; reflexivity.
    + destruct (fast_move_to d x y cz 10000 log) as [[u|e] l]; cbn;
        [|discriminate].
      destruct (fast_move_to d x y z f l) as [[u'|e'] l']; cbn;
        intros H; inversion H; reflexivity.
Qed.

Lemma Qltb_irrefl_eq (a b : Q) : a == b -> Qltb a b = false.
Proof. intros H. apply Qltb_false. rewrite H. apply Qle_refl. Qed.

Lemma same_xy_refl_at (x y z z' : Q) :
  same_xy (mkPose x y z) (mkPose x y z') = true.
Proof.
  unfold same_xy; cbn.
  rewrite (proj2 (Qeq_bool_iff x x) (Qeq_refl x)).
  rewrite (proj2 (Qeq_bool_iff y y) (Qeq_refl y)). reflexivity.
Qed.

(** Lowering by more than the threshold: the lateral travel is made at
    the old, higher Z and the descent is vertical, so no segment drags. *)
Lemma lowering_never_drags held x y z f cz :
  pz held == cz -> z - cz <= - (1 # 2) ->
  existsb (drags cz z) (segments held [G0 x y cz 10000; G0 x y z f]) = false.
Proof.
  intros Hh Hz. cbn [segments target_of existsb].
  assert (Hlo : py_max cz z - (1 # 2) <= cz).
  { unfold py_max. destruct (Qltb cz z) eqn:E; [|lra].
    apply Qltb_true in E. lra. }
  unfold drags at 1. cbn [fst snd pz].
  assert (H1 : Qltb (pz held) (py_max cz z - (1 # 2)) = false).
  { apply Qltb_false. rewrite Hh. exact Hlo. }
  assert (H2 : Qltb cz (py_max cz z - (1 # 2)) = false).
  { apply Qltb_false. exact Hlo. }
  rewrite H1, H2. rewrite andb_false_r. cbn [orb].
  unfold drags. cbn [fst snd]. rewrite same_xy_refl_at. reflexivity.
Qed.

(** Lifting by more than the threshold: the first sub-move goes to
    [(current_z, current_z)], so the tool is dragged unless the arm
    happens to stand exactly there. *)
Lemma lifting_drags_unless_at_cz held x y z cz :
  pz held == cz -> 1 # 2 < z - cz ->
  existsb (drags cz z)
          (segments held [G0 cz cz z 10000; G0 x y z 10000])
  = negb (same_xy held (mkPose cz cz z)).
Proof.
  intros Hh Hz. cbn [segments target_of existsb].
  assert (Hmax : py_max cz z == z).
  { unfold py_max. destruct (Qltb cz z) eqn:E; [reflexivity|].
    apply Qltb_false in E. lra. }
  assert (Hlo : cz < py_max cz z - (1 # 2)) by (rewrite Hmax; lra).
  assert (Hhi : py_max cz z - (1 # 2) <= z) by (rewrite Hmax; lra).
  unfold drags. cbn [fst snd pz].
  assert (H1 : Qltb (pz held) (py_max cz z - (1 # 2)) = true).
  { apply Qltb_true. rewrite Hh. exact Hlo. }
  assert (H2 : Qltb z (py_max cz z - (1 # 2)) = false).
  { apply Qltb_false. exact Hhi. }
  rewrite H1, H2. cbn [orb]. rewrite !andb_false_r, andb_true_r.
  rewrite orb_false_r. reflexivity.
Qed.

(** C1.  The lift branch of [move_to_safe] does not raise Z in place.
    With the arm at (100, 50, 0), the call for (120, 60, 16) with
    [current_z = 0] first sends the arm to X0 Y0 Z16: the X and Y of the
    first sub-move are [current_z], not the position held before the
    call, and only then comes the move to the target XY. *)
Theorem move_to_safe_lift_not_in_place :
  let held := pose_after (mkPose 0 0 0) [G0 100 50 0 2000] in
  held = mkPose 100 50 0
  /\ move_to_safe arm 120 60 16 2000 (Some 0) [G0 100 50 0 2000]
     = (Ok 16, [G0 100 50 0 2000; G0 0 0 16 10000; G0 120 60 16 10000])
  /\ same_xy held (mkPose 0 0 16) = false.
Proof. repeat split. Qed.

(** C2.  A threaded run that lowers the pen at (100, 50) and then lifts
    towards (120, 60): the lowering call travels at the old Z and then
    descends vertically, but the first sub-move of the lifting call
    leaves (100, 50, 0) for (0, 0, 16), changing XY while Z starts
    below max(0, 16) - 0.5. *)
Theorem execute_drags_when_lifting :
  let commands := [mkCommand draw 100 50 0 8000; mkCommand move 120 60 16 8000] in
  execute_from arm commands (Some 16) []
  = (Ok (Some 16), [G0 100 50 16 10000; G0 100 50 0 8000;
                    G0 0 0 16 10000; G0 120 60 16 10000])
  /\ existsb (drags 16 0)
             (segments (mkPose 100 50 16) [G0 100 50 16 10000; G0 100 50 0 8000])
     = false
  /\ existsb (drags 0 16)
             (segments (pose_after (mkPose 100 50 16)
                                   [G0 100 50 16 10000; G0 100 50 0 8000])
                       [G0 0 0 16 10000; G0 120 60 16 10000])
     = true.
Proof. repeat split. Qed.

(** C9.  A homing cycle that is never acknowledged: the port takes the
    G28 and stays silent until the timeout.  [send_gcode] returns what
    it got, [go_home] goes on, and [home] returns normally instead of
    raising the homing-timeout error. *)
Theorem home_unacknowledged_returns :
  wait_for_ok (polls silent G28 30) [] = Some EmptyString
  /\ home (mkController true (Some silent)) 30 [] = (Ok tt, [G28]).
Proof. split; reflexivity. Qed.

(** The only way [home] raises the homing-timeout error: a write
    timeout on the serial port. *)
Lemma home_write_timeout self d t log :
  device self = Some d -> is_open d = true ->
  write d G28 = SerialTimeoutException ->
  home self t log = (Raise (HomingTimedOut t), log).
Proof.
  intros Hd Ho Hw. unfold home. rewrite Hd.
  unfold catch_TimeoutError, go_home, bind, send_gcode.
  rewrite Ho, Hw. reflexivity.
Qed.

(** [home] returns normally whenever the port takes the G28 and the
    link survives the wait, acknowledged or not. *)
Lemma home_returns self d t log :
  device self = Some d -> Accepts d G28 t ->
  home self t log = (Ok tt, log ++ [G28]).
Proof.
  intros Hd Ha. unfold home. rewrite Hd.
  unfold catch_TimeoutError, go_home, bind.
  destruct (send_gcode_accepted _ _ _ log Ha) as [r ->]. reflexivity.
Qed.

(** Every call of [move_to_safe] that returns, returns the target Z. *)
Lemma move_to_safe_returns_z self x y z f current_z log r log' :
  move_to_safe self x y z f current_z log = (Ok r, log') -> r = z.
Proof.
  unfold move_to_safe.
  destruct (device self) as [d|] eqn:Hd; [|discriminate].
  destruct current_z as [cz|].
  - apply move_from_returns_z.
  - unfold bind, get_position. rewrite Hd.
    unfold Dexarm.get_position, ret.
    destruct (m114 d) as [pos|].
    + apply move_from_returns_z.
    + destruct (fast_move_to d x y z f log) as [[u|e] l];
        intros H; inversion H; reflexivity.
Qed.

(** C10, amended.  While connected, with no [current_z] and a failed
    position read, [move_to_safe] issues the one direct move to the
    target and nothing else.  When the port accepts that move the call
    does not raise, has written exactly that move, and returns the
    target Z.  When the port refuses it the driver's error is raised: the
    [ConnectionError] of a closed port, the [TimeoutError] of a write
    that times out, the [RuntimeError] of a write that fails otherwise
    (all three with nothing written) or of a link that fails while the
    acknowledgement is awaited.  And every call that returns at all, on
    any controller and with or without [current_z], returns the target
    Z. *)
Theorem move_to_safe_position_unavailable self d x y z f :
  device self = Some d ->
  m114 d = None ->
  let c := G0 x y z f in
  (Accepts d c 10 ->
   forall log, move_to_safe self x y z f None log = (Ok z, log ++ [c]))
  /\ (is_open d = false ->
      forall log,
        move_to_safe self x y z f None log = (Raise NotConnectedToDexArm, log))
  /\ (is_open d = true -> write d c = SerialTimeoutException ->
      forall log,
        move_to_safe self x y z f None log = (Raise (WriteTimeout c), log))
  /\ (is_open d = true -> write d c = OtherException ->
      forall log,
        move_to_safe self x y z f None log = (Raise (ErrorSending c), log))
  /\ (is_open d = true -> write d c = Written ->
      wait_for_ok (polls d c 10) [] = None ->
      forall log,
        move_to_safe self x y z f None log
        = (Raise (ErrorSending c), log ++ [c]))
  /\ (forall other current_z log r log',
        move_to_safe other x y z f current_z log = (Ok r, log') -> r = z).
Proof.
  intros Hd Hp c.
  assert (Hm : forall log,
             move_to_safe self x y z f None log
             = match fast_move_to d x y z f log with
               | (Ok _, l) => (Ok z, l)
               | (Raise e, l) => (Raise e, l)
               end).
  { intros log. unfold move_to_safe. rewrite Hd.
    unfold bind, get_position. rewrite Hd.
    unfold Dexarm.get_position, ret. rewrite Hp.
    destruct (fast_move_to d x y z f log) as [[u|e] l]; reflexivity. }
  split; [|split; [|split; [|split; [|split]]]].
  - intros Ha log. rewrite Hm.
    rewrite (fast_move_to_accepted _ _ _ _ _ _ Ha). reflexivity.
  - intros Ho log. rewrite Hm. unfold fast_move_to, bind, send_gcode.
    rewrite Ho. reflexivity.
  - intros Ho Hw log. rewrite Hm. unfold fast_move_to, bind, send_gcode.
    fold c. rewrite Ho, Hw. reflexivity.
  - intros Ho Hw log. rewrite Hm. unfold fast_move_to, bind, send_gcode.
    fold c. rewrite Ho, Hw. reflexivity.
  - intros Ho Hw Hl log. rewrite Hm. unfold fast_move_to, bind, send_gcode.
    fold c. rewrite Ho, Hw. cbn. unfold bind, emit. rewrite Hl. reflexivity.
  - intros other current_z log r log'. apply move_to_safe_returns_z.
Qed.

Lemma move_to_safe_position_unavailable_witness :
  (forall log,
      move_to_safe arm 120 60 16 2000 None log
      = (Ok 16, log ++ [G0 120 60 16 2000]))
  /\ (forall other current_z log r log',
        move_to_safe other 120 60 16 2000 current_z log = (Ok r, log')
        -> r = 16).
Proof.
  destruct (move_to_safe_position_unavailable arm (responsive None)
              120 60 16 2000 eq_refl eq_refl)
    as (Haccepted & _ & _ & _ & _ & Hreturns).
  split; [|exact Hreturns].
  apply Haccepted. repeat split. discriminate.
Defined.

(** C10, as stated, fails: a connected controller, no [current_z], the
    position read failing, and still the call raises, because the port
    refuses the one move.  Here the write times out
    ([SerialTimeoutException], l.103-104 of [dexarm.py]) and the
    [TimeoutError] leaves [move_to_safe] with nothing written; on a
    closed port it is the [ConnectionError] of l.66-67. *)
Lemma move_to_safe_raises_when_port_refuses :
  let self := mkController true (Some unwritable) in
  let closed := mkPort false (fun _ => Written) (fun _ _ => []) None in
  device self = Some unwritable
  /\ m114 unwritable = None
  /\ move_to_safe self 120 60 16 2000 None []
     = (Raise (WriteTimeout (G0 120 60 16 2000)), [])
  /\ class_of (WriteTimeout (G0 120 60 16 2000)) = TimeoutError
  /\ move_to_safe (mkController true (Some closed)) 120 60 16 2000 None []
     = (Raise NotConnectedToDexArm, []).
Proof. repeat split. Qed.

End ControllerFacts.

Module GeneratorFacts.
Import SVGPathParser.

(** ** The command budget *)

Section budget.
Variable area : DrawingArea.
Variable m : Mapping.
Variables zd zu fd fu : Q.
Variables total N : Z.

Let gen := generate_all area m zd zu fd fu.
Let step := path_step area m zd zu fd fu.
Let loop := paths_loop area m zd zu fd fu total N.

Lemma generate_all_snoc done path : gen (done ++ [path]) = step (gen done) path.
Proof. unfold gen, generate_all. rewrite fold_left_app. reflexivity. Qed.

Lemma firstn_length_app {A} (l l' : list A) : firstn (length l) (l ++ l') = l.
Proof.
  rewrite firstn_app, Nat.sub_diag, firstn_all. cbn. apply app_nil_r.
Qed.

Lemma paths_loop_spec (todo : list Path) : forall done,
  total = Z.of_nat (length (done ++ todo)) ->
  (forall j, (j < length done)%nat ->
     (Z.of_nat (length (gen (firstn j (done ++ todo)))) < N)%Z) ->
  let r := loop todo (gen done) (Z.of_nat (length done)) in
  exists k,
    (k <= length (done ++ todo))%nat
    /\ path_count r = Z.of_nat k
    /\ commands r = gen (firstn k (done ++ todo))
    /\ (forall j, (j < k)%nat ->
          (Z.of_nat (length (gen (firstn j (done ++ todo)))) < N)%Z)
    /\ ((k < length (done ++ todo))%nat ->
          (N <= Z.of_nat (length (commands r)))%Z
          /\ skipped r = Some (total - Z.of_nat k)%Z)
    /\ (k = length (done ++ todo) -> skipped r = None).
Proof.
  induction todo as [|path rest IH]; intros done Ht Hlt r.
  - exists (length done). subst r. cbn.
    rewrite app_nil_r in *. rewrite firstn_all.
    repeat split; auto; lia.
  - subst r. cbn [loop paths_loop]. unfold loop. cbn [paths_loop].
    destruct (Z.geb (Z.of_nat (length (gen done))) N) eqn:E.
    + exists (length done). cbn [path_count commands skipped].
      rewrite firstn_length_app, length_app. cbn [length].
      apply Z.geb_le in E.
      repeat split; auto; try lia.
    + assert (E' : (Z.of_nat (length (gen done)) < N)%Z).
      { rewrite Z.geb_leb in E. apply Z.leb_gt in E. exact E. }
      fold step. rewrite <- generate_all_snoc.
      replace (Z.of_nat (length done) + 1)%Z
        with (Z.of_nat (length (done ++ [path])))
        by (rewrite length_app; cbn; lia).
      assert (Hall : (done ++ [path]) ++ rest = done ++ path :: rest)
        by (rewrite <- app_assoc; reflexivity).
      specialize (IH (done ++ [path])). rewrite Hall in IH.
      apply IH; [exact Ht|].
      intros j Hj. rewrite length_app in Hj. cbn in Hj.
      destruct (Nat.eq_dec j (length done)) as [->|Hne].
      * rewrite firstn_length_app. exact E'.
      * apply Hlt. lia.
Qed.
End budget.

(** The budget test, as the code has it.  The budget is tested only
    before a path is started.  The call processes the first [k] paths, whole, where [k]
    is the first index at which the commands accumulated so far number
    [N] or more (or all the paths); the result is what the unbounded
    generator gives on these [k] paths, so it can exceed [N]; when paths
    are left over the result has at least [N] commands; and the number
    of skipped paths reported is the total minus [k], never negative. *)
Theorem budget_tested_between_paths (self : Parser) (area : DrawingArea)
        (z_draw z_up fd fu : Q) (N : Z) :
  let r := convert_to_drawing_commands self area z_draw z_up fd fu N in
  let zd := z_draw_of area z_draw in
  let gen := generate_all area (mapping self area) zd (zd + z_up) fd fu in
  let total := length (paths self) in
  exists k : nat,
    (k <= total)%nat
    /\ path_count r = Z.of_nat k
    /\ commands r = gen (firstn k (paths self))
    /\ (forall j, (j < k)%nat ->
          (Z.of_nat (length (gen (firstn j (paths self)))) < N)%Z)
    /\ ((k < total)%nat -> (N <= Z.of_nat (length (commands r)))%Z)
    /\ (forall s, skipped r = Some s ->
          s = (Z.of_nat total - path_count r)%Z /\ (0 <= s)%Z).
Proof.
  intros r zd gen total.
  destruct (paths self) as [|p ps] eqn:Hp.
  - exists 0%nat. subst r. unfold convert_to_drawing_commands.
    rewrite Hp. cbn. repeat split; try lia; discriminate.
  - pose proof (paths_loop_spec area (mapping self area) zd (zd + z_up) fd fu
                  (Z.of_nat (length (p :: ps))) N (p :: ps) [] eq_refl)
      as H.
    destruct H as (k & Hk & Hc & Hg & Hlt & Hmore & Hnone).
    { intros j Hj. inversion Hj. }
    assert (Hr : r = paths_loop area (mapping self area) zd (zd + z_up) fd fu
                       (Z.of_nat (length (p :: ps))) N (p :: ps) [] 0).
    { subst r. unfold convert_to_drawing_commands. rewrite Hp. reflexivity. }
    cbn [app] in *. change (generate_all area (mapping self area) zd
                              (zd + z_up) fd fu []) with (@nil Command) in *.
    change (Z.of_nat (length (@nil Path))) with 0%Z in *.
    rewrite <- Hr in *.
    exists k. subst total. repeat split; auto.
    + intros Hk'. apply Hmore. exact Hk'.
    + rewrite Hc. destruct (Nat.eq_dec k (length (p :: ps))) as [E|E].
      * rewrite (Hnone E) in H. discriminate.
      * assert (Hk' : (k < length (p :: ps))%nat) by lia.
        destruct (Hmore Hk') as [_ Hs]. rewrite Hs in H.
        congruence.
    + destruct (Nat.eq_dec k (length (p :: ps))) as [E|E].
      * rewrite (Hnone E) in H. discriminate.
      * assert (Hk' : (k < length (p :: ps))%nat) by lia.
        destruct (Hmore Hk') as [_ Hs]. rewrite Hs in H.
        assert (Heq : s = (Z.of_nat (length (p :: ps)) - Z.of_nat k)%Z)
          by congruence.
        rewrite Heq. lia.
Qed.

(** ** What one stroke produces *)

Section strokes.
Variable area : DrawingArea.
Variable m : Mapping.
Variables zd zu fd fu : Q.

Let step := segment_step area m zd zu fd fu.
Let mv := move_cmd zu fu.
Let dr := draw_cmd zd fd.
Local Abbreviation kept := (SVGPathParser.kept area m).
Local Abbreviation touch_down := (SVGPathParser.touch_down zd zu fd fu).
Local Abbreviation draws_inside := (SVGPathParser.draws_inside area).

Lemma lines_fold (path : Path) : forall cmds first_point,
  forallb line_only path = true ->
  fold_left step path (cmds, first_point)
  = (cmds ++ (if first_point then touch_down (kept path)
              else map dr (kept path)),
     first_point && no_points (kept path)).
Proof.
  induction path as [|seg path IH]; intros cmds fp Hl.
  - destruct fp; cbn; rewrite app_nil_r; reflexivity.
  - cbn [forallb] in Hl. apply andb_true_iff in Hl. destruct Hl as [Hs Hl].
    cbn [fold_left].
    assert (Hstep : step (cmds, fp) seg
                    = line_to area m zd zu fd fu (line_end seg) (cmds, fp)).
    { destruct seg; try discriminate; reflexivity. }
    rewrite Hstep. unfold SVGPathParser.kept. cbn [map filter].
    fold (kept path).
    unfold line_to.
    destruct (_is_in_bounds _ _ area); cbn [negb].
    + destruct fp.
      * rewrite IH by exact Hl. cbn [touch_down no_points andb].
        rewrite <- app_assoc. reflexivity.
      * rewrite IH by exact Hl. cbn [andb map].
        rewrite <- app_assoc. reflexivity.
    + apply IH. exact Hl.
Qed.

(** A stroke made of lines only: the pen touches down on the first point
    that lies in the drawing area. *)
Lemma line_stroke_touches_down (cmds : list Command) (path : Path) :
  forallb line_only path = true ->
  path_step area m zd zu fd fu cmds path
  = lift zu fu (cmds ++ touch_down (kept path)).
Proof.
  intros Hl. unfold path_step. fold step. rewrite lines_fold by exact Hl.
  reflexivity.
Qed.

(** A stroke that opens with a [Move] segment, as parsed paths do: one
    move to the point of the segment, tested against nothing, and then
    only draws. *)
Lemma move_stroke_only_draws (cmds : list Command) (e : Pt) (path : Path) :
  forallb line_only path = true ->
  path_step area m zd zu fd fu cmds (Move e :: path)
  = lift zu fu (cmds ++ mv (transform m e) :: map dr (kept path)).
Proof.
  intros Hl. unfold path_step. fold step. cbn [fold_left].
  change (step (cmds, true) (Move e))
    with (cmds ++ [mv (transform m e)], false).
  rewrite lines_fold by exact Hl. cbn [fst].
  rewrite <- app_assoc. reflexivity.
Qed.

Lemma draws_inside_app (a b : list Command) :
  draws_inside a -> draws_inside b -> draws_inside (a ++ b).
Proof. intros Ha Hb. apply Forall_app. split; assumption. Qed.

Lemma step_straight_inside (seg : Segment) (st : LoopState) :
  straight seg = true -> draws_inside (fst st) ->
  draws_inside (fst (step st seg)).
Proof.
  intros Hs Hin. destruct st as [cmds fp].
  assert (Hline : forall e,
             draws_inside (fst (line_to area m zd zu fd fu e (cmds, fp)))).
  { intros e. unfold line_to.
    destruct (_is_in_bounds _ _ area) eqn:Eb; cbn [negb]; [|exact Hin].
    destruct fp; cbn [fst]; apply draws_inside_app; try exact Hin;
      repeat constructor; cbn; try discriminate; intros _; exact Eb. }
  destruct seg; try discriminate; cbn [step segment_step].
  - apply draws_inside_app; [exact Hin|]. repeat constructor. discriminate.
  - apply Hline.
  - apply Hline.
Qed.

Lemma lift_inside (cmds : list Command) :
  draws_inside cmds -> draws_inside (lift zu fu cmds).
Proof.
  intros H. unfold lift. destruct cmds; [exact H|].
  apply draws_inside_app; [exact H|]. repeat constructor. discriminate.
Qed.

Lemma path_step_inside (cmds : list Command) (path : Path) :
  forallb straight path = true -> draws_inside cmds ->
  draws_inside (path_step area m zd zu fd fu cmds path).
Proof.
  intros Hs Hin. unfold path_step. apply lift_inside. fold step.
  change cmds with (fst (cmds, true)) in Hin.
  revert Hs Hin. generalize (cmds, true).
  induction path as [|seg path IH]; intros st Hs Hin; [exact Hin|].
  cbn [forallb] in Hs. apply andb_true_iff in Hs. destruct Hs as [Hseg Hs].
  cbn [fold_left]. apply IH; [exact Hs|].
  apply step_straight_inside; assumption.
Qed.

Lemma paths_loop_inside (total N : Z) (todo : list Path) : forall cmds pc,
  forallb (forallb straight) todo = true -> draws_inside cmds ->
  draws_inside (commands (paths_loop area m zd zu fd fu total N todo cmds pc)).
Proof.
  induction todo as [|path rest IH]; intros cmds pc Hs Hin; [exact Hin|].
  cbn [forallb] in Hs. apply andb_true_iff in Hs. destruct Hs as [Hp Hs].
  cbn [paths_loop]. destruct (Z.geb _ N); [exact Hin|].
  apply IH; [exact Hs|]. apply path_step_inside; assumption.
Qed.

End strokes.

(** Where the clipping does hold: when the paths have no curve, every
    draw the generator returns lies in the drawing area. *)
Lemma straight_paths_are_clipped (self : Parser) (area : DrawingArea)
      (z_draw z_up fd fu : Q) (N : Z) :
  forallb (forallb straight) (paths self) = true ->
  draws_inside area
    (commands (convert_to_drawing_commands self area z_draw z_up fd fu N)).
Proof.
  intros Hs. unfold convert_to_drawing_commands.
  destruct (paths self) as [|p ps] eqn:Hp; [constructor|].
  apply paths_loop_inside; [exact Hs | constructor].
Qed.

(** ** Examples on a 200 x 200 sheet *)

(** C3.  [max_commands] is documented as the "maximum number of commands
    to generate" (l.155) and the loop as stopping at "the command limit"
    (l.199), but the limit is only tested before a path is started: with
    [max_commands = 1] the one stroke "M 10,10 L 20,20" yields three
    commands, more than the maximum, and no path is reported skipped. *)
Theorem budget_exceeded_by_one_stroke :
  let r := convert_to_drawing_commands one_stroke sheet 0 16 8000 8000 1 in
  length (commands r) = 3%nat
  /\ ~ (Z.of_nat (length (commands r)) <= 1)%Z
  /\ path_count r = 1%Z
  /\ skipped r = None.
Proof.
  vm_compute. split; [reflexivity|]. split; [|split; reflexivity].
  intros H. apply H. reflexivity.
Qed.

(** C4.  The stroke "M 10,10 L 20,20": its first point (10, 10) is
    mapped to (20, 20), inside the sheet, and gets the [Move] at the
    lifted height, but the command that follows is the [Draw] at
    (40, 40): no [Draw] at (20, 20) is produced and the pen does not
    touch down at the start of the stroke. *)
Theorem move_segment_has_no_touch_down :
  let m := mapping one_stroke sheet in
  let start := transform m (10, 10) in
  _is_in_bounds (fst start) (snd start) sheet = true
  /\ map reduced (commands
        (convert_to_drawing_commands one_stroke sheet 0 16 8000 8000 5000))
     = [mkCommand move 20 20 16 8000;
        mkCommand draw 40 40 0 8000;
        mkCommand move 40 40 16 8000].
Proof. split; vm_compute; reflexivity. Qed.

(** C5.  The samples of a curve are not tested against the bounds.  The
    cubic of [one_curve] lies inside its own drawing, but each of its 21
    samples is mapped to y = -80, below [y_min] = 0, and each of them is
    drawn: every command returned lies outside the sheet. *)
Theorem curve_samples_are_not_clipped :
  let cmds := commands
        (convert_to_drawing_commands one_curve sheet 0 16 8000 8000 5000) in
  length (filter is_draw cmds) = 21%nat
  /\ forallb (fun c => negb (_is_in_bounds (x c) (y c) sheet)) cmds = true
  /\ map reduced (firstn 3 cmds)
     = [mkCommand move 20 (-80) 16 8000;
        mkCommand draw 20 (-80) 0 8000;
        mkCommand draw 23 (-80) 0 8000].
Proof. repeat split; vm_compute; reflexivity. Qed.

End GeneratorFacts.

(** * The mapping onto the drawing area *)

Module AreaMappingFacts.
Import PrimFloat AreaMapping.







(** The origin of the view box is not part of the mapping: with
    [viewBox="10 10 100 100"] the box mapped onto the area taught at
    (0, 0) and (200, 200) is still the one with corners (0, 0) and
    (100, 100), and the corner (10, 10) of the view box goes to (20, 20),
    inside the area. *)
Example view_box_origin_is_not_used :
  let m := mapping binary64 shifted_drawing (taught_at 200) in
  x_min (taught_at 200) = 0%float /\ y_min (taught_at 200) = 0%float
  /\ transform binary64 m (0, 0)%float = (0, 0)%float
  /\ transform binary64 m (100, 100)%float = (200, 200)%float
  /\ transform binary64 m (10, 10)%float = (20, 20)%float.
Proof. vm_compute. repeat split. Qed.

End AreaMappingFacts.

Module OptimizerFacts.
Import PlotterSVGGenerator.

Lemma pop_spec (remaining : list Polyline) : forall idx q rest,
  pop idx remaining = Some (q, rest) ->
  nth_error remaining idx = Some q
  /\ Permutation remaining (q :: rest)
  /\ length remaining = S (length rest).
Proof.
  induction remaining as [|p l IH]; intros idx q rest H.
  - destruct idx; discriminate.
  - destruct idx as [|i]; cbn in H.
    + injection H as <- <-. repeat split. apply Permutation_refl.
    + destruct (pop i l) as [[q' rest']|] eqn:E; [|discriminate].
      injection H as <- <-.
      destruct (IH _ _ _ E) as (Hn & Hp & Hl).
      repeat split.
      * exact Hn.
      * apply Permutation_trans with (p :: q' :: rest').
        -- apply perm_skip, Hp.
        -- apply perm_swap.
      * cbn. rewrite Hl. reflexivity.
Qed.

Lemma pop_in_range (remaining : list Polyline) : forall idx,
  (idx < length remaining)%nat -> exists q rest, pop idx remaining = Some (q, rest).
Proof.
  induction remaining as [|p l IH]; intros idx H; [inversion H|].
  destruct idx as [|i]; cbn.
  - eauto.
  - destruct (IH i) as (q & rest & ->); [cbn in H; lia|]. eauto.
Qed.

Lemma last_point_nonempty (poly : Polyline) :
  poly <> [] -> exists p, last_point poly = Ok p.
Proof. destruct poly; [congruence|]. cbn. eauto. Qed.

Lemma first_point_nonempty (poly : Polyline) :
  poly <> [] -> exists p, first_point poly = Ok p.
Proof. destruct poly; [congruence|]. cbn. eauto. Qed.

Lemma rev_nonempty (poly : Polyline) : poly <> [] -> rev poly <> [].
Proof.
  intros H E. apply H. rewrite <- (rev_involutive poly), E. reflexivity.
Qed.

Section optimizer_facts.
Variable sqrt : Q -> Q.

(** The scan over the remaining polylines never fails on polylines that
    have points, and the index it selects is one of theirs. *)
Lemma scan_succeeds current_end (remaining : list Polyline) : forall idx b,
  Forall (fun p => p <> []) remaining ->
  exists b', scan sqrt current_end idx remaining b = Ok b'.
Proof.
  induction remaining as [|p l IH]; intros idx b H; cbn; [eauto|].
  inversion H as [|? ? Hp Hl]; subst.
  unfold consider.
  destruct (first_point_nonempty p Hp) as [p0 ->].
  destruct (last_point_nonempty p Hp) as [pn ->].
  apply IH. exact Hl.
Qed.

Lemma consider_index current_end idx poly b b' :
  consider sqrt current_end idx poly b = Ok b' ->
  best_idx b' = best_idx b \/ best_idx b' = idx.
Proof.
  unfold consider.
  destruct (first_point poly); [|discriminate].
  destruct (last_point poly); [|discriminate].
  intros H. injection H as <-.
  repeat match goal with |- context [if ?c then _ else _] => destruct c end;
    cbn; auto.
Qed.

Lemma scan_index current_end (remaining : list Polyline) : forall idx b b',
  scan sqrt current_end idx remaining b = Ok b' ->
  best_idx b' = best_idx b
  \/ (idx <= best_idx b' < idx + length remaining)%nat.
Proof.
  induction remaining as [|p l IH]; intros idx b b' H; cbn in H.
  - injection H as <-. auto.
  - destruct (consider sqrt current_end idx p b) as [b1|] eqn:E; [|discriminate].
    destruct (IH _ _ _ H) as [Hi|Hi];
      destruct (consider_index _ _ _ _ _ E) as [Hc|Hc]; cbn [length].
    + left. congruence.
    + right. lia.
    + right. lia.
    + right. lia.
Qed.

(** What a completed run of the loop returns. *)
Lemma greedy_oriented (fuel : nat) : forall remaining ordered current_end out,
  greedy sqrt fuel remaining ordered current_end = Ok out ->
  exists out' inp',
    out = ordered ++ out'
    /\ Permutation remaining inp'
    /\ oriented out' inp'.
Proof.
  induction fuel as [|fuel IH]; intros remaining ordered current_end out H.
  - destruct remaining; [|discriminate]. injection H as <-.
    exists [], []. rewrite app_nil_r. repeat split; constructor.
  - destruct remaining as [|p l]; cbn [greedy] in H.
    { injection H as <-. exists [], []. rewrite app_nil_r.
      repeat split; constructor. }
    destruct (scan sqrt current_end 0 (p :: l) _) as [b|]; [|discriminate].
    destruct (pop (best_idx b) (p :: l)) as [[q rest]|] eqn:Ep; [|discriminate].
    destruct (last_point _) as [ce|]; [|discriminate].
    destruct (IH _ _ _ _ H) as (out' & inp' & -> & Hperm & Hor).
    destruct (pop_spec _ _ _ _ Ep) as (_ & Hp & _).
    exists ((if best_reverse b then rev q else q) :: out'), (q :: inp').
    repeat split.
    + rewrite <- app_assoc. reflexivity.
    + eapply Permutation_trans; [exact Hp|]. apply perm_skip, Hperm.
    + constructor; [|exact Hor]. destruct (best_reverse b); auto.
Qed.

(** The loop completes when every polyline has points and the fuel
    covers them. *)
Lemma greedy_completes (fuel : nat) : forall remaining ordered current_end,
  Forall (fun p => p <> []) remaining ->
  (length remaining <= fuel)%nat ->
  exists out, greedy sqrt fuel remaining ordered current_end = Ok out.
Proof.
  induction fuel as [|fuel IH]; intros remaining ordered current_end Hne Hf.
  - destruct remaining; [cbn; eauto | cbn in Hf; lia].
  - destruct remaining as [|p l]; [cbn; eauto|]. cbn [greedy].
    destruct (scan_succeeds current_end (p :: l) 0 (mkBest None 0 false) Hne)
      as [b Hb].
    rewrite Hb.
    assert (Hi : (best_idx b < length (p :: l))%nat).
    { destruct (scan_index _ _ _ _ _ Hb) as [Hi|Hi];
    cbn [best_idx length] in Hi |- *; unfold Polyline in *; lia. }
    destruct (pop_in_range _ _ Hi) as (q & rest & Ep). rewrite Ep.
    destruct (pop_spec _ _ _ _ Ep) as (Hn & Hp & Hl).
    assert (Hq : q <> []).
    { rewrite Forall_forall in Hne. apply Hne.
      eapply nth_error_In. exact Hn. }
    assert (Hrest : Forall (fun p => p <> []) rest).
    { rewrite Forall_forall in *. intros r Hr. apply Hne.
      eapply Permutation_in; [apply Permutation_sym, Hp|]. right. exact Hr. }
    assert (Hq' : (if best_reverse b then rev q else q) <> []).
    { destruct (best_reverse b); [apply rev_nonempty|]; exact Hq. }
    destruct (last_point_nonempty _ Hq') as [ce ->].
    apply IH; [exact Hrest|]. cbn [length] in Hl, Hf.
  unfold Polyline in *. lia.
Qed.

(** C6.  On polylines that have points, the optimizer returns a list of
    the same length that is a permutation of the input in which each
    polyline is kept as it is or reversed. *)
Theorem optimize_path_order_permutes (polylines : list Polyline) :
  Forall (fun p => p <> []) polylines ->
  exists out,
    _optimize_path_order sqrt polylines = Ok out
    /\ length out = length polylines
    /\ exists inp', Permutation polylines inp' /\ oriented out inp'.
Proof.
  intros Hne. destruct polylines as [|current remaining].
  - exists []. cbn. repeat split. exists []. split; constructor.
  - inversion Hne as [|? ? Hc Hr]; subst.
    unfold _optimize_path_order.
    destruct (last_point_nonempty current Hc) as [ce ->].
    destruct (greedy_completes (length remaining) remaining [current] ce Hr
                (Nat.le_refl _)) as [out Hout].
    exists out. split; [exact Hout|].
    destruct (greedy_oriented _ _ _ _ _ Hout) as (out' & inp' & -> & Hp & Ho).
    split.
    + cbn [app length]. f_equal. transitivity (length inp').
      * exact (Forall2_length Ho).
      * symmetry. apply Permutation_length, Hp.
    + exists (current :: inp'). split.
      * apply perm_skip, Hp.
      * constructor; [left; reflexivity | exact Ho].
Qed.

(** Whenever the optimizer returns, with or without the assumption on
    the polylines, what it returns is such a permutation. *)
Lemma optimize_path_order_sound (polylines out : list Polyline) :
  _optimize_path_order sqrt polylines = Ok out ->
  exists inp', Permutation polylines inp' /\ oriented out inp'.
Proof.
  destruct polylines as [|current remaining]; cbn.
  - intros H. injection H as <-. exists []. split; constructor.
  - destruct (last_point current) as [ce|]; [|discriminate].
    intros H.
    destruct (greedy_oriented _ _ _ _ _ H) as (out' & inp' & -> & Hp & Ho).
    exists (current :: inp'). split.
    + apply perm_skip, Hp.
    + constructor; [left; reflexivity | exact Ho].
Qed.

(** ** The hop chosen by one scan *)

Lemma first_point_start (poly : Polyline) p :
  first_point poly = Ok p -> p = start_of poly.
Proof. destruct poly; cbn; intros H; [discriminate | congruence]. Qed.

Lemma last_cons_default (l : Polyline) : forall a d, last (a :: l) d = last l a.
Proof.
  induction l as [|b l IH]; intros a d; [reflexivity|].
  change (last (a :: b :: l) d) with (last (b :: l) d).
  rewrite (IH b d), (IH b a). reflexivity.
Qed.

Lemma last_point_end (poly : Polyline) p :
  last_point poly = Ok p -> p = end_of poly.
Proof.
  destruct poly as [|a l]; cbn [last_point]; intros H; [discriminate|].
  injection H as <-. unfold end_of. symmetry. apply last_cons_default.
Qed.

Lemma start_of_rev (poly : Polyline) : start_of (rev poly) = end_of poly.
Proof.
  unfold start_of, end_of. rewrite <- (rev_involutive poly) at 2.
  destruct (rev poly) as [|a m]; [reflexivity|].
  cbn [rev hd]. rewrite last_last. reflexivity.
Qed.

Lemma consider_nearest current_end all n poly b b' :
  nth_error all n = Some poly ->
  nearest_of sqrt current_end all n b ->
  consider sqrt current_end n poly b = Ok b' ->
  nearest_of sqrt current_end all (S n) b'.
Proof.
  intros Hn Hb. unfold consider.
  destruct (first_point poly) as [p0|] eqn:E0; [|discriminate].
  destruct (last_point poly) as [pn|] eqn:En; [|discriminate].
  apply first_point_start in E0. apply last_point_end in En. subst p0 pn.
  set (ds := _point_distance sqrt current_end (start_of poly)).
  set (de := _point_distance sqrt current_end (end_of poly)).
  intros H. injection H as <-.
  (* after the test on the start *)
  set (b1 := if closer ds (min_dist b) then mkBest (Some ds) n false else b).
  assert (H1 : exists d1, min_dist b1 = Some d1 /\ d1 <= ds
                          /\ nearest_of sqrt current_end all n b1).
  { subst b1. unfold nearest_of in Hb.
    destruct (min_dist b) as [d|] eqn:Ed; cbn [closer].
    - destruct (Qltb ds d) eqn:Elt.
      + apply Qltb_true in Elt. exists ds.
        split; [reflexivity|]. split; [lra|].
        unfold nearest_of; cbn [min_dist best_idx best_reverse]. split.
        * exists poly. split; [exact Hn | reflexivity].
        * intros j r Hj Hr. destruct Hb as [_ Hb].
          destruct (Hb j r Hj Hr). split; lra.
      + apply Qltb_false in Elt. exists d.
        split; [exact Ed|]. split; [exact Elt|].
        unfold nearest_of. rewrite Ed. exact Hb.
    - subst n. exists ds.
      split; [reflexivity|]. split; [lra|].
      unfold nearest_of; cbn [min_dist best_idx best_reverse]. split.
      + exists poly. split; [exact Hn | reflexivity].
      + intros j r Hj. inversion Hj. }
  destruct H1 as (d1 & Ed1 & Hd1 & Hb1). rewrite Ed1. cbn [closer].
  unfold nearest_of in Hb1. rewrite Ed1 in Hb1. destruct Hb1 as [Hch Hlow].
  destruct (Qltb de d1) eqn:Elt.
  - apply Qltb_true in Elt.
    unfold nearest_of; cbn [min_dist best_idx best_reverse]. split.
    + exists poly. split; [exact Hn | reflexivity].
    + intros j r Hj Hr. destruct (Nat.eq_dec j n) as [->|Hne].
      * rewrite Hn in Hr. injection Hr as <-. fold ds de. split; lra.
      * destruct (Hlow j r) as [? ?]; [lia | exact Hr |]. split; lra.
  - apply Qltb_false in Elt. unfold nearest_of. rewrite Ed1. split.
    + exact Hch.
    + intros j r Hj Hr. destruct (Nat.eq_dec j n) as [->|Hne].
      * rewrite Hn in Hr. injection Hr as <-. fold ds de. split; lra.
      * apply (Hlow j r); [lia | exact Hr].
Qed.

Lemma scan_nearest current_end (rest : list Polyline) : forall seen b b',
  nearest_of sqrt current_end (seen ++ rest) (length seen) b ->
  scan sqrt current_end (length seen) rest b = Ok b' ->
  nearest_of sqrt current_end (seen ++ rest) (length (seen ++ rest)) b'.
Proof.
  induction rest as [|poly rest IH]; intros seen b b' Hb H; cbn [scan] in H.
  - injection H as <-. rewrite app_nil_r in *. exact Hb.
  - destruct (consider sqrt current_end (length seen) poly b) as [b1|] eqn:E;
      [|discriminate].
    assert (Hall : (seen ++ [poly]) ++ rest = seen ++ poly :: rest)
      by (rewrite <- app_assoc; reflexivity).
    rewrite <- Hall. apply (IH (seen ++ [poly]) b1).
    + rewrite Hall. rewrite length_app. cbn [length]. rewrite Nat.add_1_r.
      eapply consider_nearest; [|exact Hb|exact E].
      rewrite nth_error_app2, Nat.sub_diag by lia. reflexivity.
    + rewrite length_app. cbn [length]. rewrite Nat.add_1_r. exact H.
Qed.

(** C7, as the code has it.  On an input of two or more polylines that
    have points, the first polyline stays first and the hop to the
    polyline drawn second is no longer than the distance from the end of
    the first polyline to the start or to the end of any other input
    polyline.  With exactly two polylines this hop is the whole travel,
    which is then at most the travel of the input order. *)
Theorem first_hop_is_nearest (p q : Polyline) (rest : list Polyline) :
  Forall (fun poly => poly <> []) (p :: q :: rest) ->
  exists o2 tail,
    _optimize_path_order sqrt (p :: q :: rest) = Ok (p :: o2 :: tail)
    /\ (forall r, In r (q :: rest) ->
          _point_distance sqrt (end_of p) (start_of o2)
          <= _point_distance sqrt (end_of p) (start_of r)
          /\ _point_distance sqrt (end_of p) (start_of o2)
             <= _point_distance sqrt (end_of p) (end_of r))
    /\ (rest = [] ->
          tail = []
          /\ travel sqrt (p :: o2 :: tail) <= travel sqrt (p :: q :: rest)).
Proof.
  intros Hne. inversion Hne as [|? ? Hp Hqr]; subst.
  unfold _optimize_path_order.
  destruct (last_point_nonempty p Hp) as [ce Hce]. rewrite Hce.
  apply last_point_end in Hce. subst ce.
  cbn [length greedy].
  destruct (scan_succeeds (end_of p) (q :: rest) 0 (mkBest None 0 false) Hqr)
    as [b Hb].
  rewrite Hb.
  pose proof (scan_nearest (end_of p) (q :: rest) [] (mkBest None 0 false) b
                eq_refl Hb) as Hnear.
  cbn [app] in Hnear. unfold nearest_of in Hnear.
  destruct (min_dist b) as [d|]; [|discriminate].
  destruct Hnear as [(poly & Hnth & Hd) Hlow].
  assert (Hi : (best_idx b < length (q :: rest))%nat).
  { apply nth_error_Some. rewrite Hnth. discriminate. }
  destruct (pop_in_range _ _ Hi) as (q' & rest' & Ep). rewrite Ep.
  destruct (pop_spec _ _ _ _ Ep) as (Hn' & Hperm & Hlen).
  rewrite Hnth in Hn'. injection Hn' as <-.
  set (o2 := if best_reverse b then rev poly else poly).
  assert (Hpoly : poly <> []).
  { rewrite Forall_forall in Hqr. apply Hqr. eapply nth_error_In, Hnth. }
  assert (Ho2 : o2 <> []).
  { subst o2. destruct (best_reverse b); [apply rev_nonempty|]; exact Hpoly. }
  assert (Hstart : start_of o2 = chosen_start b poly).
  { subst o2. unfold chosen_start.
    destruct (best_reverse b); [apply start_of_rev | reflexivity]. }
  destruct (last_point_nonempty _ Ho2) as [ce2 ->].
  assert (Hrest' : Forall (fun poly => poly <> []) rest').
  { rewrite Forall_forall in *. intros r Hr. apply Hqr.
    eapply Permutation_in; [apply Permutation_sym, Hperm|]. right. exact Hr. }
  assert (Hfuel : (length rest' <= length rest)%nat).
  { cbn [length] in Hlen. unfold Polyline in *. lia. }
  destruct (greedy_completes (length rest) rest' ([p] ++ [o2]) ce2 Hrest' Hfuel)
    as [out Hout].
  rewrite Hout.
  destruct (greedy_oriented _ _ _ _ _ Hout) as (out' & inp' & -> & Hp' & Ho').
  exists o2, out'. split; [reflexivity|]. split.
  - intros r Hr. rewrite Hstart, <- Hd.
    destruct (In_nth_error _ _ Hr) as [j Hj].
    apply (Hlow j r); [|exact Hj].
    apply nth_error_Some. rewrite Hj. discriminate.
  - intros ->. cbn [length] in Hfuel.
    assert (rest' = []) by (destruct rest'; [reflexivity | cbn in Hfuel; lia]).
    subst rest'. apply Permutation_nil in Hp'. subst inp'.
    inversion Ho'. subst out'. split; [reflexivity|].
    cbn [travel]. rewrite Hstart, <- Hd.
    destruct (Hlow 0%nat q) as [Hq _]; [cbn; lia | reflexivity |]. lra.
Qed.

End optimizer_facts.

Lemma optimize_path_order_permutes_witness :
  exists out,
    _optimize_path_order sqrt_of_squares three_strokes = Ok out
    /\ length out = length three_strokes
    /\ exists inp', Permutation three_strokes inp' /\ oriented out inp'.
Proof.
  apply (optimize_path_order_permutes sqrt_of_squares three_strokes).
  repeat constructor; discriminate.
Defined.

Lemma first_hop_is_nearest_witness :
  exists o2 tail,
    _optimize_path_order sqrt_of_squares two_strokes
    = Ok ([(-3, 0); (0, 0)] :: o2 :: tail)
    /\ (forall r, In r [[(2, 0); (-1, 0)]] ->
          _point_distance sqrt_of_squares (end_of [(-3, 0); (0, 0)]) (start_of o2)
          <= _point_distance sqrt_of_squares (end_of [(-3, 0); (0, 0)]) (start_of r)
          /\ _point_distance sqrt_of_squares (end_of [(-3, 0); (0, 0)]) (start_of o2)
             <= _point_distance sqrt_of_squares (end_of [(-3, 0); (0, 0)]) (end_of r))
    /\ (@nil Polyline = [] ->
          tail = []
          /\ travel sqrt_of_squares ([(-3, 0); (0, 0)] :: o2 :: tail)
             <= travel sqrt_of_squares two_strokes).
Proof.
  apply (first_hop_is_nearest sqrt_of_squares
           [(-3, 0); (0, 0)] [(2, 0); (-1, 0)] []).
  repeat constructor; discriminate.
Defined.

(** C7, as stated, fails.  On the three strokes the greedy order draws
    the second stroke reversed, because its end (-1, 0) is the endpoint
    nearest to (0, 0), and then has to come back from (2, 0) to (-1, 0):
    the travel is 1 + 3 = 4, against 2 + 0 = 2 for the input order. *)
Lemma greedy_order_travels_further :
  _optimize_path_order sqrt_of_squares three_strokes
  = Ok [ [(-3, 0); (0, 0)]; [(-1, 0); (2, 0)]; [(-1, 0); (-5, 0)] ]
  /\ travel sqrt_of_squares three_strokes == 2
  /\ travel sqrt_of_squares
            [ [(-3, 0); (0, 0)]; [(-1, 0); (2, 0)]; [(-1, 0); (-5, 0)] ] == 4
  /\ ~ (travel sqrt_of_squares
            [ [(-3, 0); (0, 0)]; [(-1, 0); (2, 0)]; [(-1, 0); (-5, 0)] ]
        <= travel sqrt_of_squares three_strokes).
Proof.
  split; [reflexivity|]. split; [reflexivity|]. split; [reflexivity|].
  vm_compute. intros H. apply H. reflexivity.
Qed.

End OptimizerFacts.

(** * Further facts on the driver and the executor *)

Module DriverFacts.
Import Dexarm DexArmController.
Open Scope py_scope.

(** The answer [send_gcode] waits for is made of the non-empty lines the
    device delivers, up to and including the first ["ok"]; idle turns and
    failed reads leave no trace in it. *)
Lemma wait_for_ok_received (turns : list Poll) : forall response_lines,
  existsb link_lost turns = false ->
  wait_for_ok turns response_lines
  = Some (join_lines (response_lines ++ until_ok (received turns))).
Proof.
  induction turns as [|p turns IH]; intros acc H.
  - cbn. rewrite app_nil_r. reflexivity.
  - destruct p as [| s | |]; cbn [existsb link_lost orb] in H;
      try discriminate; cbn [wait_for_ok received].
    + apply IH, H.
    + destruct (String.eqb s EmptyString) eqn:Es; [apply IH, H|].
      cbn [until_ok]. destruct (String.eqb s "ok") eqn:Eok.
      * reflexivity.
      * rewrite IH by exact H. rewrite <- app_assoc. reflexivity.
    + apply IH, H.
Qed.

(** What [send_gcode] returns when it waits: on an open port that takes
    the write and keeps the link, the command is written once and the
    response is the reply up to its first ["ok"], whether or not the
    ["ok"] came before the timeout. *)
Theorem send_gcode_response (d : Port) (command : GCode) (timeout : Q)
        (log : Sent) :
  is_open d = true ->
  write d command = Written ->
  existsb link_lost (polls d command timeout) = false ->
  send_gcode d command true timeout log
  = (Ok (join_lines (until_ok (received (polls d command timeout)))),
     log ++ [command]).
Proof.
  intros Ho Hw Hl. unfold send_gcode. rewrite Ho, Hw. cbn [negb].
  unfold bind, emit. rewrite (wait_for_ok_received _ [] Hl). reflexivity.
Qed.

Lemma send_gcode_response_witness :
  send_gcode (mkPort true (fun _ => Written)
                     (fun _ _ => [Idle; Line "echo:busy"; ReadFailed;
                                  Line ""; Line "X:1 Y:2 Z:3"; Line "ok";
                                  Line "late"])
                     None)
             G90 true 10 []
  = (Ok (join_lines ["echo:busy"; "X:1 Y:2 Z:3"; "ok"]%string), [G90]).
Proof.
  apply (send_gcode_response
           (mkPort true (fun _ => Written)
                   (fun _ _ => [Idle; Line "echo:busy"; ReadFailed;
                                Line ""; Line "X:1 Y:2 Z:3"; Line "ok";
                                Line "late"])
                   None)
           G90 10 []); reflexivity.
Defined.

(** [home] raises a [TimeoutError] exactly when the write of the G28
    times out on an open port; the error then carries the timeout of the
    call and nothing has been written. *)
Theorem home_timeout_iff_write_timeout (self : Controller) (timeout : Q)
        (log : Sent) :
  (exists e log', home self timeout log = (Raise e, log')
                  /\ is_TimeoutError e = true)
  <-> (exists d, device self = Some d /\ is_open d = true
                 /\ write d G28 = SerialTimeoutException).
Proof.
  unfold home. split.
  - intros (e & log' & H & He).
    destruct (device self) as [d|]; [|inversion H; subst; discriminate].
    exists d. split; [reflexivity|]. revert H.
    unfold catch_TimeoutError, go_home, bind, send_gcode.
    destruct (is_open d); cbn [negb].
    + destruct (write d G28) eqn:Ew; cbn.
      * unfold bind, emit.
        destruct (wait_for_ok _ _); cbn; intros H; inversion H; subst;
          discriminate.
      * intros _. split; reflexivity.
      * intros H. inversion H; subst. discriminate.
    + cbn. intros H. inversion H; subst. discriminate.
  - intros (d & Hd & Ho & Hw). rewrite Hd.
    exists (HomingTimedOut timeout), log. split; [|reflexivity].
    unfold catch_TimeoutError, go_home, bind, send_gcode.
    rewrite Ho, Hw. reflexivity.
Qed.

Lemma move_from_returns_target d x y z f cz log r log' :
  move_from d x y z f cz log = (Ok r, log') -> r = z.
Proof.
  unfold move_from, bind.
  destruct (Qltb (Qabs (z - cz)) (1 # 2)).
  - destruct (fast_move_to d x y z f log) as [[u|e] l]; cbn;
      intros H; inversion H; reflexivity.
  - destruct (Qltb 0 (z - cz)).
    + destruct (fast_move_to d cz cz z 10000 log) as [[u|e] l]; cbn;
        [|discriminate].
      destruct (fast_move_to d x y z 10000 l) as [[u'|e'] l']; cbn;
        intros H; inversion H; reflexivity.
    + destruct (fast_move_to d x y cz 10000 log) as [[u|e] l]; cbn;
        [|discriminate].
      destruct (fast_move_to d x y z f l) as [[u'|e'] l']; cbn;
        intros H; inversion H; reflexivity.
Qed.

Lemma move_to_safe_returns_z_any self x y z f current_z log r log' :
  move_to_safe self x y z f current_z log = (Ok r, log') -> r = z.
Proof.
  unfold move_to_safe.
  destruct (device self) as [d|] eqn:Hd; [|discriminate].
  destruct current_z as [cz|]; [apply move_from_returns_target|].
  unfold bind, get_position. rewrite Hd. unfold Dexarm.get_position, ret.
  destruct (m114 d) as [pos|]; [apply move_from_returns_target|].
  destruct (fast_move_to d x y z f log) as [[u|e] l];
    intros H; inversion H; reflexivity.
Qed.

Lemma pose_after_app (start : Pose) (log moves : Sent) :
  pose_after start (log ++ moves) = pose_after (pose_after start log) moves.
Proof.
  revert start. induction log as [|c log IH]; intros start; [reflexivity|].
  cbn [app pose_after]. apply IH.
Qed.

Lemma fast_move_to_written d x y z f log u log' :
  fast_move_to d x y z f log = (Ok u, log') -> log' = log ++ [G0 x y z f].
Proof.
  unfold fast_move_to, bind, send_gcode.
  destruct (is_open d); cbn; [|discriminate].
  destruct (write d _); cbn; try discriminate.
  unfold bind, emit.
  destruct (wait_for_ok _ _); cbn; intros H; inversion H; reflexivity.
Qed.

(** The moves a completed run of the three branches has written. *)
Lemma move_from_written d x y z f cz log r log' :
  move_from d x y z f cz log = (Ok r, log') ->
  exists moves f',
    log' = log ++ moves
    /\ (moves = [G0 x y z f']
        \/ (exists x' y' z' f'', moves = [G0 x' y' z' f''; G0 x y z f'])).
Proof.
  unfold move_from, bind.
  destruct (Qltb (Qabs (z - cz)) (1 # 2)).
  - destruct (fast_move_to d x y z f log) as [[u|e] l] eqn:E1; cbn;
      [|discriminate].
    intros H. injection H as _ <-.
    apply fast_move_to_written in E1. exists [G0 x y z f], f. auto.
  - destruct (Qltb 0 (z - cz)).
    + destruct (fast_move_to d cz cz z 10000 log) as [[u|e] l] eqn:E1; cbn;
        [|discriminate].
      destruct (fast_move_to d x y z 10000 l) as [[u'|e'] l2] eqn:E2; cbn;
        [|discriminate].
      intros H. injection H as _ <-.
      apply fast_move_to_written in E1, E2. subst.
      exists [G0 cz cz z 10000; G0 x y z 10000], 10000.
      rewrite <- app_assoc. split; [reflexivity|]. right. eauto.
    + destruct (fast_move_to d x y cz 10000 log) as [[u|e] l] eqn:E1; cbn;
        [|discriminate].
      destruct (fast_move_to d x y z f l) as [[u'|e'] l2] eqn:E2; cbn;
        [|discriminate].
      intros H. injection H as _ <-.
      apply fast_move_to_written in E1, E2. subst.
      exists [G0 x y cz 10000; G0 x y z f], f.
      rewrite <- app_assoc. split; [reflexivity|]. right. eauto.
Qed.

Lemma move_to_safe_written self x y z f current_z log r log' :
  move_to_safe self x y z f current_z log = (Ok r, log') ->
  exists moves f',
    log' = log ++ moves
    /\ (moves = [G0 x y z f']
        \/ (exists x' y' z' f'', moves = [G0 x' y' z' f''; G0 x y z f'])).
Proof.
  unfold move_to_safe.
  destruct (device self) as [d|] eqn:Hd; [|discriminate].
  destruct current_z as [cz|]; [apply move_from_written|].
  unfold bind, get_position. rewrite Hd. unfold Dexarm.get_position, ret.
  destruct (m114 d) as [pos|]; [apply move_from_written|].
  destruct (fast_move_to d x y z f log) as [[u|e] l] eqn:E1; [|discriminate].
  intros H. injection H as _ <-.
  apply fast_move_to_written in E1. exists [G0 x y z f], f. auto.
Qed.

(** Whatever the branch, a call of [move_to_safe] that returns has
    written one or two rapid moves, the last of them to the target, so
    the arm ends at the target (x, y, z). *)
Theorem move_to_safe_ends_at_target (self : Controller) (x y z f : Q)
        (current_z : option Q) (start : Pose) (log log' : Sent) (r : Q) :
  move_to_safe self x y z f current_z log = (Ok r, log') ->
  pose_after start log' = mkPose x y z
  /\ exists moves,
       log' = log ++ moves
       /\ (1 <= length moves <= 2)%nat
       /\ Forall (fun c => exists x' y' z' f', c = G0 x' y' z' f') moves.
Proof.
  intros H.
  destruct (move_to_safe_written _ _ _ _ _ _ _ _ _ H)
    as (moves & f' & -> & [->|(x' & y' & z' & f'' & ->)]).
  - split; [rewrite pose_after_app; reflexivity|].
    exists [G0 x y z f']. repeat split; cbn; try lia.
    repeat constructor; eauto.
  - split; [rewrite pose_after_app; reflexivity|].
    exists [G0 x' y' z' f''; G0 x y z f']. repeat split; cbn; try lia.
    repeat constructor; eauto.
Qed.

Lemma move_to_safe_ends_at_target_witness :
  pose_after (mkPose 100 50 16)
             [G0 100 50 16 2000; G0 120 60 16 10000; G0 120 60 0 2000]
  = mkPose 120 60 0
  /\ exists moves,
       [G0 100 50 16 2000; G0 120 60 16 10000; G0 120 60 0 2000]
       = [G0 100 50 16 2000] ++ moves
       /\ (1 <= length moves <= 2)%nat
       /\ Forall (fun c => exists x' y' z' f', c = G0 x' y' z' f') moves.
Proof.
  apply (move_to_safe_ends_at_target arm 120 60 0 2000 (Some 16)
           (mkPose 100 50 16) [G0 100 50 16 2000] _ 0).
  reflexivity.
Defined.

(** The loop of [app.py] over a non-empty list of commands: when it
    completes, the threaded Z is the Z of the last command, the arm
    stands at the target of the last command, and between one and two
    moves have been written per command. *)
Theorem execute_from_ends_at_last_command (self : Controller)
        (commands : list Command) :
  forall (current_z : option Q) (start : Pose) (log log' : Sent)
         (r : option Q),
  commands <> [] ->
  execute_from self commands current_z log = (Ok r, log') ->
  let c := last commands (mkCommand move 0 0 0 0) in
  r = Some (z c)
  /\ pose_after start log' = mkPose (x c) (y c) (z c)
  /\ exists moves,
       log' = log ++ moves
       /\ (length commands <= length moves <= 2 * length commands)%nat.
Proof.
  induction commands as [|cmd rest IH]; intros cz start log log' r Hne H;
    [congruence|].
  cbn [execute_from] in H. unfold bind in H.
  destruct (move_to_safe self (x cmd) (y cmd) (z cmd) (feedrate cmd) cz log)
    as [[z'|e] l1] eqn:E1; [|discriminate].
  pose proof (move_to_safe_returns_z_any _ _ _ _ _ _ _ _ _ E1) as Hz.
  destruct (move_to_safe_ends_at_target _ _ _ _ _ _ start _ _ _ E1)
    as (Hpose & moves1 & -> & Hlen1 & _).
  destruct rest as [|cmd2 rest'].
  - cbn [execute_from] in H. unfold ret in H. injection H as <- <-.
    cbn [last]. subst z'. repeat split; [exact Hpose|].
    exists moves1. split; [reflexivity|]. cbn [length]. lia.
  - destruct (IH (Some z') start _ _ _ ltac:(discriminate) H)
      as (Hr & Hp & moves2 & -> & Hlen2).
    change (last (cmd :: cmd2 :: rest') (mkCommand move 0 0 0 0))
      with (last (cmd2 :: rest') (mkCommand move 0 0 0 0)).
    repeat split; [exact Hr | exact Hp |].
    exists (moves1 ++ moves2). split; [rewrite app_assoc; reflexivity|].
    rewrite length_app. cbn [length] in *. lia.
Qed.

Lemma execute_from_ends_at_last_command_witness :
  let c := last [mkCommand draw 100 50 0 8000; mkCommand move 120 60 16 8000]
                (mkCommand move 0 0 0 0) in
  Some 16 = Some (z c)
  /\ pose_after (mkPose 100 50 16)
                [G0 100 50 16 10000; G0 100 50 0 8000;
                 G0 0 0 16 10000; G0 120 60 16 10000]
     = mkPose (x c) (y c) (z c)
  /\ exists moves,
       [G0 100 50 16 10000; G0 100 50 0 8000;
        G0 0 0 16 10000; G0 120 60 16 10000] = [] ++ moves
       /\ (2 <= length moves <= 2 * 2)%nat.
Proof.
  apply (execute_from_ends_at_last_command arm
           [mkCommand draw 100 50 0 8000; mkCommand move 120 60 16 8000]
           (Some 16) (mkPose 100 50 16) []).
  - discriminate.
  - reflexivity.
Defined.

End DriverFacts.

(** * Further facts on the command generator *)

Module GeneratorMore.
Import SVGPathParser.

(** ** The drawing area taught by two corners *)

Lemma py_min_le_l (a b : Q) : py_min a b <= a.
Proof.
  unfold py_min. destruct (Qltb b a) eqn:E; [|lra].
  apply Qltb_true in E. lra.
Qed.

Lemma py_min_le_r (a b : Q) : py_min a b <= b.
Proof.
  unfold py_min. destruct (Qltb b a) eqn:E; [lra|].
  apply Qltb_false in E. exact E.
Qed.

Lemma py_max_ge_left (a b : Q) : a <= py_max a b.
Proof.
  unfold py_max. destruct (Qltb a b) eqn:E; [|lra].
  apply Qltb_true in E. lra.
Qed.

Lemma py_max_ge_right (a b : Q) : b <= py_max a b.
Proof.
  unfold py_max. destruct (Qltb a b) eqn:E; [lra|].
  apply Qltb_false in E. exact E.
Qed.

(** Whatever the order and the position of the two taught corners, the
    drawing area is a proper rectangle: its bounds are ordered, its width
    and height are the spans and are not negative, and both corners lie
    inside it. *)
Theorem drawing_area_is_normalized (c1 c2 : Dexarm.Pose) :
  let area := get_drawing_area c1 c2 in
  x_min area <= x_max area
  /\ y_min area <= y_max area
  /\ area_width area == x_max area - x_min area
  /\ area_height area == y_max area - y_min area
  /\ 0 <= area_width area
  /\ 0 <= area_height area
  /\ _is_in_bounds (Dexarm.px c1) (Dexarm.py c1) area = true
  /\ _is_in_bounds (Dexarm.px c2) (Dexarm.py c2) area = true.
Proof.
  cbn zeta. unfold get_drawing_area, _is_in_bounds. cbn.
  pose proof (py_min_le_l (Dexarm.px c1) (Dexarm.px c2)).
  pose proof (py_min_le_r (Dexarm.px c1) (Dexarm.px c2)).
  pose proof (py_max_ge_left (Dexarm.px c1) (Dexarm.px c2)).
  pose proof (py_max_ge_right (Dexarm.px c1) (Dexarm.px c2)).
  pose proof (py_min_le_l (Dexarm.py c1) (Dexarm.py c2)).
  pose proof (py_min_le_r (Dexarm.py c1) (Dexarm.py c2)).
  pose proof (py_max_ge_left (Dexarm.py c1) (Dexarm.py c2)).
  pose proof (py_max_ge_right (Dexarm.py c1) (Dexarm.py c2)).
  repeat match goal with
         | |- _ /\ _ => split
         | |- _ && _ = true => apply andb_true_iff; split
         | |- Qle_bool _ _ = true => apply Qle_bool_iff
         end; try lra; reflexivity.
Qed.

(** ** Shape of the generated list *)

Section shape.
Variable area : DrawingArea.
Variable m : Mapping.
Variables zd zu fd fu : Q.

Local Abbreviation step := (segment_step area m zd zu fd fu).
Local Abbreviation pstep := (path_step area m zd zu fd fu).
Local Abbreviation gen := (generate_all area m zd zu fd fu).

(** A move is at the lifted height with the pen-up feedrate, a draw at
    the drawing height with the pen-down feedrate. *)
Definition well_formed (c : Command) : Prop :=
  match type c with
  | move => z c = zu /\ feedrate c = fu
  | draw => z c = zd /\ feedrate c = fd
  end.

(** The list ends with a pen lift made in place: a move at the lifted
    height over the XY of the command before it. *)
Definition ends_lifted (cmds : list Command) : Prop :=
  exists pre c0 c,
    cmds = pre ++ [c0; c]
    /\ type c = move /\ z c = zu /\ feedrate c = fu
    /\ x c = x c0 /\ y c = y c0.

Lemma sample_extends point st i :
  exists added,
    fst (sample m zd zu fd fu point st i) = fst st ++ added
    /\ Forall well_formed added.
Proof.
  destruct st as [cmds fp]. unfold sample.
  destruct (fp && Nat.eqb i 0); cbn [fst]; eexists; split;
    try reflexivity; repeat constructor.
Qed.

Lemma curve_extends point st :
  exists added,
    fst (curve m zd zu fd fu point st) = fst st ++ added
    /\ Forall well_formed added.
Proof.
  unfold curve. generalize (seq 0 21). intros l. revert st.
  induction l as [|i l IH]; intros st.
  - exists []. rewrite app_nil_r. split; [reflexivity | constructor].
  - cbn [fold_left].
    destruct (IH (sample m zd zu fd fu point st i)) as (a2 & -> & H2).
    destruct (sample_extends point st i) as (a1 & -> & H1).
    exists (a1 ++ a2). rewrite app_assoc. split; [reflexivity|].
    apply Forall_app. split; assumption.
Qed.

Lemma line_to_extends e st :
  exists added,
    fst (line_to area m zd zu fd fu e st) = fst st ++ added
    /\ Forall well_formed added.
Proof.
  destruct st as [cmds fp]. unfold line_to.
  destruct (_is_in_bounds _ _ area); cbn [negb fst].
  - destruct fp; cbn [fst]; eexists; split; try reflexivity;
      repeat constructor.
  - exists []. rewrite app_nil_r. split; [reflexivity | constructor].
Qed.

Lemma step_extends st seg :
  exists added,
    fst (step st seg) = fst st ++ added /\ Forall well_formed added.
Proof.
  destruct seg; cbn [segment_step];
    try apply line_to_extends; try apply curve_extends.
  cbn [fst]. eexists. split; [reflexivity|]. repeat constructor.
Qed.

Lemma fold_step_extends (path : Path) : forall st,
  exists added,
    fst (fold_left step path st) = fst st ++ added
    /\ Forall well_formed added.
Proof.
  induction path as [|seg path IH]; intros st.
  - exists []. rewrite app_nil_r. split; [reflexivity | constructor].
  - cbn [fold_left]. destruct (IH (step st seg)) as (a2 & -> & H2).
    destruct (step_extends st seg) as (a1 & -> & H1).
    exists (a1 ++ a2). rewrite app_assoc. split; [reflexivity|].
    apply Forall_app. split; assumption.
Qed.

Lemma lift_spec (cmds : list Command) :
  lift zu fu cmds = []  /\ cmds = []
  \/ exists pre c0,
       cmds = pre ++ [c0]
       /\ lift zu fu cmds = pre ++ [c0; mkCommand move (x c0) (y c0) zu fu].
Proof.
  destruct cmds as [|c l]; [left; split; reflexivity|]. right.
  destruct (exists_last (l := c :: l)) as (pre & c0 & E); [discriminate|].
  exists pre, c0. split; [exact E|]. unfold lift. rewrite E.
  destruct (pre ++ [c0]) eqn:E'; [destruct pre; discriminate|].
  rewrite <- E'. rewrite last_last. rewrite <- app_assoc. reflexivity.
Qed.

Lemma path_step_extends cmds path :
  exists added,
    pstep cmds path = cmds ++ added /\ Forall well_formed added.
Proof.
  unfold path_step.
  destruct (fold_step_extends path (cmds, true)) as (a & E & Ha).
  cbn [fst] in E. rewrite E.
  destruct (lift_spec (cmds ++ a)) as [[-> Hnil]|(pre & c0 & Hc & ->)].
  - apply app_eq_nil in Hnil. destruct Hnil as [-> ->].
    exists []. split; [reflexivity | constructor].
  - exists (a ++ [mkCommand move (x c0) (y c0) zu fu]).
    split.
    + rewrite app_assoc, Hc, <- app_assoc. reflexivity.
    + apply Forall_app. split; [exact Ha|]. repeat constructor.
Qed.

Lemma path_step_lifted cmds path :
  pstep cmds path = [] \/ ends_lifted (pstep cmds path).
Proof.
  unfold path_step.
  destruct (lift_spec (fst (fold_left step path (cmds, true))))
    as [[-> _]|(pre & c0 & _ & ->)]; [left; reflexivity|].
  right. exists pre, c0, (mkCommand move (x c0) (y c0) zu fu).
  repeat split.
Qed.

Lemma paths_loop_shape (total N : Z) (todo : list Path) : forall cmds pc,
  Forall well_formed cmds ->
  (cmds = [] \/ ends_lifted cmds) ->
  let r := paths_loop area m zd zu fd fu total N todo cmds pc in
  Forall well_formed (commands r)
  /\ (commands r = [] \/ ends_lifted (commands r)).
Proof.
  induction todo as [|path rest IH]; intros cmds pc Hwf Hl; cbn [paths_loop].
  - split; assumption.
  - destruct (Z.geb _ N); [split; assumption|].
    apply IH.
    + destruct (path_step_extends cmds path) as (a & -> & Ha).
      apply Forall_app. split; assumption.
    + apply path_step_lifted.
Qed.

Lemma generate_all_app (ps qs : list Path) :
  exists added, gen (ps ++ qs) = gen ps ++ added.
Proof.
  unfold generate_all. rewrite fold_left_app.
  generalize (fold_left pstep ps []). induction qs as [|q qs IH]; intros l.
  - exists []. rewrite app_nil_r. reflexivity.
  - cbn [fold_left]. destruct (IH (pstep l q)) as (a2 & ->).
    destruct (path_step_extends l q) as (a1 & -> & _).
    exists (a1 ++ a2). rewrite app_assoc. reflexivity.
Qed.

End shape.

(** Every command the generator returns is well formed: moves are at
    [z_draw + z_up] with the pen-up feedrate, draws at [z_draw] with the
    pen-down feedrate; and a result that is not empty ends with a pen
    lift made in place over the last point. *)
Theorem generated_commands_shape (self : Parser) (area : DrawingArea)
        (z_draw z_up fd fu : Q) (N : Z) :
  let zd := z_draw_of area z_draw in
  let r := convert_to_drawing_commands self area z_draw z_up fd fu N in
  Forall (well_formed zd (zd + z_up) fd fu) (commands r)
  /\ (commands r = [] \/ ends_lifted (zd + z_up) fu (commands r)).
Proof.
  cbn zeta. unfold convert_to_drawing_commands.
  destruct (paths self) as [|p ps]; cbn [commands].
  - split; [constructor | left; reflexivity].
  - apply paths_loop_shape; [constructor | left; reflexivity].
Qed.

(** Raising the budget only adds commands: the list returned for a
    budget is a prefix of the list returned for any larger budget. *)
Theorem larger_budget_extends (self : Parser) (area : DrawingArea)
        (z_draw z_up fd fu : Q) (N N' : Z) :
  (N <= N')%Z ->
  exists added,
    commands (convert_to_drawing_commands self area z_draw z_up fd fu N')
    = commands (convert_to_drawing_commands self area z_draw z_up fd fu N)
      ++ added.
Proof.
  intros HN. unfold convert_to_drawing_commands.
  destruct (paths self) as [|p ps]; [exists []; reflexivity|].
  set (zd := z_draw_of area z_draw).
  set (all := p :: ps).
  destruct (GeneratorFacts.paths_loop_spec area (mapping self area) zd
              (zd + z_up) fd fu (Z.of_nat (length all)) N all [] eq_refl)
    as (k & Hk & _ & Hc & Hlt & _); [intros j Hj; inversion Hj|].
  destruct (GeneratorFacts.paths_loop_spec area (mapping self area) zd
              (zd + z_up) fd fu (Z.of_nat (length all)) N' all [] eq_refl)
    as (k' & Hk' & _ & Hc' & _ & Hmore' & _); [intros j Hj; inversion Hj|].
  cbn [app] in *.
  change (generate_all area (mapping self area) zd (zd + z_up) fd fu [])
    with (@nil Command) in *.
  change (Z.of_nat (length (@nil Path))) with 0%Z in *.
  rewrite Hc, Hc'.
  assert (Hkk : (k <= k')%nat).
  { destruct (Nat.le_gt_cases k k') as [H|H]; [exact H|]. exfalso.
    assert (Hk'lt : (k' < length all)%nat) by lia.
    destruct (Hmore' Hk'lt) as [Hge _]. rewrite Hc' in Hge.
    specialize (Hlt k' H). lia. }
  assert (Hsplit : firstn k' all = firstn k all ++ skipn k (firstn k' all)).
  { rewrite <- (firstn_skipn k (firstn k' all)) at 1.
    rewrite firstn_firstn. rewrite Nat.min_l by exact Hkk. reflexivity. }
  rewrite Hsplit. apply generate_all_app.
Qed.

Lemma larger_budget_extends_witness :
  exists added,
    commands (convert_to_drawing_commands one_stroke sheet 0 16 8000 8000 5000)
    = commands (convert_to_drawing_commands one_stroke sheet 0 16 8000 8000 0)
      ++ added.
Proof.
  apply (larger_budget_extends one_stroke sheet 0 16 8000 8000 0 5000). lia.
Defined.

(** The clipping of straight strokes, at an example: the stroke
    "M 10,10 L 20,20" has no curve, so all its draws are inside. *)
Lemma straight_paths_are_clipped_witness :
  draws_inside sheet
    (commands (convert_to_drawing_commands one_stroke sheet 0 16 8000 8000 5000)).
Proof.
  apply (GeneratorFacts.straight_paths_are_clipped one_stroke sheet
           0 16 8000 8000 5000).
  reflexivity.
Defined.

End GeneratorMore.

(** * Further facts on the path-order optimizer *)

Module OptimizerMore.
Import PlotterSVGGenerator OptimizerFacts.

Section more.
Variable sqrt : Q -> Q.

Local Abbreviation dist := (_point_distance sqrt).

(** Along the order [a :: rest], every hop is a nearest one: the start
    of the next polyline is no farther from the end of the current one
    than the start or the end of any polyline still to be drawn. *)
Fixpoint hops_nearest (a : Polyline) (rest : list Polyline) : Prop :=
  match rest with
  | [] => True
  | b :: rest' =>
      (forall r, In r (b :: rest') ->
         dist (end_of a) (start_of b) <= dist (end_of a) (start_of r)
         /\ dist (end_of a) (start_of b) <= dist (end_of a) (end_of r))
      /\ hops_nearest b rest'
  end.

Lemma end_of_rev (poly : Polyline) : end_of (rev poly) = start_of poly.
Proof.
  rewrite <- (rev_involutive poly) at 2. symmetry. apply start_of_rev.
Qed.

Lemma oriented_in (out inp : list Polyline) r :
  oriented out inp -> In r out -> exists i, In i inp /\ (r = i \/ r = rev i).
Proof.
  intros Ho. induction Ho as [|o i out inp Hoi Ho IH]; intros Hr;
    [inversion Hr|].
  destruct Hr as [<-|Hr].
  - exists i. split; [left; reflexivity | exact Hoi].
  - destruct (IH Hr) as (i' & Hi & Hri). exists i'. split; [right|]; assumption.
Qed.

Lemma greedy_hops_nearest (fuel : nat) :
  forall remaining ordered a out,
  greedy sqrt fuel remaining (ordered ++ [a]) (end_of a) = Ok out ->
  exists tail, out = ordered ++ a :: tail /\ hops_nearest a tail.
Proof.
  induction fuel as [|fuel IH]; intros remaining ordered a out H.
  - destruct remaining; [|discriminate]. injection H as <-.
    exists []. split; [reflexivity | exact I].
  - destruct remaining as [|p l]; cbn [greedy] in H.
    { injection H as <-. exists []. split; [reflexivity | exact I]. }
    destruct (scan sqrt (end_of a) 0 (p :: l) _) as [b|] eqn:Hb;
      [|discriminate].
    pose proof (scan_nearest sqrt (end_of a) (p :: l) []
                  (mkBest None 0 false) b eq_refl Hb) as Hnear.
    cbn [app] in Hnear. unfold nearest_of in Hnear.
    destruct (min_dist b) as [d|]; [|discriminate].
    destruct Hnear as [(poly & Hnth & Hd) Hlow].
    destruct (pop (best_idx b) (p :: l)) as [[q rest]|] eqn:Ep;
      [|discriminate].
    destruct (pop_spec _ _ _ _ Ep) as (Hn' & Hperm & _).
    rewrite Hnth in Hn'. injection Hn' as <-.
    set (o2 := if best_reverse b then rev poly else poly) in *.
    destruct (last_point o2) as [ce|] eqn:Hce; [|discriminate].
    apply last_point_end in Hce. subst ce.
    destruct (greedy_oriented sqrt _ _ _ _ _ H)
      as (out' & inp' & Hout & Hperm' & Hor).
    destruct (IH _ _ _ _ H) as (tail & -> & Htail).
    rewrite <- !app_assoc in Hout. apply app_inv_head in Hout.
    cbn [app] in Hout. injection Hout as <-.
    exists (o2 :: tail). rewrite <- app_assoc. split; [reflexivity|].
    assert (Hstart : start_of o2 = chosen_start b poly).
    { subst o2. unfold chosen_start.
      destruct (best_reverse b); [apply start_of_rev | reflexivity]. }
    assert (Hin : forall i, In i (p :: l) ->
              d <= dist (end_of a) (start_of i)
              /\ d <= dist (end_of a) (end_of i)).
    { intros i Hi. destruct (In_nth_error _ _ Hi) as [j Hj].
      apply (Hlow j i); [|exact Hj]. apply nth_error_Some.
      rewrite Hj. discriminate. }
    cbn [hops_nearest]. split; [|exact Htail].
    intros r Hr. rewrite Hstart, <- Hd.
    assert (Hr' : exists i, In i (p :: l) /\ (r = i \/ r = rev i)).
    { destruct Hr as [<-|Hr].
      - exists poly. split; [eapply nth_error_In, Hnth|].
        subst o2. destruct (best_reverse b); auto.
      - destruct (oriented_in _ _ _ Hor Hr) as (i & Hi & Hri).
        exists i. split; [|exact Hri].
        eapply Permutation_in; [apply Permutation_sym, Hperm|]. right.
        eapply Permutation_in; [apply Permutation_sym, Hperm'|]. exact Hi. }
    destruct Hr' as (i & Hi & [->| ->]).
    + apply Hin, Hi.
    + rewrite start_of_rev, end_of_rev. destruct (Hin i Hi). split; assumption.
Qed.

(** Every hop of the order the optimizer returns is a nearest one: the
    first polyline stays first, and from the end of each polyline the
    next one starts no farther away than the start or the end of any
    polyline drawn later. *)
Theorem every_hop_is_nearest (polylines out : list Polyline) :
  _optimize_path_order sqrt polylines = Ok out ->
  match polylines with
  | [] => out = []
  | p :: _ => exists tail, out = p :: tail /\ hops_nearest p tail
  end.
Proof.
  destruct polylines as [|p rest]; cbn [_optimize_path_order].
  - intros H. injection H as <-. reflexivity.
  - destruct (last_point p) as [ce|] eqn:Hce; [|discriminate].
    apply last_point_end in Hce. subst ce. intros H.
    change [p] with ([] ++ [p]) in H.
    destruct (greedy_hops_nearest _ _ _ _ _ H) as (tail & -> & Ht).
    exists tail. split; [reflexivity | exact Ht].
Qed.

(** ** Empty polylines *)

Lemma nonempty_or_nil (polylines : list Polyline) :
  Forall (fun p => p <> []) polylines \/ In [] polylines.
Proof.
  induction polylines as [|p l [IH|IH]].
  - left. constructor.
  - destruct p as [|pt p']; [right; left; reflexivity|].
    left. constructor; [discriminate | exact IH].
  - right. right. exact IH.
Qed.

Lemma scan_raises current_end (remaining : list Polyline) : forall idx b,
  In [] remaining -> scan sqrt current_end idx remaining b = Raise IndexError.
Proof.
  induction remaining as [|p l IH]; intros idx b Hin; [inversion Hin|].
  cbn [scan]. destruct p as [|pt p'].
  - reflexivity.
  - destruct Hin as [Hin|Hin]; [discriminate|].
    unfold consider. cbn [first_point last_point]. apply IH, Hin.
Qed.

(** The optimizer raises [IndexError] exactly when one of the polylines
    has no point; in particular the loop bound of the model is never
    what stops it. *)
Theorem optimize_raises_iff_empty_polyline (polylines : list Polyline) :
  (exists e, _optimize_path_order sqrt polylines = Raise e)
  <-> In [] polylines.
Proof.
  split.
  - intros [e He]. destruct (nonempty_or_nil polylines) as [Hne|Hin];
      [|exact Hin]. exfalso.
    destruct polylines as [|p rest]; [discriminate|].
    inversion Hne as [|? ? Hp Hrest]; subst.
    unfold _optimize_path_order in He.
    destruct (last_point_nonempty p Hp) as [ce Hce]. rewrite Hce in He.
    destruct (greedy_completes sqrt (length rest) rest [p] ce Hrest
                (Nat.le_refl _)) as [out Hout].
    congruence.
  - intros Hin. exists IndexError.
    destruct polylines as [|p rest]; [inversion Hin|].
    unfold _optimize_path_order. destruct p as [|pt p']; [reflexivity|].
    destruct Hin as [Hin|Hin]; [discriminate|].
    cbn [last_point]. destruct rest as [|q rest']; [inversion Hin|].
    cbn [length greedy]. rewrite scan_raises by exact Hin. reflexivity.
Qed.

(** ** Points *)

Lemma oriented_concat (out inp : list Polyline) :
  oriented out inp -> Permutation (concat inp) (concat out).
Proof.
  intros H. induction H as [|o i out inp [->| ->] _ IH]; cbn [concat].
  - constructor.
  - apply Permutation_app_head, IH.
  - apply Permutation_app; [apply Permutation_rev | exact IH].
Qed.

Lemma Permutation_concat_points (l l' : list Polyline) :
  Permutation l l' -> Permutation (concat l) (concat l').
Proof.
  intros H. induction H; cbn [concat].
  - constructor.
  - apply Permutation_app_head. assumption.
  - rewrite !app_assoc. apply Permutation_app_tail, Permutation_app_comm.
  - eapply Permutation_trans; eassumption.
Qed.

(** Reordering and reversing keep the points: the points of the order
    returned are, all together, a rearrangement of the points given, so
    no point is dropped, added or changed. *)
Theorem optimize_keeps_points (polylines out : list Polyline) :
  _optimize_path_order sqrt polylines = Ok out ->
  Permutation (concat polylines) (concat out)
  /\ length (concat out) = length (concat polylines).
Proof.
  intros H.
  destruct (optimize_path_order_sound sqrt _ _ H) as (inp' & Hp & Ho).
  assert (Hperm : Permutation (concat polylines) (concat out)).
  { eapply Permutation_trans; [apply Permutation_concat_points, Hp|].
    apply oriented_concat, Ho. }
  split; [exact Hperm|]. symmetry. apply Permutation_length, Hperm.
Qed.

End more.

Lemma every_hop_is_nearest_witness :
  exists tail,
    [ [(-3, 0); (0, 0)]; [(-1, 0); (2, 0)]; [(-1, 0); (-5, 0)] ]
    = [(-3, 0); (0, 0)] :: tail
    /\ hops_nearest sqrt_of_squares [(-3, 0); (0, 0)] tail.
Proof.
  apply (every_hop_is_nearest sqrt_of_squares three_strokes
           [ [(-3, 0); (0, 0)]; [(-1, 0); (2, 0)]; [(-1, 0); (-5, 0)] ]).
  reflexivity.
Defined.

Lemma optimize_keeps_points_witness :
  Permutation (concat three_strokes)
              (concat [ [(-3, 0); (0, 0)]; [(-1, 0); (2, 0)]; [(-1, 0); (-5, 0)] ])
  /\ length (concat [ [(-3, 0); (0, 0)]; [(-1, 0); (2, 0)]; [(-1, 0); (-5, 0)] ])
     = length (concat three_strokes).
Proof.
  apply (optimize_keeps_points sqrt_of_squares three_strokes). reflexivity.
Defined.

(** ** Ties *)

Section ties.
Variable sqrt : Q -> Q.

Local Abbreviation dist := (_point_distance sqrt).

(** [b] is the first of the nearest candidates among the first [n]
    polylines of [all]: no candidate seen is nearer, every polyline
    before the selected one is strictly farther at both ends, and the
    selected polyline is taken reversed only if its end is strictly
    nearer than its start. *)
Definition first_nearest (current_end : Pt) (all : list Polyline) (n : nat)
           (b : Best) : Prop :=
  match min_dist b with
  | None => n = 0%nat
  | Some d =>
      (best_idx b < n)%nat
      /\ (exists poly,
            nth_error all (best_idx b) = Some poly
            /\ d = dist current_end (chosen_start b poly)
            /\ (best_reverse b = true -> d < dist current_end (start_of poly)))
      /\ (forall j r, (j < n)%nat -> nth_error all j = Some r ->
            d <= dist current_end (start_of r)
            /\ d <= dist current_end (end_of r))
      /\ (forall j r, (j < best_idx b)%nat -> nth_error all j = Some r ->
            d < dist current_end (start_of r)
            /\ d < dist current_end (end_of r))
  end.

Lemma consider_first_nearest current_end all n poly b b' :
  nth_error all n = Some poly ->
  first_nearest current_end all n b ->
  consider sqrt current_end n poly b = Ok b' ->
  first_nearest current_end all (S n) b'.
Proof.
  intros Hn Hb. unfold consider.
  destruct (first_point poly) as [p0|] eqn:E0; [|discriminate].
  destruct (last_point poly) as [pn|] eqn:En; [|discriminate].
  apply first_point_start in E0. apply last_point_end in En. subst p0 pn.
  set (ds := dist current_end (start_of poly)).
  set (de := dist current_end (end_of poly)).
  intros H. injection H as <-.
  set (b1 := if closer ds (min_dist b) then mkBest (Some ds) n false else b).
  (* after the test on the start: the invariant over the first [n]
     polylines, and the selected distance is at most [ds] *)
  assert (H1 : exists d1, min_dist b1 = Some d1 /\ d1 <= ds
                          /\ (best_idx b1 <= n)%nat
                          /\ (best_idx b1 = n -> best_reverse b1 = false)
                          /\ (exists poly1,
                                nth_error all (best_idx b1) = Some poly1
                                /\ d1 = dist current_end (chosen_start b1 poly1)
                                /\ (best_reverse b1 = true ->
                                    d1 < dist current_end (start_of poly1)))
                          /\ (forall j r, (j < n)%nat ->
                                nth_error all j = Some r ->
                                d1 <= dist current_end (start_of r)
                                /\ d1 <= dist current_end (end_of r))
                          /\ (forall j r, (j < best_idx b1)%nat ->
                                nth_error all j = Some r ->
                                d1 < dist current_end (start_of r)
                                /\ d1 < dist current_end (end_of r))).
  { subst b1. unfold first_nearest in Hb.
    destruct (min_dist b) as [d|] eqn:Ed; cbn [closer].
    - destruct Hb as (Hlt & Hch & Hlow & Hstrict).
      destruct (Qltb ds d) eqn:Elt.
      + apply Qltb_true in Elt. exists ds.
        cbn [min_dist best_idx best_reverse].
        split; [reflexivity|]. split; [lra|]. split; [lia|].
        split; [reflexivity|]. split.
        * exists poly. split; [exact Hn|]. split; [reflexivity|discriminate].
        * split; intros j r Hj Hr; destruct (Hlow j r Hj Hr); split; lra.
      + apply Qltb_false in Elt. exists d.
        split; [exact Ed|]. split; [exact Elt|]. split; [lia|].
        split; [lia|]. split; [exact Hch|]. split; assumption.
    - subst n. exists ds. cbn [min_dist best_idx best_reverse].
      split; [reflexivity|]. split; [lra|]. split; [lia|].
      split; [reflexivity|]. split.
      + exists poly. split; [exact Hn|]. split; [reflexivity|discriminate].
      + split; intros j r Hj; inversion Hj. }
  destruct H1 as (d1 & Ed1 & Hd1 & Hle & Hfwd & Hch & Hlow & Hstrict).
  rewrite Ed1. cbn [closer].
  destruct (Qltb de d1) eqn:Elt.
  - apply Qltb_true in Elt. unfold first_nearest.
    cbn [min_dist best_idx best_reverse].
    split; [lia|]. split.
    + exists poly. split; [exact Hn|]. split; [reflexivity|].
      intros _. fold ds. lra.
    + split; intros j r Hj Hr.
      * destruct (Nat.eq_dec j n) as [->|Hne].
        -- rewrite Hn in Hr. injection Hr as <-. fold ds de. split; lra.
        -- destruct (Hlow j r) as [? ?]; [lia | exact Hr |]. split; lra.
      * destruct (Hlow j r Hj Hr). split; lra.
  - apply Qltb_false in Elt. unfold first_nearest. rewrite Ed1.
    split; [lia|]. split; [exact Hch|]. split; [|exact Hstrict].
    intros j r Hj Hr. destruct (Nat.eq_dec j n) as [->|Hne].
    + rewrite Hn in Hr. injection Hr as <-. fold ds de. split; lra.
    + apply (Hlow j r); [lia | exact Hr].
Qed.

Lemma scan_first_nearest current_end (rest : list Polyline) :
  forall seen b b',
  first_nearest current_end (seen ++ rest) (length seen) b ->
  scan sqrt current_end (length seen) rest b = Ok b' ->
  first_nearest current_end (seen ++ rest) (length (seen ++ rest)) b'.
Proof.
  induction rest as [|poly rest IH]; intros seen b b' Hb H; cbn [scan] in H.
  - injection H as <-. rewrite app_nil_r in *. exact Hb.
  - destruct (consider sqrt current_end (length seen) poly b) as [b1|] eqn:E;
      [|discriminate].
    assert (Hall : (seen ++ [poly]) ++ rest = seen ++ poly :: rest)
      by (rewrite <- app_assoc; reflexivity).
    rewrite <- Hall. apply (IH (seen ++ [poly]) b1).
    + rewrite Hall. rewrite length_app. cbn [length]. rewrite Nat.add_1_r.
      eapply consider_first_nearest; [|exact Hb|exact E].
      rewrite nth_error_app2, Nat.sub_diag by lia. reflexivity.
    + rewrite length_app. cbn [length]. rewrite Nat.add_1_r. exact H.
Qed.

(** [remaining.pop(idx)] takes the polyline at [idx] and leaves the
    others in their order. *)
Lemma pop_splits (remaining : list Polyline) : forall idx q rest,
  pop idx remaining = Some (q, rest) ->
  exists before after,
    remaining = before ++ q :: after
    /\ rest = before ++ after
    /\ length before = idx.
Proof.
  induction remaining as [|p l IH]; intros idx q rest H.
  - destruct idx; discriminate.
  - destruct idx as [|i]; cbn in H.
    + injection H as <- <-. exists [], l. repeat split.
    + destruct (pop i l) as [[q' rest']|] eqn:E; [|discriminate].
      injection H as <- <-.
      destruct (IH _ _ _ E) as (before & after & -> & -> & Hl).
      exists (p :: before), after. cbn. repeat split. lia.
Qed.

(** Along the order [a :: tail], drawn from the polylines [remaining]
    (in input order), every tie goes to the earlier polyline, and to its
    forward direction: the polyline drawn next is one of [remaining], as
    it is or reversed; every polyline before it in [remaining] is
    strictly farther from the end of [a], at both of its ends, than the
    hop made; it is drawn reversed only when its end is strictly nearer
    than its start; and the same holds for the rest of the order, drawn
    from the polylines that are left. *)
Fixpoint earlier_first (a : Polyline) (remaining tail : list Polyline)
  : Prop :=
  match tail with
  | [] => remaining = []
  | o :: tail' =>
      exists before poly after,
        remaining = before ++ poly :: after
        /\ (o = poly
            \/ (o = rev poly
                /\ dist (end_of a) (end_of poly)
                   < dist (end_of a) (start_of poly)))
        /\ Forall (fun r =>
                     dist (end_of a) (start_of o) < dist (end_of a) (start_of r)
                     /\ dist (end_of a) (start_of o) < dist (end_of a) (end_of r))
                  before
        /\ earlier_first o (before ++ after) tail'
  end.

Lemma greedy_earlier_first (fuel : nat) :
  forall remaining ordered a out,
  greedy sqrt fuel remaining (ordered ++ [a]) (end_of a) = Ok out ->
  exists tail, out = ordered ++ a :: tail /\ earlier_first a remaining tail.
Proof.
  induction fuel as [|fuel IH]; intros remaining ordered a out H.
  - destruct remaining; [|discriminate]. injection H as <-.
    exists []. split; reflexivity.
  - destruct remaining as [|p l]; cbn [greedy] in H.
    { injection H as <-. exists []. split; reflexivity. }
    destruct (scan sqrt (end_of a) 0 (p :: l) _) as [b|] eqn:Hb;
      [|discriminate].
    pose proof (scan_first_nearest (end_of a) (p :: l) []
                  (mkBest None 0 false) b eq_refl Hb) as Hinv.
    cbn [app] in Hinv. unfold first_nearest in Hinv.
    destruct (min_dist b) as [d|]; [|discriminate].
    destruct Hinv as (_ & (poly & Hnth & Hd & Hrev) & _ & Hstrict).
    destruct (pop (best_idx b) (p :: l)) as [[q rest]|] eqn:Ep;
      [|discriminate].
    destruct (pop_spec _ _ _ _ Ep) as (Hn' & _ & _).
    rewrite Hnth in Hn'. injection Hn' as <-.
    destruct (pop_splits _ _ _ _ Ep) as (before & after & Hrem & -> & Hlen).
    set (o2 := if best_reverse b then rev poly else poly) in *.
    destruct (last_point o2) as [ce|] eqn:Hce; [|discriminate].
    apply last_point_end in Hce. subst ce.
    destruct (IH _ _ _ _ H) as (tail & -> & Htail).
    exists (o2 :: tail). rewrite <- app_assoc. split; [reflexivity|].
    assert (Hstart : start_of o2 = chosen_start b poly).
    { subst o2. unfold chosen_start.
      destruct (best_reverse b); [apply start_of_rev | reflexivity]. }
    cbn [earlier_first]. exists before, poly, after.
    split; [exact Hrem|]. split; [|split; [|exact Htail]].
    + subst o2. unfold chosen_start in Hd, Hrev.
      destruct (best_reverse b); [|left; reflexivity].
      right. split; [reflexivity|]. rewrite <- Hd. apply Hrev. reflexivity.
    + rewrite Hstart, <- Hd. apply Forall_forall. intros r Hr.
      destruct (In_nth_error _ _ Hr) as [j Hj].
      assert (Hjl : (j < length before)%nat).
      { apply nth_error_Some. rewrite Hj. discriminate. }
      apply (Hstrict j r); [lia|].
      rewrite Hrem, nth_error_app1 by exact Hjl. exact Hj.
Qed.

(** Ties are broken by input order, forward before reversed, at every
    hop.  The first polyline stays first; each polyline drawn after it
    is taken from the polylines not yet drawn, kept in input order;
    every polyline before it among them is strictly farther from the end
    of the polyline just drawn, at both of its ends, than the hop made;
    and a polyline is drawn reversed only when its end is strictly
    nearer than its start. *)
Theorem ties_go_to_the_earlier_polyline (p : Polyline)
        (others out : list Polyline) :
  _optimize_path_order sqrt (p :: others) = Ok out ->
  exists tail, out = p :: tail /\ earlier_first p others tail.
Proof.
  cbn [_optimize_path_order].
  destruct (last_point p) as [ce|] eqn:Hce; [|discriminate].
  apply last_point_end in Hce. subst ce. intros H.
  change [p] with ([] ++ [p]) in H.
  destruct (greedy_earlier_first _ _ _ _ _ H) as (tail & -> & Ht).
  exists tail. split; [reflexivity | exact Ht].
Qed.

End ties.

Lemma ties_go_to_the_earlier_polyline_witness :
  exists tail,
    [ [(-3, 0); (0, 0)]; [(-1, 0); (2, 0)]; [(-1, 0); (-5, 0)] ]
    = [(-3, 0); (0, 0)] :: tail
    /\ earlier_first sqrt_of_squares [(-3, 0); (0, 0)]
                     [ [(2, 0); (-1, 0)]; [(-1, 0); (-5, 0)] ] tail.
Proof.
  apply (ties_go_to_the_earlier_polyline sqrt_of_squares
           [(-3, 0); (0, 0)] [ [(2, 0); (-1, 0)]; [(-1, 0); (-5, 0)] ]).
  reflexivity.
Defined.

End OptimizerMore.

(** * Facts on calibration and connection *)

Module CalibrationFacts.
Import Dexarm DexArmController Calibration.
Open Scope ctl_scope.

(** ** Dictionaries *)

Lemma dict_get_set_same {V} (d : Dict V) key (v : V) :
  dict_get (dict_set d key v) key = Some v.
Proof.
  induction d as [|[k w] rest IH]; cbn.
  - rewrite String.eqb_refl. reflexivity.
  - destruct (String.eqb k key) eqn:E; cbn; rewrite E; [reflexivity | exact IH].
Qed.

Lemma dict_get_set_other {V} (d : Dict V) key key' (v : V) :
  key <> key' -> dict_get (dict_set d key v) key' = dict_get d key'.
Proof.
  intros Hne. induction d as [|[k w] rest IH]; cbn.
  - destruct (String.eqb key key') eqn:E; [|reflexivity].
    apply String.eqb_eq in E. congruence.
  - destruct (String.eqb k key) eqn:E; cbn.
    + apply String.eqb_eq in E. subst k.
      destruct (String.eqb key key') eqn:E'; [|reflexivity].
      apply String.eqb_eq in E'. congruence.
    + destruct (String.eqb k key'); [reflexivity | exact IH].
Qed.

(** The world with the controller connected through the port [d]. *)
Definition on_port (d : Port) (w : World) : World :=
  mkWorld (mkSelf (mkController true (Some d)) (config (self w)))
          (file w) (sent w) (yielded w).

Lemma save_corner_ok name d p w :
  device (ctl (self w)) = Some d -> m114 d = Some p ->
  save_corner name w
  = (Ok p,
     let c := config (self w) in
     let c' := mkConfig (port c) (Some (dict_set (get_corners c) name p))
                        (resting_position c) in
     mkWorld (mkSelf (ctl (self w)) c') (Some c') (sent w) (yielded w)).
Proof.
  intros Hd Hp. destruct w as [[c cfg] f s y]. cbn in Hd.
  unfold save_corner, and_then, connected, lift, Dexarm.get_position, ret.
  cbn. rewrite Hd. cbn. rewrite Hp. reflexivity.
Qed.

(** Teaching corner 1 and then corner 2, the arm being moved in between,
    calibrates the controller whatever was taught before: the drawing
    area is the rectangle spanned by the two poses read, and the
    configuration file holds the new configuration. *)
Theorem teaching_two_corners_calibrates (w : World) (d1 d2 : Port)
        (p1 p2 : Pose) :
  m114 d1 = Some p1 ->
  m114 d2 = Some p2 ->
  let w1 := snd (save_corner "corner1" (on_port d1 w)) in
  let w2 := snd (save_corner "corner2" (on_port d2 w1)) in
  is_calibrated (config (self w2)) = true
  /\ get_drawing_area (config (self w2))
     = Some (SVGPathParser.get_drawing_area p1 p2)
  /\ file w2 = Some (config (self w2))
  /\ port (config (self w2)) = port (config (self w))
  /\ resting_position (config (self w2)) = resting_position (config (self w)).
Proof.
  intros H1 H2. cbn zeta.
  rewrite (save_corner_ok "corner1" d1 p1 (on_port d1 w) eq_refl H1).
  cbn [snd]. cbn zeta.
  match goal with |- context [save_corner "corner2" ?w'] =>
    rewrite (save_corner_ok "corner2" d2 p2 w' eq_refl H2) end.
  cbn [snd self config file on_port port resting_position corners get_corners].
  assert (G1 : dict_get (dict_set (dict_set (get_corners (config (self w)))
                                            "corner1" p1) "corner2" p2)
                        "corner1" = Some p1).
  { rewrite dict_get_set_other by discriminate. apply dict_get_set_same. }
  assert (G2 : dict_get (dict_set (dict_set (get_corners (config (self w)))
                                            "corner1" p1) "corner2" p2)
                        "corner2" = Some p2) by apply dict_get_set_same.
  unfold get_drawing_area, is_calibrated, dict_has, get_corners. cbn [corners].
  unfold get_corners in G1, G2. rewrite G1, G2. cbn. repeat split.
Qed.

Lemma teaching_two_corners_calibrates_witness :
  let w := start None in
  let d1 := responsive (Some (mkPose 150 (-40) 0)) in
  let d2 := responsive (Some (mkPose 250 60 1)) in
  let w1 := snd (save_corner "corner1" (on_port d1 w)) in
  let w2 := snd (save_corner "corner2" (on_port d2 w1)) in
  is_calibrated (config (self w2)) = true
  /\ get_drawing_area (config (self w2))
     = Some (SVGPathParser.get_drawing_area (mkPose 150 (-40) 0)
                                            (mkPose 250 60 1))
  /\ file w2 = Some (config (self w2))
  /\ port (config (self w2)) = port (config (self w))
  /\ resting_position (config (self w2)) = resting_position (config (self w)).
Proof.
  apply (teaching_two_corners_calibrates (start None)
           (responsive (Some (mkPose 150 (-40) 0)))
           (responsive (Some (mkPose 250 60 1)))); reflexivity.
Defined.

(** [reset_calibration] always succeeds; afterwards the controller is
    not calibrated and has no drawing area, the port and the resting
    position are as before, nothing was sent to the arm, the file holds
    the configuration, and a second reset changes nothing more. *)
Theorem reset_calibration_clears (w : World) :
  let w' := snd (reset_calibration w) in
  fst (reset_calibration w) = Ok tt
  /\ is_calibrated (config (self w')) = false
  /\ get_drawing_area (config (self w')) = None
  /\ port (config (self w')) = port (config (self w))
  /\ resting_position (config (self w')) = resting_position (config (self w))
  /\ ctl (self w') = ctl (self w)
  /\ sent w' = sent w
  /\ file w' = Some (config (self w'))
  /\ snd (reset_calibration w') = w'.
Proof.
  destruct w as [[c [p cs r]] f s y]. destruct cs as [cs|]; cbn; repeat split.
Qed.

(** A [save_corner] or [save_resting_position] that raises has changed
    neither the controller, nor its configuration, nor the configuration
    file, and the error is either the missing connection or the position
    that could not be read.  (Of the port nothing is said: before the
    second error the driver has sent its M114 request.) *)
Theorem failed_save_changes_nothing (name : string) (w w' : World)
        (e : Error) :
  (save_corner name w = (Raise e, w')
   \/ save_resting_position w = (Raise e, w')) ->
  self w' = self w
  /\ file w' = file w
  /\ (e = Driver DexArmNotConnected \/ e = CouldNotReadPosition).
Proof.
  destruct w as [[c cfg] f s y].
  unfold save_corner, save_resting_position, and_then, connected, lift,
    Dexarm.get_position, ret.
  cbn. destruct (device c) as [d|]; cbn.
  - destruct (m114 d); cbn; intros [H|H]; inversion H; subst; cbn; auto.
  - intros [H|H]; inversion H; subst; cbn; auto.
Qed.

Lemma failed_save_changes_nothing_witness :
  self (on_port (responsive None) (start None))
  = self (on_port (responsive None) (start None))
  /\ file (on_port (responsive None) (start None))
     = file (on_port (responsive None) (start None))
  /\ (CouldNotReadPosition = Driver DexArmNotConnected
      \/ CouldNotReadPosition = CouldNotReadPosition).
Proof.
  apply (failed_save_changes_nothing "corner1"
           (on_port (responsive None) (start None))).
  left. reflexivity.
Defined.

(** ** Operations that leave part of the world alone *)

(** [m] relates every world to the world it leaves, whether it returns
    or raises. *)
Definition Keeps {A} (R : World -> World -> Prop) (m : Act A) : Prop :=
  forall w, R w (snd (m w)).

Section keeps.
Variable R : World -> World -> Prop.
Hypothesis R_refl : forall w, R w w.
Hypothesis R_trans : forall a b c, R a b -> R b c -> R a c.

Lemma keeps_pure {A} (a : A) : Keeps R (pure a).
Proof. intros w. apply R_refl. Qed.

Lemma keeps_throw {A} (e : Error) : Keeps R (@throw A e).
Proof. intros w. apply R_refl. Qed.

Lemma keeps_get_self : Keeps R get_self.
Proof. intros w. apply R_refl. Qed.

Lemma keeps_connected : Keeps R connected.
Proof.
  intros w. unfold connected. destruct (device _); apply R_refl.
Qed.

Lemma keeps_and_then {A B} (m : Act A) (k : A -> Act B) :
  Keeps R m -> (forall a, Keeps R (k a)) -> Keeps R (and_then m k).
Proof.
  intros Hm Hk w. unfold and_then. specialize (Hm w).
  destruct (m w) as [[a|e] w1]; cbn [snd] in *.
  - eapply R_trans; [exact Hm | apply Hk].
  - exact Hm.
Qed.

Lemma keeps_try_except {A} (m : Act A) (h : Error -> Act A) :
  Keeps R m -> (forall e, Keeps R (h e)) -> Keeps R (try_except m h).
Proof.
  intros Hm Hh w. unfold try_except. specialize (Hm w).
  destruct (m w) as [[a|e] w1]; cbn [snd] in *.
  - exact Hm.
  - eapply R_trans; [exact Hm | apply Hh].
Qed.
End keeps.

(** The controller object and the file are as before. *)
Definition same_state (w w' : World) : Prop :=
  self w' = self w /\ file w' = file w.

(** The connection is as before. *)
Definition same_ctl (w w' : World) : Prop :=
  ctl (self w') = ctl (self w).

Lemma same_state_refl w : same_state w w.
Proof. split; reflexivity. Qed.

Lemma same_state_trans a b c :
  same_state a b -> same_state b c -> same_state a c.
Proof. intros [? ?] [? ?]. split; congruence. Qed.

Lemma same_ctl_refl w : same_ctl w w.
Proof. reflexivity. Qed.

Lemma same_ctl_trans a b c : same_ctl a b -> same_ctl b c -> same_ctl a c.
Proof. unfold same_ctl. congruence. Qed.

Lemma same_state_ctl w w' : same_state w w' -> same_ctl w w'.
Proof. intros [H _]. unfold same_ctl. rewrite H. reflexivity. Qed.

Lemma keeps_lift {A} (m : M A) : Keeps same_state (lift m).
Proof.
  intros w. unfold lift. destruct (m (sent w)) as [[a|e] l]; split; reflexivity.
Qed.

Lemma keeps_yield message : Keeps same_state (yield message).
Proof. intros w. split; reflexivity. Qed.

Ltac keeps_state :=
  repeat first
    [ apply (keeps_and_then same_state same_state_trans); [|intros ?]
    | apply (keeps_try_except same_state same_state_trans); [|intros ?]
    | apply (keeps_pure same_state same_state_refl)
    | apply (keeps_throw same_state same_state_refl)
    | apply (keeps_get_self same_state same_state_refl)
    | apply (keeps_connected same_state same_state_refl)
    | apply keeps_lift
    | apply keeps_yield ].

Lemma keeps_go_to_resting_position : Keeps same_state go_to_resting_position.
Proof. unfold go_to_resting_position. keeps_state. Qed.

Lemma keeps_lock_motors : Keeps same_state lock_motors.
Proof. unfold lock_motors. keeps_state. Qed.

Lemma keeps_rest_if_requested b : Keeps same_state (rest_if_requested b).
Proof.
  unfold rest_if_requested. keeps_state.
  destruct b; [|keeps_state].
  destruct (get_resting_position _); keeps_state.
Qed.

Lemma keeps_test_draw_frame : Keeps same_state test_draw_frame.
Proof.
  unfold test_draw_frame. keeps_state.
  destruct (negb _); [keeps_state|].
  destruct (get_drawing_area _) as [area|]; [|keeps_state].
  destruct (dict_get _ "corner1"); [|keeps_state].
  destruct (dict_get _ "corner2"); [|keeps_state].
  destruct (SVGPathParser.z_draw area); [|keeps_state].
  keeps_state.
Qed.

(** The calls that only talk to the arm leave the controller object and
    the file as they are. *)
Lemma device_calls_keep_state (env : Env) (c : Call) (w : World) :
  match c with
  | Connect _ _ | Disconnect | SaveCorner _ | SaveRestingPosition
  | ResetCalibration => True
  | _ => same_state w (after env c w)
  end.
Proof.
  destruct c as [po mr| |t|mx my mz mf|sx sy sz sf scz| | | |nm| | | |];
    try exact I; cbn [after]; revert w.
  - change (Keeps same_state (home t)). unfold home. keeps_state.
  - change (Keeps same_state (move_to mx my mz mf)). unfold move_to.
    keeps_state.
  - change (Keeps same_state (move_to_safe sx sy sz sf scz)).
    unfold move_to_safe. keeps_state.
  - change (Keeps same_state get_position). unfold get_position. keeps_state.
  - change (Keeps same_state unlock_motors). unfold unlock_motors.
    keeps_state.
  - apply keeps_lock_motors.
  - apply keeps_go_to_resting_position.
  - apply keeps_test_draw_frame.
Qed.

(** ** Connecting *)

Lemma and_then_get_self {A} (k : Self -> Act A) (w : World) :
  (me <-- get_self ;; k me) w = k (self w) w.
Proof. reflexivity. Qed.

Lemma try_except_pure (m : Act unit) (w : World) :
  try_except m (fun _ => pure tt) w = (Ok tt, snd (m w)).
Proof.
  unfold try_except. destruct (m w) as [[[]|e] w1]; reflexivity.
Qed.

Lemma rest_if_requested_returns (b : bool) (w : World) :
  exists w', rest_if_requested b w = (Ok tt, w') /\ same_state w w'.
Proof.
  pose proof (keeps_rest_if_requested b w) as Hk. revert Hk.
  unfold rest_if_requested. rewrite and_then_get_self.
  destruct b; [|eexists; split; [reflexivity | apply same_state_refl]].
  destruct (get_resting_position (config (self w)));
    [|eexists; split; [reflexivity | apply same_state_refl]].
  rewrite try_except_pure. cbn [snd]. intros Hk.
  eexists. split; [reflexivity | exact Hk].
Qed.

Lemma connect_cases (env : Env) (port : option string)
      (move_to_rest : bool) (w : World) :
  exists b w',
    connect env port move_to_rest w = (Ok b, w')
    /\ (if b then device (ctl (self w')) <> None
        else is_connected (ctl (self w')) = false)
    /\ connected_has_port w'
    /\ (in_sync w -> in_sync w').
Proof.
  destruct w as [[c cfg] f s y].
  unfold connect, try_except. unfold and_then at 1. unfold get_self at 1.
  cbn [self ctl config].
  destruct ((match device c with Some _ => true | None => false end)
            && option_string_eqb port (Calibration.port cfg)) eqn:Esame.
  - (* already connected to the same port *)
    apply andb_true_iff in Esame. destruct Esame as [Hdev _].
    destruct (device c) as [d|] eqn:Hd; [|discriminate].
    unfold and_then.
    destruct (rest_if_requested_returns move_to_rest
                (mkWorld (mkSelf c cfg) f s y)) as (w' & -> & Hs & Hf).
    cbn [self file] in Hs, Hf.
    exists true, w'. unfold pure. split; [reflexivity|].
    unfold connected_has_port, in_sync. rewrite Hs, Hf. cbn [ctl self config].
    split; [rewrite Hd; discriminate|]. split; [|auto].
    intros _. unfold device in Hd.
    destruct (is_connected c); [rewrite Hd; discriminate | discriminate].
  - (* a new connection *)
    clear Esame. unfold and_then at 1.
    set (c0 := if is_connected c then mkController false None else c).
    assert (Hc0 : is_connected c0 = false).
    { subst c0. destruct (is_connected c) eqn:E; [reflexivity | exact E]. }
    assert (Hfirst :
      (if is_connected c then disconnect else pure tt)
        (mkWorld (mkSelf c cfg) f s y)
      = (Ok tt, mkWorld (mkSelf c0 cfg) f s y)).
    { subst c0. destruct (is_connected c); reflexivity. }
    rewrite Hfirst. unfold and_then at 1. unfold get_self at 1.
    cbn [self ctl config].
    destruct (match port with
              | Some p => Some p
              | None => or_port (Calibration.port cfg) (find_dexarm_port env)
              end) as [p|].
    + destruct (open_serial env p) as [d|].
      * unfold and_then at 1. unfold set_ctl at 1.
        cbn [self ctl config file sent yielded].
        unfold and_then at 1. unfold lift at 1. cbn [sent self file yielded].
        destruct (set_absolute_positioning d s) as [[[]|e] l].
        -- unfold and_then at 1. unfold set_ctl at 1.
           cbn [self ctl config file sent yielded].
           unfold and_then at 1. unfold set_config at 1.
           cbn [self ctl config file sent yielded].
           unfold and_then at 1. unfold save_config at 1.
           cbn [self ctl config file sent yielded].
           unfold and_then.
           match goal with |- context [rest_if_requested move_to_rest ?w0] =>
             destruct (rest_if_requested_returns move_to_rest w0)
               as (w' & -> & Hs & Hf) end.
           cbn [self file] in Hs, Hf.
           exists true, w'. unfold pure. split; [reflexivity|].
           unfold connected_has_port, in_sync. rewrite Hs, Hf.
           cbn [ctl self config device is_connected _dexarm load_config].
           split; [discriminate|]. split; [intros _; discriminate|].
           intros _. reflexivity.
        -- unfold and_then, get_self, set_ctl, pure.
           cbn [self ctl config file sent yielded _dexarm].
           exists false. eexists. split; [reflexivity|].
           cbn [ctl self is_connected]. split; [reflexivity|].
           split; [intros H; discriminate | auto].
      * unfold throw, and_then, get_self, set_ctl, pure.
        cbn [self ctl config file sent yielded _dexarm].
        exists false. eexists. split; [reflexivity|].
        cbn [ctl self is_connected]. split; [reflexivity|].
        split; [intros H; discriminate | auto].
    + unfold pure. exists false. eexists. split; [reflexivity|].
      cbn [ctl self]. split; [exact Hc0|].
      split; [unfold connected_has_port; cbn [ctl self]; congruence | auto].
Qed.

(** What [connect] leaves behind.  It never raises.  When it answers
    [False] the controller is not connected, so that every device
    operation is refused afterwards; when it answers [True] the
    controller is connected and has a port.  In both cases a controller
    that says it is connected has a port, and a configuration that
    agreed with the file still does. *)
Theorem connect_outcome (env : Env) (port : option string)
        (move_to_rest : bool) (w : World) :
  exists b w',
    connect env port move_to_rest w = (Ok b, w')
    /\ (if b then device (ctl (self w')) <> None
        else is_connected (ctl (self w')) = false)
    /\ connected_has_port w'
    /\ (in_sync w -> in_sync w').
Proof. apply connect_cases. Qed.

(** ** Invariants of the controller *)

Lemma saves_keep_invariants (w : World) :
  in_sync w -> connected_has_port w ->
  (forall name, in_sync (snd (save_corner name w))
                /\ connected_has_port (snd (save_corner name w)))
  /\ (in_sync (snd (save_resting_position w))
      /\ connected_has_port (snd (save_resting_position w)))
  /\ (in_sync (snd (reset_calibration w))
      /\ connected_has_port (snd (reset_calibration w))).
Proof.
  destruct w as [[c cfg] f s y]. unfold in_sync, connected_has_port.
  cbn [self config file ctl]. intros Hs Hc.
  unfold save_corner, save_resting_position, reset_calibration, and_then,
    connected, lift, Dexarm.get_position, ret, get_self, set_config,
    save_config, pure, throw.
  cbn [self config file ctl sent yielded].
  split; [intros name|split].
  - destruct (device c) as [d|]; cbn; [|auto].
    destruct (m114 d); cbn; auto.
  - destruct (device c) as [d|]; cbn; [|auto].
    destruct (m114 d); cbn; auto.
  - destruct (corners cfg); cbn; auto.
Qed.

Lemma after_keeps_invariants (env : Env) (c : Call) (w : World) :
  in_sync w /\ connected_has_port w ->
  in_sync (after env c w) /\ connected_has_port (after env c w).
Proof.
  intros [Hs Hc].
  pose proof (device_calls_keep_state env c w) as Hk.
  destruct (saves_keep_invariants w Hs Hc) as (Hcorner & Hrest & Hreset).
  assert (Hsame : same_state w (after env c w) ->
                  in_sync (after env c w)
                  /\ connected_has_port (after env c w)).
  { intros [E1 E2]. unfold in_sync, connected_has_port in *.
    rewrite E1, E2. split; assumption. }
  destruct c as [po mr| |t|mx my mz mf|sx sy sz sf scz| | | |nm| | | |];
    try (apply Hsame; exact Hk); cbn [after].
  - destruct (connect_cases env po mr w) as (b & w' & -> & _ & Hp & Hi).
    cbn [snd]. split; [apply Hi, Hs | exact Hp].
  - unfold disconnect, set_ctl, in_sync, connected_has_port in *.
    cbn. split; [exact Hs | discriminate].
  - apply Hcorner.
  - exact Hrest.
  - exact Hreset.
Qed.

(** Whatever the program calls, in whatever order and whether the calls
    return or raise: the configuration held by the controller is always
    the one the configuration file holds (a restart loses nothing), and
    a controller that says it is connected always has a port. *)
Theorem controller_invariants (env : Env) (file : option Config)
        (calls : list Call) :
  in_sync (after_all env calls (start file))
  /\ connected_has_port (after_all env calls (start file)).
Proof.
  unfold after_all.
  assert (H0 : in_sync (start file) /\ connected_has_port (start file)).
  { split; [reflexivity | intros H; discriminate]. }
  revert H0. generalize (start file).
  induction calls as [|c calls IH]; intros w Hw; [exact Hw|].
  cbn [fold_left]. apply IH, after_keeps_invariants, Hw.
Qed.

(** ** The guard on the connection *)

(** Without a connection every operation on the arm is refused with
    "DexArm not connected": nothing is written to any port, and neither
    the configuration nor the file changes. *)
Theorem without_connection_all_is_refused (w : World) :
  device (ctl (self w)) = None ->
  let refused {A} (m : Act A) := m w = (Raise (Driver DexArmNotConnected), w) in
  (forall t, refused (home t))
  /\ (forall x y z f, refused (move_to x y z f))
  /\ (forall x y z f cz, refused (move_to_safe x y z f cz))
  /\ refused get_position
  /\ refused unlock_motors
  /\ refused lock_motors
  /\ (forall name, refused (save_corner name))
  /\ refused save_resting_position
  /\ refused go_to_resting_position
  /\ refused test_draw_frame.
Proof.
  destruct w as [[c cfg] f s y]. cbn [self ctl]. intros Hd. cbn zeta.
  unfold home, move_to, move_to_safe, get_position, unlock_motors,
    lock_motors, save_corner, save_resting_position, go_to_resting_position,
    test_draw_frame, and_then, get_self, connected, lift,
    DexArmController.home, DexArmController.move_to_safe,
    DexArmController.get_position, raise.
  cbn [self ctl sent file yielded]. rewrite Hd.
  repeat split.
Qed.

Lemma without_connection_all_is_refused_witness :
  let w := start None in
  let refused {A} (m : Act A) := m w = (Raise (Driver DexArmNotConnected), w) in
  (forall t, refused (home t))
  /\ (forall x y z f, refused (move_to x y z f))
  /\ (forall x y z f cz, refused (move_to_safe x y z f cz))
  /\ refused get_position
  /\ refused unlock_motors
  /\ refused lock_motors
  /\ (forall name, refused (save_corner name))
  /\ refused save_resting_position
  /\ refused go_to_resting_position
  /\ refused test_draw_frame.
Proof.
  apply (without_connection_all_is_refused (start None)). reflexivity.
Defined.

(** ** The resting position *)

(** A port that is open, takes every write and never loses the link. *)
Definition dependable (d : Port) : Prop :=
  is_open d = true
  /\ forall c t, write d c = Written
                 /\ existsb link_lost (polls d c t) = false.

Lemma dependable_send d c wait t log :
  dependable d -> exists r, send_gcode d c wait t log = (Ok r, log ++ [c]).
Proof.
  intros [Ho Hw]. destruct (Hw c t) as [Hwr Hl].
  unfold send_gcode. rewrite Ho, Hwr. cbn [negb]. unfold bind, emit.
  destruct wait; [|eexists; reflexivity].
  rewrite (DriverFacts.wait_for_ok_received _ [] Hl). eexists. reflexivity.
Qed.

Definition wrote (w : World) (commands : Sent) : World :=
  mkWorld (self w) (file w) (sent w ++ commands) (yielded w).

Lemma lift_fast_move_to d x y z f w :
  dependable d ->
  lift (fast_move_to d x y z f) w = (Ok tt, wrote w [G0 x y z f]).
Proof.
  intros Hd. unfold lift, fast_move_to, bind.
  destruct (dependable_send d (G0 x y z f) true 10 (sent w) Hd) as [r ->].
  reflexivity.
Qed.

Lemma lift_move_to d x y z f w :
  dependable d ->
  lift (Dexarm.move_to d x y z f) w = (Ok tt, wrote w [G1 x y z f]).
Proof.
  intros Hd. unfold lift, Dexarm.move_to, bind.
  destruct (dependable_send d (G1 x y z f) true 10 (sent w) Hd) as [r ->].
  reflexivity.
Qed.

(** Where the arm rests. *)
Definition resting_place (c : Config) : Pose :=
  match get_resting_position c with
  | Some p => p
  | None => default_resting_position
  end.

Lemma go_to_resting_position_writes d w :
  device (ctl (self w)) = Some d -> dependable d ->
  go_to_resting_position w
  = (Ok tt, wrote w [G0 (px (resting_place (config (self w))))
                        (py (resting_place (config (self w))))
                        (pz (resting_place (config (self w)))) 3000]).
Proof.
  intros Hd Hdep. unfold go_to_resting_position, and_then, connected.
  rewrite Hd. unfold get_self. cbn [self]. apply lift_fast_move_to, Hdep.
Qed.

(** The resting position round trip: once the pose read from the arm has
    been saved, [go_to_resting_position] sends the arm back to exactly
    that pose, with one rapid move at feedrate 3000, and resetting the
    calibration in between does not lose it.  While no resting position
    has ever been saved, the arm is sent to (200, 0, 50). *)
Theorem resting_position_round_trip (w : World) (d : Port) (p : Pose) :
  device (ctl (self w)) = Some d ->
  dependable d ->
  m114 d = Some p ->
  let w1 := snd (reset_calibration (snd (save_resting_position w))) in
  go_to_resting_position w1
  = (Ok tt, wrote w1 [G0 (px p) (py p) (pz p) 3000])
  /\ (get_resting_position (config (self w)) = None ->
      go_to_resting_position w = (Ok tt, wrote w [G0 200 0 50 3000])).
Proof.
  intros Hd Hdep Hp. cbn zeta. split.
  - assert (Hw1 : device (ctl (self (snd (reset_calibration
                                           (snd (save_resting_position w))))))
                  = Some d
                  /\ resting_place (config (self (snd (reset_calibration
                                           (snd (save_resting_position w))))))
                     = p).
    { destruct w as [[c [po cs r]] f s y]. cbn [self ctl] in Hd.
      unfold save_resting_position, reset_calibration, and_then, connected,
        lift, Dexarm.get_position, ret, get_self, set_config, save_config,
        pure.
      cbn [self ctl config sent file yielded]. rewrite Hd. cbn. rewrite Hp.
      cbn. destruct cs; cbn; auto. }
    destruct Hw1 as [Hd1 Hr1].
    rewrite (go_to_resting_position_writes d _ Hd1 Hdep), Hr1. reflexivity.
  - intros Hnone. rewrite (go_to_resting_position_writes d _ Hd Hdep).
    unfold resting_place. rewrite Hnone. reflexivity.
Qed.

Lemma responsive_is_dependable (position : option Pose) :
  dependable (responsive position).
Proof. split; [reflexivity|]. intros c t. split; reflexivity. Qed.

Lemma resting_position_round_trip_witness :
  let w := on_port (responsive (Some (mkPose 180 20 40))) (start None) in
  let w1 := snd (reset_calibration (snd (save_resting_position w))) in
  go_to_resting_position w1 = (Ok tt, wrote w1 [G0 180 20 40 3000])
  /\ (get_resting_position (config (self w)) = None ->
      go_to_resting_position w = (Ok tt, wrote w [G0 200 0 50 3000])).
Proof.
  apply (resting_position_round_trip
           (on_port (responsive (Some (mkPose 180 20 40))) (start None))
           (responsive (Some (mkPose 180 20 40))) (mkPose 180 20 40)).
  - reflexivity.
  - apply responsive_is_dependable.
  - reflexivity.
Defined.

(** ** The test frame *)

(** The moves of the frame between the two visits of the resting place,
    for the corners [c1] and [c2]. *)
Definition frame_moves (c1 c2 : Pose) : Sent :=
  let zd := pz c1 in
  let zu := pz c1 + 20 in
  [ G0 (px c1) (py c1) zu 3000; G1 (px c1) (py c1) zd 2000;
    G1 (px c2) (py c1) zd 2000;
    G1 (px c2) (py c2) zd 2000;
    G1 (px c1) (py c2) zd 2000;
    G1 (px c1) (py c1) zd 2000;
    G1 (px c2) (py c2) zd 2000; G1 (px c2) (py c2) zu 2000;
    G0 (px c2) (py c1) zu 3000; G1 (px c2) (py c1) zd 2000;
    G1 (px c1) (py c2) zd 2000; G1 (px c1) (py c2) zu 2000 ].

Definition frame_messages : list string :=
  [ "Moving from rest position..."; "Moving to Corner 1...";
    "Drawing to Corner 3..."; "Drawing to Corner 2...";
    "Drawing to Corner 4..."; "Closing rectangle (back to Corner 1)...";
    "Drawing X (diagonal 1: C1 to C2)..."; "Drawing X (diagonal 2: C3 to C4)...";
    "Returning to resting position..."; "Test draw complete!" ]%string.

(** The segments of a log travelled with the pen on the paper: both ends
    at the drawing height. *)
Definition pen_down_strokes (z_draw : Q) (start : Pose) (log : Sent)
  : list (Pose * Pose) :=
  filter (fun seg => Qeq_bool (pz (fst seg)) z_draw
                     && Qeq_bool (pz (snd seg)) z_draw)
         (segments start log).

Lemma step_yield {A} message (k : Act A) me f log ys :
  (yield message >> k) (mkWorld me f log ys)
  = k (mkWorld me f log (ys ++ [message])).
Proof. reflexivity. Qed.

Lemma step_fast_move_to {A} d x y z fr (k : Act A) me f log ys :
  dependable d ->
  (lift (fast_move_to d x y z fr) >> k) (mkWorld me f log ys)
  = k (mkWorld me f (log ++ [G0 x y z fr]) ys).
Proof.
  intros Hd. unfold and_then. rewrite lift_fast_move_to by exact Hd.
  reflexivity.
Qed.

Lemma step_move_to {A} d x y z fr (k : Act A) me f log ys :
  dependable d ->
  (lift (Dexarm.move_to d x y z fr) >> k) (mkWorld me f log ys)
  = k (mkWorld me f (log ++ [G1 x y z fr]) ys).
Proof.
  intros Hd. unfold and_then. rewrite lift_move_to by exact Hd. reflexivity.
Qed.

Lemma step_go_to_resting_position {A} d (k : Act A) c cfg f log ys :
  device c = Some d -> dependable d ->
  (go_to_resting_position >> k) (mkWorld (mkSelf c cfg) f log ys)
  = k (mkWorld (mkSelf c cfg) f
               (log ++ [G0 (px (resting_place cfg)) (py (resting_place cfg))
                           (pz (resting_place cfg)) 3000])
               ys).
Proof.
  intros Hd Hdep. unfold and_then at 1.
  rewrite (go_to_resting_position_writes d
             (mkWorld (mkSelf c cfg) f log ys) Hd Hdep).
  reflexivity.
Qed.

Lemma frame_runs (w : World) (d : Port) (c1 c2 : Pose) :
  device (ctl (self w)) = Some d ->
  dependable d ->
  dict_get (get_corners (config (self w))) "corner1" = Some c1 ->
  dict_get (get_corners (config (self w))) "corner2" = Some c2 ->
  let rest := resting_place (config (self w)) in
  test_draw_frame w
  = (Ok tt,
     mkWorld (self w) (file w)
             (sent w ++ [G0 (px rest) (py rest) (pz rest) 3000]
                     ++ frame_moves c1 c2
                     ++ [G0 (px rest) (py rest) (pz rest) 3000])
             (yielded w ++ frame_messages)).
Proof.
  intros Hd Hdep H1 H2. cbn zeta.
  destruct w as [[c cfg] f s y]. cbn [self ctl config file sent yielded] in *.
  unfold test_draw_frame. unfold and_then at 1. unfold connected at 1.
  cbn [self ctl]. rewrite Hd. rewrite and_then_get_self. cbn [self config].
  unfold is_calibrated, get_drawing_area, is_calibrated, dict_has.
  rewrite H1, H2. cbn [andb negb]. cbn [SVGPathParser.get_drawing_area
    SVGPathParser.z_draw].
  unfold try_except.
  rewrite step_yield.
  rewrite (step_go_to_resting_position d) by (try exact Hdep; exact Hd).
  rewrite step_yield.
  rewrite step_fast_move_to by exact Hdep.
  rewrite step_move_to by exact Hdep.
  rewrite step_yield. rewrite step_move_to by exact Hdep.
  rewrite step_yield. rewrite step_move_to by exact Hdep.
  rewrite step_yield. rewrite step_move_to by exact Hdep.
  rewrite step_yield. rewrite step_move_to by exact Hdep.
  rewrite step_yield. rewrite step_move_to by exact Hdep.
  rewrite step_move_to by exact Hdep.
  rewrite step_yield. rewrite step_fast_move_to by exact Hdep.
  rewrite step_move_to by exact Hdep.
  rewrite step_move_to by exact Hdep.
  rewrite step_move_to by exact Hdep.
  rewrite step_yield.
  rewrite (step_go_to_resting_position d) by (try exact Hdep; exact Hd).
  unfold yield. cbn [self ctl config file sent yielded px py pz].
  unfold frame_moves, frame_messages.
  repeat rewrite <- app_assoc. reflexivity.
Qed.

Lemma Qeq_bool_same (a : Q) : Qeq_bool a a = true.
Proof. apply Qeq_bool_iff. reflexivity. Qed.

Lemma Qeq_bool_lifted (a : Q) : Qeq_bool (a + 20) a = false.
Proof.
  destruct (Qeq_bool (a + 20) a) eqn:E; [|reflexivity].
  apply Qeq_bool_iff in E. lra.
Qed.

Lemma Qeq_bool_lowered (a : Q) : Qeq_bool a (a + 20) = false.
Proof.
  destruct (Qeq_bool a (a + 20)) eqn:E; [|reflexivity].
  apply Qeq_bool_iff in E. lra.
Qed.

(** The test frame, on a calibrated controller whose port answers: it
    completes; it visits the resting place first and last; in between,
    every move goes to a point of the taught rectangle, at the drawing
    height (the Z of corner 1) or 20 above it; and the strokes made with
    the pen down are exactly the four sides of the rectangle and its two
    diagonals.  The configuration and the file are left alone. *)
Theorem test_frame_draws_rectangle_and_diagonals (w : World) (d : Port)
        (c1 c2 : Pose) :
  device (ctl (self w)) = Some d ->
  dependable d ->
  dict_get (get_corners (config (self w))) "corner1" = Some c1 ->
  dict_get (get_corners (config (self w))) "corner2" = Some c2 ->
  let rest := resting_place (config (self w)) in
  let to_rest := G0 (px rest) (py rest) (pz rest) 3000 in
  let area := SVGPathParser.get_drawing_area c1 c2 in
  let zd := pz c1 in
  let C1 := mkPose (px c1) (py c1) zd in
  let C2 := mkPose (px c2) (py c2) zd in
  let C3 := mkPose (px c2) (py c1) zd in
  let C4 := mkPose (px c1) (py c2) zd in
  exists frame w',
    test_draw_frame w = (Ok tt, w')
    /\ sent w' = sent w ++ [to_rest] ++ frame ++ [to_rest]
    /\ self w' = self w /\ file w' = file w
    /\ Forall (fun g => exists p,
                  target_of g = Some p
                  /\ SVGPathParser._is_in_bounds (px p) (py p) area = true
                  /\ (pz p = zd \/ pz p = zd + 20)) frame
    /\ pen_down_strokes zd rest frame
       = [(C1, C3); (C3, C2); (C2, C4); (C4, C1); (C1, C2); (C3, C4)].
Proof.
  intros Hd Hdep H1 H2. cbn zeta.
  exists (frame_moves c1 c2). eexists.
  split; [apply (frame_runs w d c1 c2 Hd Hdep H1 H2)|].
  cbn [sent self file]. split; [reflexivity|]. split; [reflexivity|].
  split; [reflexivity|]. split.
  - destruct (GeneratorMore.drawing_area_is_normalized c1 c2)
      as (_ & _ & _ & _ & _ & _ & Hin1 & Hin2).
    assert (Hin3 : SVGPathParser._is_in_bounds (px c2) (py c1)
                     (SVGPathParser.get_drawing_area c1 c2) = true).
    { unfold SVGPathParser._is_in_bounds in *.
      apply andb_true_iff in Hin1, Hin2. destruct Hin1 as [X1 Y1].
      destruct Hin2 as [X2 Y2]. rewrite X2, Y1. reflexivity. }
    assert (Hin4 : SVGPathParser._is_in_bounds (px c1) (py c2)
                     (SVGPathParser.get_drawing_area c1 c2) = true).
    { unfold SVGPathParser._is_in_bounds in *.
      apply andb_true_iff in Hin1, Hin2. destruct Hin1 as [X1 Y1].
      destruct Hin2 as [X2 Y2]. rewrite X1, Y2. reflexivity. }
    unfold frame_moves.
    repeat (constructor;
            [eexists; split; [reflexivity|]; cbn [px py pz];
             split; [assumption | auto]|]).
    constructor.
  - unfold pen_down_strokes, frame_moves.
    remember (pz c1) as zd eqn:Ez.
    cbn [segments target_of filter fst snd pz].
    rewrite !Qeq_bool_same, !Qeq_bool_lifted, ?Qeq_bool_lowered.
    rewrite ?andb_false_r. cbn [andb]. reflexivity.
Qed.

(** A calibrated controller on a port [d], for the examples. *)
Definition taught (d : Port) : World :=
  mkWorld (mkSelf (mkController true (Some d))
                  (mkConfig None
                            (Some [("corner1"%string, mkPose 150 (-40) 0);
                                   ("corner2"%string, mkPose 250 60 1)])
                            None))
          None [] [].

Lemma test_frame_draws_rectangle_and_diagonals_witness :
  let w := taught (responsive None) in
  let c1 := mkPose 150 (-40) 0 in
  let c2 := mkPose 250 60 1 in
  let rest := resting_place (config (self w)) in
  let to_rest := G0 (px rest) (py rest) (pz rest) 3000 in
  let area := SVGPathParser.get_drawing_area c1 c2 in
  let zd := pz c1 in
  let C1 := mkPose (px c1) (py c1) zd in
  let C2 := mkPose (px c2) (py c2) zd in
  let C3 := mkPose (px c2) (py c1) zd in
  let C4 := mkPose (px c1) (py c2) zd in
  exists frame w',
    test_draw_frame w = (Ok tt, w')
    /\ sent w' = sent w ++ [to_rest] ++ frame ++ [to_rest]
    /\ self w' = self w /\ file w' = file w
    /\ Forall (fun g => exists p,
                  target_of g = Some p
                  /\ SVGPathParser._is_in_bounds (px p) (py p) area = true
                  /\ (pz p = zd \/ pz p = zd + 20)) frame
    /\ pen_down_strokes zd rest frame
       = [(C1, C3); (C3, C2); (C2, C4); (C4, C1); (C1, C2); (C3, C4)].
Proof.
  apply (test_frame_draws_rectangle_and_diagonals
           (taught (responsive None)) (responsive None)
           (mkPose 150 (-40) 0) (mkPose 250 60 1)).
  - reflexivity.
  - apply responsive_is_dependable.
  - reflexivity.
  - reflexivity.
Defined.

Lemma try_except_rethrow {A} (m : Act A) (h : Error -> Error) w e w' :
  try_except m (fun e => throw (h e)) w = (Raise e, w') ->
  exists cause, e = h cause.
Proof.
  unfold try_except, throw. destruct (m w) as [[a|e0] w1]; intros H;
    inversion H. eauto.
Qed.

(** Whatever goes wrong in the test frame, the caller sees a
    [RuntimeError]: a failure after the two guards is wrapped in "Test
    draw failed", so that even a write timeout or a lost connection
    never surfaces as [TimeoutError] or [ConnectionError]. *)
Theorem test_frame_raises_only_runtime_errors (w w' : World) (e : Error) :
  test_draw_frame w = (Raise e, w') ->
  error_class e = RuntimeError
  /\ (e = Driver DexArmNotConnected \/ e = NotCalibrated
      \/ exists cause, e = TestDrawFailed cause).
Proof.
  unfold test_draw_frame. unfold and_then at 1. unfold connected at 1.
  destruct (device (ctl (self w))) as [d|].
  - rewrite and_then_get_self.
    assert (Hnc : forall w0 : World,
               @throw unit NotCalibrated w0 = (Raise e, w') ->
               error_class e = RuntimeError
               /\ (e = Driver DexArmNotConnected \/ e = NotCalibrated
                   \/ exists cause, e = TestDrawFailed cause)).
    { unfold throw. intros w0 H. inversion H. subst. auto. }
    destruct (negb _); [apply Hnc|].
    destruct (get_drawing_area _) as [area|]; [|apply Hnc].
    destruct (dict_get _ "corner1"); [|apply Hnc].
    destruct (dict_get _ "corner2"); [|apply Hnc].
    destruct (SVGPathParser.z_draw area); [|apply Hnc].
    intros H. apply try_except_rethrow in H. destruct H as [cause ->].
    split; [reflexivity|]. right. right. eauto.
  - intros H. inversion H. subst. auto.
Qed.

(** A port whose writes time out. *)
Definition jammed : Port :=
  mkPort true (fun _ => SerialTimeoutException) (fun _ _ => []) None.

Lemma test_frame_raises_only_runtime_errors_witness :
  error_class (TestDrawFailed (Driver (WriteTimeout (G0 200 0 50 3000))))
  = RuntimeError
  /\ (TestDrawFailed (Driver (WriteTimeout (G0 200 0 50 3000)))
      = Driver DexArmNotConnected
      \/ TestDrawFailed (Driver (WriteTimeout (G0 200 0 50 3000)))
         = NotCalibrated
      \/ exists cause,
          TestDrawFailed (Driver (WriteTimeout (G0 200 0 50 3000)))
          = TestDrawFailed cause).
Proof.
  apply (test_frame_raises_only_runtime_errors (taught jammed)
           (mkWorld (self (taught jammed)) None []
                    ["Moving from rest position..."%string])).
  reflexivity.
Defined.

(** ** A new connection *)

(** The log only grows. *)
Definition extends (w w' : World) : Prop :=
  exists more, sent w' = sent w ++ more.

Lemma extends_refl w : extends w w.
Proof. exists []. rewrite app_nil_r. reflexivity. Qed.

Lemma extends_trans a b c : extends a b -> extends b c -> extends a c.
Proof.
  intros [m1 H1] [m2 H2]. exists (m1 ++ m2).
  rewrite H2, H1, app_assoc. reflexivity.
Qed.

Lemma send_gcode_grows d c wait t log :
  exists more, snd (send_gcode d c wait t log) = log ++ more.
Proof.
  unfold send_gcode. destruct (is_open d); cbn [negb]; unfold raise.
  - destruct (write d c); cbn [snd];
      try (exists []; rewrite app_nil_r; reflexivity).
    unfold bind, emit. exists [c].
    destruct wait; [destruct (wait_for_ok _ _)|]; reflexivity.
  - exists []. rewrite app_nil_r. reflexivity.
Qed.

Lemma keeps_lift_send d c wait t :
  Keeps extends (lift (_ <- send_gcode d c wait t ;; ret tt)%py).
Proof.
  intros w. unfold lift, bind.
  destruct (send_gcode_grows d c wait t (sent w)) as [more Hm].
  destruct (send_gcode d c wait t (sent w)) as [[r|e] l]; cbn [snd] in *;
    exists more; exact Hm.
Qed.

Lemma keeps_rest_extends b : Keeps extends (rest_if_requested b).
Proof.
  unfold rest_if_requested.
  apply (keeps_and_then extends extends_trans);
    [apply (keeps_get_self extends extends_refl)|intros me].
  destruct b; [|apply (keeps_pure extends extends_refl)].
  destruct (get_resting_position _);
    [|apply (keeps_pure extends extends_refl)].
  apply (keeps_try_except extends extends_trans);
    [|intros ?; apply (keeps_pure extends extends_refl)].
  apply (keeps_and_then extends extends_trans).
  - unfold lock_motors.
    apply (keeps_and_then extends extends_trans);
      [apply (keeps_connected extends extends_refl)|intros d].
    apply keeps_lift_send.
  - intros _. unfold go_to_resting_position.
    apply (keeps_and_then extends extends_trans);
      [apply (keeps_connected extends extends_refl)|intros d].
    apply (keeps_and_then extends extends_trans);
      [apply (keeps_get_self extends extends_refl)|intros me'].
    apply keeps_lift_send.
Qed.

Lemma set_absolute_positioning_written d log log' :
  set_absolute_positioning d log = (Ok tt, log') -> log' = log ++ [G90].
Proof.
  unfold set_absolute_positioning, bind, send_gcode.
  destruct (is_open d); cbn; [|discriminate].
  destruct (write d G90); cbn; try discriminate.
  unfold bind, emit.
  destruct (wait_for_ok _ _); cbn; intros H; inversion H; reflexivity.
Qed.

(** A connection made from the disconnected state.  When [connect]
    answers [True], the port is the one asked for (or, when none was
    asked for, the saved one or else the detected one); the first thing
    written to it is G90, absolute positioning, before any move; the
    port name is saved in the configuration and in the file; and the
    calibration and the resting position are kept. *)
Theorem new_connection_sets_absolute_mode (env : Env)
        (port : option string) (move_to_rest : bool) (w w' : World) :
  is_connected (ctl (self w)) = false ->
  connect env port move_to_rest w = (Ok true, w') ->
  exists p d more,
    match port with
    | Some q => p = q
    | None => or_port (Calibration.port (config (self w)))
                      (find_dexarm_port env) = Some p
    end
    /\ open_serial env p = Some d
    /\ ctl (self w') = mkController true (Some d)
    /\ config (self w')
       = mkConfig (Some p) (corners (config (self w)))
                  (resting_position (config (self w)))
    /\ file w' = Some (config (self w'))
    /\ sent w' = sent w ++ G90 :: more.
Proof.
  destruct w as [[c cfg] f s y]. cbn [self ctl config sent]. intros Hc.
  unfold connect, try_except. unfold and_then at 1. unfold get_self at 1.
  cbn [self ctl config].
  assert (Hdev : device c = None) by (unfold device; rewrite Hc; reflexivity).
  rewrite Hdev. cbn [andb]. rewrite Hc.
  unfold and_then at 1. unfold pure at 1.
  unfold and_then at 1. unfold get_self at 1. cbn [self ctl config].
  destruct (match port with
            | Some p => Some p
            | None => or_port (Calibration.port cfg) (find_dexarm_port env)
            end) as [p|] eqn:Eport.
  - destruct (open_serial env p) as [d|] eqn:Eopen.
    + unfold and_then at 1. unfold set_ctl at 1.
      cbn [self ctl config file sent yielded].
      unfold and_then at 1. unfold lift at 1. cbn [sent self file yielded].
      destruct (set_absolute_positioning d s) as [[[]|e] l] eqn:Eabs.
      * apply set_absolute_positioning_written in Eabs. subst l.
        unfold and_then at 1. unfold set_ctl at 1.
        cbn [self ctl config file sent yielded].
        unfold and_then at 1. unfold set_config at 1.
        cbn [self ctl config file sent yielded].
        unfold and_then at 1. unfold save_config at 1.
        cbn [self ctl config file sent yielded].
        unfold and_then.
        match goal with |- context [rest_if_requested move_to_rest ?w0] =>
          destruct (rest_if_requested_returns move_to_rest w0)
            as (w1 & Er & Hs & Hf);
          pose proof (keeps_rest_extends move_to_rest w0) as [more Hm] end.
        rewrite Er in *. cbn [snd self file sent] in *.
        unfold pure. intros H. injection H as <-.
        exists p, d, more. rewrite Hs, Hf, Hm. cbn [ctl config self].
        split; [destruct port as [q|]; [congruence | exact Eport]|].
        split; [exact Eopen|]. split; [reflexivity|]. split; [reflexivity|].
        split; [reflexivity|]. rewrite <- app_assoc. reflexivity.
      * unfold and_then, get_self, set_ctl, pure. intros H. discriminate.
    + unfold throw, and_then, get_self, set_ctl, pure. intros H.
      discriminate.
  - unfold pure. intros H. discriminate.
Qed.

(** The environment of the examples: the port COM3 opens and answers. *)
Definition bench : Env :=
  mkEnv (Some "COM3"%string) (fun _ => Some (responsive None)).

Lemma new_connection_sets_absolute_mode_witness :
  exists p d more,
    p = "COM3"%string
    /\ open_serial bench p = Some d
    /\ ctl (self (snd (connect bench (Some "COM3"%string) false (start None))))
       = mkController true (Some d)
    /\ config (self (snd (connect bench (Some "COM3"%string) false
                                  (start None))))
       = mkConfig (Some p) (corners (config (self (start None))))
                  (resting_position (config (self (start None))))
    /\ file (snd (connect bench (Some "COM3"%string) false (start None)))
       = Some (config (self (snd (connect bench (Some "COM3"%string) false
                                          (start None)))))
    /\ sent (snd (connect bench (Some "COM3"%string) false (start None)))
       = sent (start None) ++ G90 :: more.
Proof.
  apply (new_connection_sets_absolute_mode bench (Some "COM3"%string) false
           (start None)
           (snd (connect bench (Some "COM3"%string) false (start None)))).
  - reflexivity.
  - reflexivity.
Defined.

(** Connecting again to the port the controller is connected to is a
    no-op: [connect] answers [True] and changes nothing, it does not
    reopen the port and writes nothing (no move to rest being asked). *)
Theorem reconnecting_is_a_no_op (env : Env) (port : option string)
        (w : World) :
  device (ctl (self w)) <> None ->
  port = Calibration.port (config (self w)) ->
  connect env port false w = (Ok true, w).
Proof.
  destruct w as [[c cfg] f s y]. cbn [self ctl config]. intros Hd ->.
  unfold connect, try_except. unfold and_then at 1. unfold get_self at 1.
  cbn [self ctl config].
  destruct (device c); [|congruence].
  assert (E : option_string_eqb (Calibration.port cfg) (Calibration.port cfg)
              = true).
  { destruct (Calibration.port cfg); cbn; [apply String.eqb_refl|reflexivity]. }
  rewrite E. reflexivity.
Qed.

Lemma reconnecting_is_a_no_op_witness :
  connect bench (Some "COM3"%string) false
          (snd (connect bench (Some "COM3"%string) false (start None)))
  = (Ok true, snd (connect bench (Some "COM3"%string) false (start None))).
Proof.
  apply (reconnecting_is_a_no_op bench (Some "COM3"%string)
           (snd (connect bench (Some "COM3"%string) false (start None)))).
  - discriminate.
  - reflexivity.
Defined.

End CalibrationFacts.

(** * The lowering branch of the executor *)

Module LoweringFacts.
Import Dexarm DexArmController.
Open Scope py_scope.

(** Lowering is safe.  When a call of [move_to_safe] with a known
    [current_z] lowers the tool by 0.5 or more and returns, it has
    written exactly two moves: the lateral travel to the target XY at the
    old height, at feedrate 10000, and then the vertical descent at the
    commanded feedrate.  For an arm that stood at [current_z], neither
    segment changes XY below the old height less 0.5. *)
Theorem lowering_travels_before_it_descends (self : Controller)
        (x y z f cz : Q) (held : Pose) (log log' : Sent) (r : Q) :
  z - cz <= - (1 # 2) ->
  pz held == cz ->
  move_to_safe self x y z f (Some cz) log = (Ok r, log') ->
  log' = log ++ [G0 x y cz 10000; G0 x y z f]
  /\ existsb (drags cz z) (segments held [G0 x y cz 10000; G0 x y z f])
     = false.
Proof.
  intros Hz Hh H. split.
  - unfold move_to_safe in H.
    destruct (device self) as [d|]; [|discriminate].
    unfold move_from, bind in H.
    assert (H1 : Qltb (Qabs (z - cz)) (1 # 2) = false).
    { apply Qltb_false. rewrite <- Qabs_opp.
      eapply Qle_trans; [|apply Qle_Qabs]. lra. }
    assert (H2 : Qltb 0 (z - cz) = false) by (apply Qltb_false; lra).
    rewrite H1, H2 in H.
    destruct (fast_move_to d x y cz 10000 log) as [[u|e] l] eqn:E1;
      [|discriminate].
    destruct (fast_move_to d x y z f l) as [[u'|e'] l2] eqn:E2;
      [|discriminate].
    cbn in H. injection H as _ <-.
    apply DriverFacts.fast_move_to_written in E1, E2. subst.
    rewrite <- app_assoc. reflexivity.
  - apply ControllerFacts.lowering_never_drags; assumption.
Qed.

Lemma lowering_travels_before_it_descends_witness :
  [G0 100 50 16 2000; G0 120 60 16 10000; G0 120 60 0 2000]
  = [G0 100 50 16 2000] ++ [G0 120 60 16 10000; G0 120 60 0 2000]
  /\ existsb (drags 16 0)
             (segments (mkPose 100 50 16)
                       [G0 120 60 16 10000; G0 120 60 0 2000])
     = false.
Proof.
  apply (lowering_travels_before_it_descends arm 120 60 0 2000 16
           (mkPose 100 50 16) [G0 100 50 16 2000] _ 0).
  - discriminate.
  - reflexivity.
  - reflexivity.
Defined.

End LoweringFacts.

(** * Facts on reading the M114 reply *)

Module PositionReplyFacts.
Import Calibration PositionReply.
Local Open Scope string_scope.

Lemma get_set_same {V} (d : Dict V) key v :
  dict_get (dict_set d key v) key = Some v.
Proof.
  induction d as [|[k w] rest IH]; cbn.
  - rewrite String.eqb_refl. reflexivity.
  - destruct (String.eqb k key) eqn:E; cbn; rewrite E; auto.
Qed.

Lemma get_set_other {V} (d : Dict V) key key' v :
  key <> key' ->
  dict_get (dict_set d key v) key' = dict_get d key'.
Proof.
  intro Hne. induction d as [|[k w] rest IH]; cbn.
  - destruct (String.eqb key key') eqn:E; [|reflexivity].
    apply String.eqb_eq in E. contradiction.
  - destruct (String.eqb k key) eqn:E; cbn.
    + apply String.eqb_eq in E. subst k.
      destruct (String.eqb key key') eqn:E'; [|reflexivity].
      apply String.eqb_eq in E'. contradiction.
    + rewrite IH. reflexivity.
Qed.

Lemma last_value_snoc {F} (float : string -> option F) axis parts part :
  last_value F float axis (parts ++ [part])%list
  = match names F float axis part with
    | Some v => Some v
    | None => last_value F float axis parts
    end.
Proof.
  unfold last_value. rewrite rev_app_distr. reflexivity.
Qed.

Section reading_facts.
Variable F : Type.
Variable float : string -> option F.

Local Abbreviation read_part := (read_part F float).
Local Abbreviation read_line := (read_line F float).
Local Abbreviation find_position := (find_position F float).
Local Abbreviation last_value := (last_value F float).
Local Abbreviation names := (names F float).

(** The keys the dict has are among 'x', 'y' and 'z'. *)
Definition axes_only (position : Dict F) : Prop :=
  forall key, dict_has position key = true ->
              key = "x" \/ key = "y" \/ key = "z".

Lemma has_set (d : Dict F) key v key' :
  dict_has (dict_set d key v) key' = true ->
  key' = key \/ dict_has d key' = true.
Proof.
  unfold dict_has. destruct (String.eqb key key') eqn:E.
  - apply String.eqb_eq in E. auto.
  - rewrite get_set_other; [auto|].
    intro H. subst. rewrite String.eqb_refl in E. discriminate.
Qed.

(** One part: the dict afterwards holds, for each axis, the number the
    part gives for it, or else what it held. *)
Lemma read_part_spec (position : Dict F) part :
  let after := read_part position part in
  let held axis key :=
    match names axis part with
    | Some v => Some v
    | None => dict_get position key
    end in
  dict_get after "x" = held "X" "x"
  /\ dict_get after "y" = held "Y" "y"
  /\ dict_get after "z" = held "Z" "z"
  /\ (axes_only position -> axes_only after).
Proof.
  cbv zeta. unfold PositionReply.read_part, PositionReply.names.
  destruct (split_colon part) as [[axis value]|]; [|auto].
  cbn [existsb].
  destruct (String.eqb (upper axis) "X") eqn:EX.
  { apply String.eqb_eq in EX. rewrite EX. cbn.
    destruct (float value) as [v|]; [|auto].
    rewrite get_set_same, !get_set_other by discriminate.
    repeat split; auto.
    intros Hk key Hh. apply has_set in Hh. destruct Hh; auto. }
  destruct (String.eqb (upper axis) "Y") eqn:EY.
  { apply String.eqb_eq in EY. rewrite EY. cbn.
    destruct (float value) as [v|]; [|auto].
    rewrite get_set_same, !get_set_other by discriminate.
    repeat split; auto.
    intros Hk key Hh. apply has_set in Hh. destruct Hh; auto. }
  destruct (String.eqb (upper axis) "Z") eqn:EZ.
  { apply String.eqb_eq in EZ. rewrite EZ. cbn.
    destruct (float value) as [v|]; [|auto].
    rewrite get_set_same, !get_set_other by discriminate.
    repeat split; auto.
    intros Hk key Hh. apply has_set in Hh. destruct Hh; auto. }
  cbn. auto.
Qed.

(** All parts: each axis holds the number of the last part that gives
    one. *)
Lemma read_parts_spec (parts : list string) :
  let position := fold_left read_part parts [] in
  dict_get position "x" = last_value "X" parts
  /\ dict_get position "y" = last_value "Y" parts
  /\ dict_get position "z" = last_value "Z" parts
  /\ axes_only position.
Proof.
  cbv zeta. induction parts as [|part parts IH] using rev_ind.
  - cbn. repeat split; auto. intros key H. discriminate.
  - rewrite fold_left_app. cbn [fold_left].
    rewrite !last_value_snoc.
    destruct IH as (Hx & Hy & Hz & Hk).
    destruct (read_part_spec (fold_left read_part parts []) part)
      as (Px & Py & Pz & Pk).
    rewrite Px, Py, Pz, Hx, Hy, Hz. auto.
Qed.

(** Within a line, a later part overrides an earlier one.  The dict a
    line gives holds, for each of the three axes, the number of the last
    part of the line that names the axis (in either case) with a text
    [float] accepts, and it has no other key; a line gives no dict
    exactly when some axis has no such part. *)
Theorem line_holds_last_value_of_each_axis (line : string) :
  match read_line line with
  | Some position =>
      exists vx vy vz,
        last_value "X" (split line) = Some vx
        /\ last_value "Y" (split line) = Some vy
        /\ last_value "Z" (split line) = Some vz
        /\ dict_get position "x" = Some vx
        /\ dict_get position "y" = Some vy
        /\ dict_get position "z" = Some vz
        /\ axes_only position
  | None => incomplete F float line
  end.
Proof.
  unfold PositionReply.read_line, incomplete.
  destruct (read_parts_spec (split line)) as (Hx & Hy & Hz & Hk).
  unfold dict_has. rewrite Hx, Hy, Hz.
  destruct (last_value "X" (split line)) as [vx|]; cbn; [|auto].
  destruct (last_value "Y" (split line)) as [vy|]; cbn; [|auto].
  destruct (last_value "Z" (split line)) as [vz|]; cbn; [|auto].
  exists vx, vy, vz. rewrite Hx, Hy, Hz. repeat split; auto.
Qed.

Lemma read_line_none (line : string) :
  read_line line = None <-> incomplete F float line.
Proof.
  unfold PositionReply.read_line, incomplete.
  destruct (read_parts_spec (split line)) as (Hx & Hy & Hz & Hk).
  unfold dict_has. rewrite Hx, Hy, Hz.
  destruct (last_value "X" (split line)) as [vx|]; cbn;
    [|split; auto].
  destruct (last_value "Y" (split line)) as [vy|]; cbn;
    [|split; auto].
  destruct (last_value "Z" (split line)) as [vz|]; cbn;
    [|split; auto].
  split; [discriminate|].
  intros [H|[H|H]]; discriminate.
Qed.

(** Of several lines, the first complete one is read.  The position
    returned is that of the first line that starts with [X:] and gives
    all three axes; lines before it either do not start with [X:] or
    miss an axis, and lines after it are not looked at.  There is no
    position exactly when every line that starts with [X:] misses an
    axis. *)
Theorem position_is_read_from_first_complete_line (lines : list string) :
  match find_position lines with
  | Some position =>
      exists before line after,
        lines = (before ++ line :: after)%list
        /\ prefix "X:" line = true
        /\ read_line line = Some position
        /\ forall l, In l before -> prefix "X:" l = true ->
                     incomplete F float l
  | None =>
      forall line, In line lines -> prefix "X:" line = true ->
                   incomplete F float line
  end.
Proof.
  induction lines as [|line rest IH]; cbn [PositionReply.find_position].
  - intros line [].
  - destruct (prefix "X:" line) eqn:Ep.
    + destruct (read_line line) as [position|] eqn:Er.
      * exists [], line, rest. repeat split; auto. intros l [].
      * apply read_line_none in Er.
        destruct (find_position rest) as [position|].
        -- destruct IH as (before & l & after & -> & Hp & Hr & Hb).
           exists (line :: before), l, after. repeat split; auto.
           intros l' [<-|Hin] Hp'; auto.
        -- intros l' [<-|Hin] Hp'; auto.
    + destruct (find_position rest) as [position|].
      * destruct IH as (before & l & after & -> & Hp & Hr & Hb).
        exists (line :: before), l, after. repeat split; auto.
        intros l' [<-|Hin] Hp'; [congruence|auto].
      * intros l' [<-|Hin] Hp'; [congruence|auto].
Qed.

End reading_facts.

(** [split] undoes joining with single spaces. *)
Lemma runs_token (t s : string) :
  spaceless t = true ->
  runs (t ++ s) = (t ++ fst (runs s), snd (runs s)).
Proof.
  induction t as [|c t IH]; cbn; intro H.
  - destruct (runs s); reflexivity.
  - apply andb_prop in H. destruct H as [Hc Ht].
    apply negb_true_iff in Hc. rewrite Hc, (IH Ht). reflexivity.
Qed.

Lemma append_empty (s : string) : s ++ "" = s.
Proof. induction s; cbn; congruence. Qed.

Definition token (t : string) : Prop := t <> "" /\ spaceless t = true.

Lemma push_token (t : string) (words : list string) :
  t <> "" -> push t words = t :: words.
Proof. destruct t; [congruence|reflexivity]. Qed.

Lemma split_joined (parts : list string) :
  Forall token parts -> split (String.concat " " parts) = parts.
Proof.
  induction 1 as [|t rest [Hne Hs] Hrest IH]; [reflexivity|].
  destruct rest as [|t' rest].
  - cbn [String.concat]. unfold split.
    rewrite <- (append_empty t) at 1. rewrite (runs_token _ _ Hs). cbn.
    rewrite append_empty. apply push_token, Hne.
  - change (String.concat " " (t :: t' :: rest))
      with (t ++ String " " (String.concat " " (t' :: rest))).
    unfold split. rewrite (runs_token _ _ Hs).
    cbn [runs]. unfold split in IH.
    destruct (runs (String.concat " " (t' :: rest))) as [w ws].
    change (isspace " ") with true. cbn [fst snd].
    rewrite append_empty, IH. apply push_token, Hne.
Qed.

Lemma token_append (a b : string) :
  a <> "" -> spaceless a = true -> spaceless b = true -> token (a ++ b).
Proof.
  intros Ha Hs Hb. split.
  - destruct a; [congruence|discriminate].
  - induction a as [|c a IH]; cbn in *; [assumption|].
    apply andb_prop in Hs. destruct Hs as [Hc Hs'].
    rewrite Hc. cbn. destruct a; [exact Hb|].
    apply IH; [discriminate|exact Hs'].
Qed.

Lemma first_some_none {A B} (f : A -> option B) (l : list A) :
  Forall (fun a => f a = None) l -> first_some f l = None.
Proof.
  induction 1 as [|a l Ha Hl IH]; cbn; [reflexivity|].
  rewrite Ha. exact IH.
Qed.

Lemma last_value_app_silent {F} (float : string -> option F) axis
      (parts others : list string) :
  Forall (fun part => names F float axis part = None) others ->
  last_value F float axis (parts ++ others)%list
  = last_value F float axis parts.
Proof.
  intro H. induction others as [|o others IH] using rev_ind.
  - rewrite app_nil_r. reflexivity.
  - apply Forall_app in H. destruct H as [Ho H1].
    rewrite app_assoc, last_value_snoc.
    inversion H1; subst. rewrite H2. apply IH, Ho.
Qed.

(** The plain reply is read as it stands.  Among lines of which none
    before starts with [X:], a line "X:<x> Y:<y> Z:<z>" followed by
    further parts that name none of the three axes, single spaces
    between the parts, gives the position with the numbers [float] reads
    from <x>, <y> and <z>. *)
Theorem plain_reply_is_read {F} (float : string -> option F)
        (noise later others : list string) (sx sy sz : string)
        (vx vy vz : F) :
  Forall (fun l => prefix "X:" l = false) noise ->
  spaceless sx = true -> spaceless sy = true -> spaceless sz = true ->
  float sx = Some vx -> float sy = Some vy -> float sz = Some vz ->
  Forall token others ->
  Forall (fun part => names F float "X" part = None
                      /\ names F float "Y" part = None
                      /\ names F float "Z" part = None) others ->
  exists position,
    find_position F float
      (noise ++ plain_line sx sy sz others :: later)%list
    = Some position
    /\ dict_get position "x" = Some vx
    /\ dict_get position "y" = Some vy
    /\ dict_get position "z" = Some vz.
Proof.
  intros Hnoise Hsx Hsy Hsz Hx Hy Hz Htok Hsilent.
  unfold plain_line.
  set (parts := ("X:" ++ sx) :: ("Y:" ++ sy) :: ("Z:" ++ sz) :: others).
  assert (Hparts : Forall token parts).
  { repeat constructor; try assumption;
      apply token_append; try discriminate; auto. }
  assert (Hsplit := split_joined parts Hparts).
  assert (Hlast : last_value F float "X" parts = Some vx
                  /\ last_value F float "Y" parts = Some vy
                  /\ last_value F float "Z" parts = Some vz).
  { change parts
      with (app [("X:" ++ sx); ("Y:" ++ sy); ("Z:" ++ sz)] others).
    rewrite !last_value_app_silent.
    - unfold last_value, names. cbn. rewrite Hx, Hy, Hz. auto.
    - eapply Forall_impl; [|exact Hsilent]. cbn. tauto.
    - eapply Forall_impl; [|exact Hsilent]. cbn. tauto.
    - eapply Forall_impl; [|exact Hsilent]. cbn. tauto. }
  destruct Hlast as (Lx & Ly & Lz).
  destruct (read_parts_spec F float parts) as (Gx & Gy & Gz & _).
  exists (fold_left (read_part F float) parts []).
  split; [|rewrite Gx, Gy, Gz; auto].
  induction Hnoise as [|l noise Hl Hn IH]; cbn [app find_position].
  - assert (Hpre : prefix "X:" (String.concat " " parts) = true).
    { unfold parts. cbn.
      match goal with |- prefix _ ?s = true => destruct s; reflexivity end. }
    rewrite Hpre.
    unfold read_line. rewrite Hsplit. unfold dict_has.
    rewrite Gx, Gy, Gz, Lx, Ly, Lz. reflexivity.
  - rewrite Hl. exact IH.
Qed.

Lemma plain_reply_is_read_witness :
  exists position,
    find_position Q sample_float
      (["echo:busy"]
       ++ plain_line "200.00" "0.00" "10.50" ["E:0.00"] :: ["ok"])%list
    = Some position
    /\ dict_get position "x" = Some (200 # 1)%Q
    /\ dict_get position "y" = Some (0 # 1)%Q
    /\ dict_get position "z" = Some (21 # 2)%Q.
Proof.
  apply (plain_reply_is_read sample_float ["echo:busy"] ["ok"] ["E:0.00"]
           "200.00" "0.00" "10.50").
  - repeat constructor.
  - reflexivity.
  - reflexivity.
  - reflexivity.
  - reflexivity.
  - reflexivity.
  - reflexivity.
  - repeat constructor; discriminate.
  - repeat constructor.
Defined.

(** A sample line in which the axes are named twice: the later numbers
    are the ones returned. *)
Example later_numbers_are_returned :
  match read_line Q sample_float
          "X:200.00 Y:0.00 Z:10.50 E:0.00 Count X:16000 Y:10.50 Z:0.00" with
  | Some position =>
      dict_get position "x" = Some (16000 # 1)%Q
      /\ dict_get position "y" = Some (21 # 2)%Q
      /\ dict_get position "z" = Some (0 # 1)%Q
  | None => False
  end.
Proof. vm_compute. auto. Qed.

End PositionReplyFacts.

(** * Facts on joining segments *)

Module JoinerFacts.
Import PlotterSVGGenerator SegmentJoiner.

Lemma insert_permutes (s : Segment) (l : list Segment) :
  Permutation (insert s l) (s :: l).
Proof.
  induction l as [|h t IH]; cbn; [reflexivity|].
  destruct (Qle_bool (seg_length h) (seg_length s)); [reflexivity|].
  rewrite IH. apply perm_swap.
Qed.

Lemma sort_permutes (l : list Segment) :
  Permutation (sort_longest_first l) l.
Proof.
  induction l as [|s l IH]; cbn; [reflexivity|].
  rewrite insert_permutes, IH. reflexivity.
Qed.

Lemma last_after_cons {A} (l : list A) (a d : A) :
  last (a :: l) d = last l a.
Proof.
  revert a d. induction l as [|b l IH]; intros a d; [reflexivity|].
  change (last (a :: b :: l) d) with (last (b :: l) d).
  rewrite (IH b d), (IH b a). reflexivity.
Qed.

Lemma used_has_add (used : list nat) (j k : nat) :
  used_has (j :: used) k = Nat.eqb k j || used_has used k.
Proof. reflexivity. Qed.

Lemma unused_add_below (used : list nat) (k i : nat) (l : list Segment) :
  (k < i)%nat -> unused (k :: used) i l = unused used i l.
Proof.
  revert i. induction l as [|s l IH]; intros i Hk; cbn [unused];
    [reflexivity|].
  rewrite used_has_add.
  replace (Nat.eqb i k) with false
    by (symmetry; apply Nat.eqb_neq; lia).
  cbn [orb]. rewrite IH by lia. reflexivity.
Qed.

Lemma unused_take (used : list nat) (l : list Segment) :
  forall i k c,
    nth_error l k = Some c ->
    used_has used (i + k) = false ->
    Permutation (unused used i l) (c :: unused ((i + k)%nat :: used) i l).
Proof.
  induction l as [|h l IH]; intros i k c Hn Hu; [destruct k; discriminate|].
  destruct k as [|k]; cbn in Hn.
  - injection Hn as ->. rewrite Nat.add_0_r in *. cbn [unused].
    rewrite used_has_add, Hu, Nat.eqb_refl. cbn [orb].
    rewrite unused_add_below by lia. reflexivity.
  - cbn [unused]. rewrite used_has_add.
    replace (Nat.eqb i (i + S k)) with false
      by (symmetry; apply Nat.eqb_neq; lia).
    cbn [orb]. replace (i + S k)%nat with (S i + k)%nat in * by lia.
    destruct (used_has used i).
    + apply IH; assumption.
    + rewrite (IH (S i) k c Hn Hu). apply perm_swap.
Qed.

Lemma unused_none (used : list nat) (l : list Segment) :
  forall i,
    (forall k, (i <= k < i + List.length l)%nat -> used_has used k = true) ->
    unused used i l = [].
Proof.
  induction l as [|h l IH]; intros i H; cbn; [reflexivity|].
  rewrite (H i) by (cbn; lia). apply IH.
  intros k Hk. apply H. cbn. lia.
Qed.

Lemma unused_all (l : list Segment) (i : nat) : unused [] i l = l.
Proof.
  revert i. induction l as [|h l IH]; intro i; cbn; [reflexivity|].
  rewrite IH. reflexivity.
Qed.

Lemma unused_length (used : list nat) (l : list Segment) (i : nat) :
  (List.length (unused used i l) <= List.length l)%nat.
Proof.
  revert i. induction l as [|h l IH]; intro i; cbn; [lia|].
  destruct (used_has used i); cbn; specialize (IH (S i)); lia.
Qed.

Section joiner_facts.
Variable sqrt : Q -> Q.
Variable threshold : Q.

Local Abbreviation find_candidate := (find_candidate sqrt threshold).
Local Abbreviation extend := (extend sqrt threshold).
Local Abbreviation paths_from := (paths_from sqrt threshold).
Local Abbreviation linked := (linked sqrt threshold).
Local Abbreviation far := (far sqrt threshold).
Local Abbreviation sealed := (sealed sqrt threshold).

(** The candidate found is an unused one, near on the side it is taken
    by. *)
Lemma find_candidate_some current_end used (l : list Segment) :
  forall j k c r,
    find_candidate current_end used j l = Some (k, c, r) ->
    exists n, k = (j + n)%nat
              /\ nth_error l n = Some c
              /\ used_has used k = false
              /\ _point_distance sqrt current_end (link_from (c, r))
                 < threshold.
Proof.
  induction l as [|h l IH]; intros j k c r H; cbn in H; [discriminate|].
  assert (Hrec : find_candidate current_end used (S j) l = Some (k, c, r) ->
                 exists n, k = (j + n)%nat
                           /\ nth_error (h :: l) n = Some c
                           /\ used_has used k = false
                           /\ _point_distance sqrt current_end
                                              (link_from (c, r))
                              < threshold).
  { intro H'. destruct (IH _ _ _ _ H') as (n & -> & Hn & Hu & Hd).
    exists (S n). split; [lia|]. split; [exact Hn|].
    split; [exact Hu|exact Hd]. }
  destruct (used_has used j) eqn:Eu; [auto|].
  destruct (Qltb (_point_distance sqrt current_end (seg_start h)) threshold)
    eqn:E1.
  { injection H as <- <- <-. exists 0%nat. rewrite Nat.add_0_r.
    repeat split; auto. apply Qltb_true in E1. exact E1. }
  destruct (Qltb (_point_distance sqrt current_end (seg_end h)) threshold)
    eqn:E2.
  { injection H as <- <- <-. exists 0%nat. rewrite Nat.add_0_r.
    repeat split; auto. apply Qltb_true in E2. exact E2. }
  auto.
Qed.

(** When none is found, every unused segment is far. *)
Lemma find_candidate_none current_end used (l : list Segment) :
  forall j,
    find_candidate current_end used j l = None ->
    Forall (far current_end) (unused used j l).
Proof.
  induction l as [|h l IH]; intros j H; cbn in *; [constructor|].
  destruct (used_has used j); [auto|].
  destruct (Qltb (_point_distance sqrt current_end (seg_start h)) threshold)
    eqn:E1; [discriminate|].
  destruct (Qltb (_point_distance sqrt current_end (seg_end h)) threshold)
    eqn:E2; [discriminate|].
  constructor; [|auto].
  split; apply Qltb_false; assumption.
Qed.

Lemma used_has_cons used k j :
  used_has used k = true -> used_has (j :: used) k = true.
Proof. intro H. rewrite used_has_add, H. apply orb_true_r. Qed.

(** The [while] loop: with fuel above the number of unused segments it
    ends, having linked some of them to the path and being far from all
    that are left. *)
Lemma extend_spec (segments : list Segment) :
  forall fuel current_path current_end used,
    (List.length (unused used 0 segments) < fuel)%nat ->
    exists path used' ls,
      extend fuel segments current_path current_end used
      = Some (path, used')
      /\ path = current_path ++ tails ls
      /\ linked current_end ls
      /\ Permutation (unused used 0 segments)
                     (map fst ls ++ unused used' 0 segments)
      /\ Forall (far (open_end current_end ls)) (unused used' 0 segments)
      /\ (forall k, used_has used k = true -> used_has used' k = true).
Proof.
  induction fuel as [|fuel IH]; intros current_path current_end used Hf;
    [lia|].
  cbn [SegmentJoiner.extend].
  destruct (find_candidate current_end used 0 segments)
    as [[[j c] r]|] eqn:Ef.
  - destruct (find_candidate_some _ _ _ _ _ _ _ Ef)
      as (n & -> & Hn & Hu & Hd).
    cbn [Nat.add] in *.
    pose proof (unused_take used segments 0 n c Hn Hu) as Hp.
    cbn [Nat.add] in Hp.
    assert (Hlen : (List.length (unused (n :: used) 0 segments) < fuel)%nat).
    { apply Permutation_length in Hp. cbn in Hp. lia. }
    set (path1 := current_path ++ tl (link_points (c, r))).
    destruct (IH path1 (link_to (c, r)) (n :: used) Hlen)
      as (path & used' & ls & He & Hpath & Hl & Hperm & Hfar & Hmono).
    exists path, used', ((c, r) :: ls).
    split; [|split; [|split; [|split; [|split]]]].
    + destruct r; exact He.
    + rewrite Hpath. unfold path1. cbn. rewrite <- app_assoc. reflexivity.
    + cbn [SegmentJoiner.linked]. split; assumption.
    + rewrite Hp. cbn. apply perm_skip. exact Hperm.
    + unfold open_end in *. cbn [map].
      rewrite last_after_cons. exact Hfar.
    + intros k Hk. apply Hmono, used_has_cons, Hk.
  - exists current_path, used, [].
    split; [reflexivity|]. split; [cbn; rewrite app_nil_r; reflexivity|].
    split; [exact I|]. split; [reflexivity|].
    split; [|auto].
    apply find_candidate_none in Ef. exact Ef.
Qed.

(** The [for] loop from index [i] on, when all indices below [i] are
    used. *)
Lemma paths_from_spec (segments : list Segment) :
  forall todo done used joined_paths,
    segments = done ++ todo ->
    (forall k, (k < List.length done)%nat -> used_has used k = true) ->
    exists chains,
      paths_from (List.length done) todo segments used joined_paths
      = Some (joined_paths ++ map render chains)
      /\ Permutation (unused used 0 segments) (flat_map members chains)
      /\ Forall (fun c => linked (seg_end (head c)) (links c)) chains
      /\ sealed chains.
Proof.
  induction todo as [|seg todo IH]; intros done used joined Hs Hu.
  - exists []. cbn. rewrite app_nil_r.
    split; [reflexivity|]. split; [|split; [constructor|exact I]].
    rewrite unused_none; [reflexivity|].
    intros k Hk. apply Hu. rewrite Hs, app_nil_r in Hk. lia.
  - cbn [SegmentJoiner.paths_from].
    assert (Hs' : segments = (done ++ [seg]) ++ todo)
      by (rewrite <- app_assoc; exact Hs).
    assert (Hl : List.length (done ++ [seg]) = S (List.length done))
      by (rewrite length_app; cbn; lia).
    destruct (used_has used (List.length done)) eqn:Ei.
    + destruct (IH (done ++ [seg]) used joined Hs') as (chains & H).
      { intros k Hk. rewrite Hl in Hk.
        destruct (Nat.eq_dec k (List.length done)) as [->|Hne];
          [exact Ei|apply Hu; lia]. }
      rewrite Hl in H. exists chains. exact H.
    + assert (Hn : nth_error segments (List.length done) = Some seg).
      { rewrite Hs, nth_error_app2, Nat.sub_diag by lia. reflexivity. }
      pose proof (unused_take used segments 0 _ seg Hn Ei) as Hp.
      cbn [Nat.add] in Hp.
      set (i := List.length done) in *.
      assert (Hf : (List.length (unused (i :: used) 0 segments)
                    < S (List.length segments))%nat).
      { pose proof (unused_length (i :: used) segments 0). lia. }
      destruct (extend_spec segments _ (seg_points seg) (seg_end seg)
                            (i :: used) Hf)
        as (path & used' & ls & He & Hpath & Hlk & Hperm & Hfar & Hmono).
      rewrite He.
      destruct (IH (done ++ [seg]) used' (joined ++ [path]) Hs')
        as (chains & Hr & Hpc & Hlc & Hsc).
      { intros k Hk. rewrite Hl in Hk. apply Hmono.
        destruct (Nat.eq_dec k i) as [->|Hne].
        - cbn. rewrite Nat.eqb_refl. reflexivity.
        - apply used_has_cons, Hu. unfold i in *. lia. }
      rewrite Hl in Hr.
      exists (mkChain seg ls :: chains).
      split; [|split; [|split]].
      * rewrite Hr, <- app_assoc. cbn. unfold render at 2. cbn.
        rewrite Hpath. reflexivity.
      * rewrite Hp, Hperm. cbn. apply perm_skip.
        apply Permutation_app_head. exact Hpc.
      * constructor; [exact Hlk|exact Hlc].
      * cbn. split; [|exact Hsc].
        eapply Permutation_Forall; [exact Hpc|exact Hfar].
Qed.

(** Joining uses every segment once.  [_join_nearby_segments] returns,
    and its paths are those of chains of segments: every segment given is
    in exactly one chain, as head or as a link; the path of a chain is
    the points of its head followed by the points of each link, reversed
    where it was attached by its end, without their first point; each
    link is attached nearer than the threshold to the open end before it;
    and no segment of a later chain has an endpoint nearer than the
    threshold to the open end of an earlier chain. *)
Theorem joined_paths_are_chains (segments : list Segment) :
  exists chains,
    _join_nearby_segments sqrt threshold segments
    = Some (map render chains)
    /\ Permutation (flat_map members chains) segments
    /\ Forall (fun c => linked (seg_end (head c)) (links c)) chains
    /\ sealed chains.
Proof.
  destruct segments as [|s rest].
  - exists []. cbn. repeat split; constructor.
  - unfold _join_nearby_segments.
    set (sorted := sort_longest_first (s :: rest)).
    destruct (paths_from_spec sorted sorted [] [] [] eq_refl)
      as (chains & Hr & Hp & Hl & Hs).
    { cbn. intros k Hk. lia. }
    exists chains. cbn [List.length app] in Hr.
    split; [exact Hr|]. split; [|split; assumption].
    rewrite <- Hp.
    rewrite unused_all. apply sort_permutes.
Qed.

End joiner_facts.

End JoinerFacts.
